(** * ReactPress release and code-generation scripts

    A shallow embedding of the three Node.js scripts of the repository

      - [scripts/publish-packages.js]            (module [Publish]),
      - [toolkit/scripts/generate-api-types.js]  (module [GenTypes]),
      - [toolkit/scripts/generate-api.js]        (module [GenApi]),

    together with the part of the JavaScript runtime they rely on
    (module [JS]): strings, [parseInt], number printing, [split],
    global [replace], JSON values; the effects of the scripts (module
    [Eff]): the store of manifests, the trace of the steps, exceptions
    and [process.exit]; and the reading of a content by its quotes
    (module [Quotes]) on which the facts about the import fixes rest.

    The definitions come first.  The facts follow, module by module; the
    properties of the specification are the theorems named [C1] to
    [C10] in the modules [VersionClaims], [ManifestClaims], [FlowClaims]
    and [TextClaims].

    Text is modelled as the list of bytes of its UTF-8 encoding.  Every
    pattern used by the scripts only inspects ASCII characters, so a
    multi-byte character behaves as a run of bytes none of which is ASCII,
    exactly like the single UTF-16 unit it stands for; the few places where
    the runtime singles out non-ASCII characters (white space skipped by
    [parseInt], the line separators the regular-expression dot refuses)
    list their encodings explicitly. *)

From Stdlib Require Import ZArith QArith Ascii String.
From stdpp Require Import gmap strings list.

Set Default Goal Selector "!".
Set Warnings "-register-all".

Definition text := list ascii.

(** String literals of the scripts. *)
Definition txt (s : string) : text := list_ascii_of_string s.

(* ===================================================================== *)
(** * The JavaScript runtime *)
(* ===================================================================== *)

Module JS.

(** ** Characters *)

Definition code (c : ascii) : N := N_of_ascii c.

Definition in_range (lo hi : N) (c : ascii) : bool :=
  ((lo <=? code c) && (code c <=? hi))%N.

(** [\d] *)
Definition is_digit (c : ascii) : bool := in_range 48 57 c.
(** [[A-Z]] *)
Definition is_upper (c : ascii) : bool := in_range 65 90 c.
(** [[a-z]] *)
Definition is_lower (c : ascii) : bool := in_range 97 122 c.
(** [\w] is [[A-Za-z0-9_]] *)
Definition is_word (c : ascii) : bool :=
  is_upper c || is_lower c || is_digit c || (code c =? 95)%N.

(** [String.prototype.toLowerCase] on one character: only [A-Z] move in
    the ASCII range, and no multi-byte character is ever passed here. *)
Definition to_lower (c : ascii) : ascii :=
  if is_upper c then ascii_of_N (code c + 32) else c.

(** ** Strings *)

Fixpoint text_eqb (a b : text) : bool :=
  match a, b with
  | [], [] => true
  | x :: a', y :: b' => Ascii.eqb x y && text_eqb a' b'
  | _, _ => false
  end.

(** [strip_prefix p s] is [Some r] exactly when [s = p ++ r]. *)
Fixpoint strip_prefix (p s : text) : option text :=
  match p, s with
  | [], _ => Some s
  | x :: p', y :: s' => if Ascii.eqb x y then strip_prefix p' s' else None
  | _ :: _, [] => None
  end.

(** [s.startsWith(p)] *)
Definition startsWith (s p : text) : bool :=
  match strip_prefix p s with Some _ => true | None => false end.

(** [s.endsWith(p)] *)
Definition endsWith (s p : text) : bool := startsWith (rev s) (rev p).

(** [s.includes(p)] *)
Fixpoint includes (s p : text) : bool :=
  match s with
  | [] => startsWith [] p
  | _ :: s' => startsWith s p || includes s' p
  end.

(** [s.split(c)] for a one-character separator: never empty, and the
    empty string splits into one empty piece. *)
Fixpoint split_on (c : ascii) (s : text) : list text :=
  match s with
  | [] => [[]]
  | x :: s' =>
      if Ascii.eqb x c then [] :: split_on c s'
      else match split_on c s' with
           | h :: r => (x :: h) :: r
           | [] => [[x]]
           end
  end.

(** The longest prefix whose characters satisfy [f], and the rest. *)
Fixpoint span (f : ascii -> bool) (s : text) : text * text :=
  match s with
  | [] => ([], [])
  | x :: s' =>
      if f x then let '(a, b) := span f s' in (x :: a, b) else ([], s)
  end.

(** ** Numbers

    The scripts only ever hold integers in their Number values: results of
    [parseInt] and those plus one.  A Number is modelled as [NaN] or an
    exact integer; the runtime computes in IEEE doubles, which are exact
    for integers of magnitude up to [max_safe] and round beyond, so the
    statements about arithmetic below bound their numbers by [max_safe]. *)

Inductive jsnum := NaN | Num (z : Z).


Definition num_add (a : jsnum) (k : Z) : jsnum :=
  match a with NaN => NaN | Num z => Num (z + k) end.

Definition digit_char (d : N) : ascii := ascii_of_N (48 + d).

Fixpoint dec_digits (fuel : nat) (n : N) (acc : text) : text :=
  match fuel with
  | O => acc
  | S fuel' =>
      let acc' := digit_char (n mod 10) :: acc in
      if (n / 10 =? 0)%N then acc' else dec_digits fuel' (n / 10) acc'
  end.

(** Decimal numeral of a natural number. *)
Definition dec (n : N) : text := dec_digits (S (N.to_nat (N.log2 n))) n [].

(** Number to string, as a template literal does it. *)
Definition num_to_text (a : jsnum) : text :=
  match a with
  | NaN => txt "NaN"
  | Num z => if (z <? 0)%Z then txt "-" ++ dec (Z.abs_N z) else dec (Z.to_N z)
  end.

(** Value of a digit in a radix, if it is one. *)
Definition digit_value (radix : N) (c : ascii) : option N :=
  let v := if is_digit c then Some (code c - 48)%N
           else if in_range 97 122 c then Some (code c - 87)%N
           else if in_range 65 90 c then Some (code c - 55)%N
           else None in
  match v with
  | Some d => if (d <? radix)%N then Some d else None
  | None => None
  end.

(** Reads digits of the radix for as long as there are some: the value
    read so far, and whether any digit was read. *)
Fixpoint read_digits (radix : N) (s : text) (acc : N) (seen : bool) : N * bool :=
  match s with
  | [] => (acc, seen)
  | c :: s' =>
      match digit_value radix c with
      | Some d => read_digits radix s' (acc * radix + d)%N true
      | None => (acc, seen)
      end
  end.

(** The three-byte encodings of white space: U+1680, U+2000..U+200A,
    U+2028, U+2029, U+202F, U+205F, U+3000 and U+FEFF. *)
Definition space3 (c c1 c2 : ascii) : bool :=
  let three (a b lo hi : N) :=
    ((code c =? a) && (code c1 =? b))%N && in_range lo hi c2 in
  (three 225 154 128 128 || three 226 128 128 138
   || three 226 128 168 169 || three 226 128 175 175
   || three 226 129 159 159 || three 227 128 128 128
   || three 239 187 191 191)%N.


(** Leading white space and line terminators, which [parseInt] skips:
    TAB, LF, VT, FF, CR, SP, and the encodings of U+00A0, U+1680,
    U+2000..U+200A, U+2028, U+2029, U+202F, U+205F, U+3000, U+FEFF. *)
Fixpoint skip_space (s : text) : text :=
  match s with
  | c :: s1 =>
      if in_range 9 13 c || (code c =? 32)%N then skip_space s1
      else
        match s1 with
        | c1 :: s2 =>
            if (code c =? 194)%N && (code c1 =? 160)%N then skip_space s2
            else
              match s2 with
              | c2 :: s3 =>
                  if space3 c c1 c2 then skip_space s3 else s
              | [] => s
              end
        | [] => s
        end
  | [] => []
  end.

(** An optional sign. *)
Definition read_sign (s : text) : bool * text :=
  match s with
  | c :: s' =>
      if (code c =? 45)%N then (true, s')
      else if (code c =? 43)%N then (false, s') else (false, s)
  | [] => (false, s)
  end.

(** With no radix argument, [0x] or [0X] announces radix 16. *)
Definition read_radix (s : text) : N * text :=
  match s with
  | z :: x :: s' =>
      if (code z =? 48)%N && ((code x =? 120) || (code x =? 88))%N
      then (16%N, s') else (10%N, s)
  | _ => (10%N, s)
  end.

(** [parseInt(s)] with no radix argument. *)
Definition parseInt (s : text) : jsnum :=
  let '(neg, s) := read_sign (skip_space s) in
  let '(radix, s) := read_radix s in
  match read_digits radix s 0 false with
  | (n, true) => Num (if neg then - Z.of_N n else Z.of_N n)
  | (_, false) => NaN
  end.

(** [parseInt(parts[i])]: a missing element is [undefined], whose string
    form has no digit. *)
Definition parseInt_at (parts : list text) (i : nat) : jsnum :=
  match nth_error parts i with
  | Some s => parseInt s
  | None => NaN
  end.

(** ** Global replace

    [s.replace(re, by)] for a regular expression with the [g] flag.  A
    pattern is given by its matcher: applied to the text that starts at
    the current position it returns, when the pattern matches there, the
    replacement and the number of characters matched.  (None of the
    patterns of the scripts looks behind the position it is tried at.)
    The scan tries every position from left to right, and resumes after
    a match where it ended; an empty match is replaced and the scan moves
    on by one character. *)

Definition matcher := text -> option (text * nat).

Fixpoint gsub_from (m : matcher) (skip : nat) (s : text) : text :=
  match s with
  | [] =>
      match skip with
      | O => match m [] with Some (r, _) => r | None => [] end
      | S _ => []
      end
  | c :: s' =>
      match skip with
      | S k => gsub_from m k s'
      | O =>
          match m s with
          | Some (r, O) => r ++ c :: gsub_from m 0 s'
          | Some (r, S k) => r ++ gsub_from m k s'
          | None => c :: gsub_from m 0 s'
          end
      end
  end.

Definition gsub (m : matcher) (s : text) : text := gsub_from m 0 s.

(** A literal pattern and a literal replacement. *)
Definition literally (pat rep : text) : matcher :=
  fun s => if startsWith s pat then Some (rep, length pat) else None.

(** [s.replace(re, by)] without the [g] flag: the first match only. *)
Fixpoint sub_first (m : matcher) (s : text) : text :=
  match m s with
  | Some (r, n) => r ++ skipn n s
  | None => match s with [] => [] | c :: s' => c :: sub_first m s' end
  end.

(** ** JSON values

    What [JSON.parse] returns.  An object lists its properties in the
    order [Object.keys] enumerates them; their keys are distinct. *)

Inductive json :=
  | JNull
  | JBool (b : bool)
  | JNum (q : Q)
  | JStr (s : text)
  | JArr (items : list json)
  | JObj (fields : list (text * json)).

(** A JavaScript value as the scripts meet them: [undefined] or a JSON
    value. *)
Inductive jsval := Undefined | Val (j : json).

(** [if (v)] *)
Definition truthy (v : jsval) : bool :=
  match v with
  | Undefined => false
  | Val JNull => false
  | Val (JBool b) => b
  | Val (JNum q) => negb (Qeq_bool q 0)
  | Val (JStr s) => match s with [] => false | _ :: _ => true end
  | Val (JArr _) | Val (JObj _) => true
  end.

(** [obj[k]] on the properties of an object. *)
Fixpoint get_field (k : text) (fields : list (text * json)) : jsval :=
  match fields with
  | [] => Undefined
  | (k', v) :: rest => if text_eqb k' k then Val v else get_field k rest
  end.

(** [obj[k] = v]: in place when the property exists, else added last. *)
Fixpoint set_field (k : text) (v : json) (fields : list (text * json))
  : list (text * json) :=
  match fields with
  | [] => [(k, v)]
  | (k', v') :: rest =>
      if text_eqb k' k then (k', v) :: rest else (k', v') :: set_field k v rest
  end.

(** The double quote, for the command lines that contain one. *)
Definition dquote : text := [ascii_of_N 34].

(** ** Errors *)

Inductive exn :=
  | TypeError                      (* property access or call on a wrong value *)
  | ReadError                      (* [readFileSync] of a missing file *)
  | SyntaxError                    (* [JSON.parse] of text that is not JSON *)
  | CommandFailed (command : text) (* [execSync] of a command that fails *)
  | Error (message : text).        (* [throw new Error(message)] *)

End JS.

(* ===================================================================== *)
(** * Effects: a store, a trace, exceptions and [process.exit] *)
(* ===================================================================== *)

Module Eff.
Import JS.

Inductive outcome (A : Type) :=
  | Ret (a : A)        (* normal completion *)
  | Throw (e : exn)    (* an exception is propagating *)
  | Exit (status : Z). (* [process.exit(status)] was called *)
Arguments Ret {A} a.
Arguments Throw {A} e.
Arguments Exit {A} status.

Section Monad.
Context {St Ev : Type}.

Record world := World { store : St; trace : list Ev }.

Definition M (A : Type) : Type := world -> outcome A * world.

Definition ret {A} (a : A) : M A := fun w => (Ret a, w).

Definition bind {A B} (m : M A) (k : A -> M B) : M B :=
  fun w =>
    match m w with
    | (Ret a, w') => k a w'
    | (Throw e, w') => (Throw e, w')
    | (Exit c, w') => (Exit c, w')
    end.

Definition throw {A} (e : exn) : M A := fun w => (Throw e, w).

(** [process.exit(status)]: nothing runs afterwards, no handler and no
    [finally] block. *)
Definition exit {A} (status : Z) : M A := fun w => (Exit status, w).

Definition emit (e : Ev) : M unit :=
  fun w => (Ret tt, World (store w) (trace w ++ [e])).

Definition get_store : M St := fun w => (Ret (store w), w).

Definition put_store (s : St) : M unit :=
  fun w => (Ret tt, World s (trace w)).

(** The whole world, for the oracles that stand for the outside. *)
Definition observe : M world := fun w => (Ret w, w).

(** [try { m } catch (e) { h e }] *)
Definition try_catch {A} (m : M A) (h : exn -> M A) : M A :=
  fun w =>
    match m w with
    | (Throw e, w') => h e w'
    | r => r
    end.

(** [try { m } finally { f }]: [f] runs after [m] completes or throws; if
    [f] itself throws or exits, that replaces the outcome of [m]. *)
Definition try_finally {A} (m : M A) (f : M unit) : M A :=
  fun w =>
    match m w with
    | (Exit c, w') => (Exit c, w')
    | (r, w') =>
        match f w' with
        | (Ret _, w'') => (r, w'')
        | (Throw e, w'') => (Throw e, w'')
        | (Exit c, w'') => (Exit c, w'')
        end
    end.

(** [for (const x of l) { body x }] *)
Fixpoint for_each {A} (l : list A) (body : A -> M unit) : M unit :=
  match l with
  | [] => ret tt
  | x :: l' => bind (body x) (fun _ => for_each l' body)
  end.

End Monad.

Arguments world : clear implicits.
Arguments M : clear implicits.

#[global] Instance M_ret {St Ev} : MRet (M St Ev) := fun A => @ret St Ev A.
#[global] Instance M_bind {St Ev} : MBind (M St Ev) :=
  fun A B k m => @bind St Ev A B m k.

(** ** Speaking of runs *)

(** How a computation ended, whatever it returned. *)
Inductive ending := Returned | Thrown | Exited (status : Z).

Definition ending_of {A} (o : outcome A) : ending :=
  match o with
  | Ret _ => Returned
  | Throw _ => Thrown
  | Exit c => Exited c
  end.

Section Runs.
Context {St Ev : Type}.

(** [emits m Φ]: from any world, [m] adds to the trace events that, with
    the outcome, satisfy [Φ]. *)
Definition emits {A} (m : M St Ev A) (Φ : outcome A -> list Ev -> Prop) : Prop :=
  forall w, exists o st evs,
    m w = (o, World st (trace w ++ evs)) /\ Φ o evs.

(** A property of endings and events is sequential when it holds of
    doing nothing and passes from the parts of a sequence to the whole. *)
Record sequential (I : ending -> list Ev -> Prop) : Prop := {
  seq_nil : I Returned [];
  seq_app evs1 k evs2 : I Returned evs1 -> I k evs2 -> I k (evs1 ++ evs2)
}.

(** [keeps m I]: the ending and the events of every run of [m] satisfy
    [I]. *)
Definition keeps {A} (m : M St Ev A) (I : ending -> list Ev -> Prop) : Prop :=
  emits m (fun o evs => I (ending_of o) evs).

End Runs.

End Eff.

(* ===================================================================== *)
(** * scripts/publish-packages.js: versions *)
(* ===================================================================== *)

Module Publish.
Import JS Eff.

(** ** The packages, in build order *)

Record package := { name : text; path : text; description : text }.

Definition packages : list package :=
  [ {| name := txt "@fecommunity/reactpress-config";
       path := txt "config";
       description := txt "Configuration management package" |};
    {| name := txt "@fecommunity/reactpress-server";
       path := txt "server";
       description := txt "Backend API server package" |};
    {| name := txt "@fecommunity/reactpress-client";
       path := txt "client";
       description := txt "Frontend application package" |} ].

(** [packages.find(p => p.name === depName)] *)
Definition find_package (depName : text) : option package :=
  find (fun p => text_eqb (name p) depName) packages.

(** ** Regular expressions of [incrementVersion] *)

(** Does the text start with a line terminator (LF, CR, U+2028, U+2029)?
    The dot of a regular expression matches any character but these. *)
Definition starts_line_terminator (s : text) : bool :=
  match s with
  | c :: s1 =>
      (code c =? 10)%N || (code c =? 13)%N
      || match s1 with
         | c1 :: c2 :: _ =>
             (code c =? 226)%N && (code c1 =? 128)%N && in_range 168 169 c2
         | _ => false
         end
  | [] => false
  end.

(** A group of any number of dots followed by the pattern [p] up to the
    end of the string: the star is greedy, so the longest run of dots is
    tried first and given back one character at a time until [p] accepts
    what is left. *)
Fixpoint dot_star_then {B} (p : text -> option B) (s : text) : option (text * B) :=
  match s with
  | [] => option_map (pair []) (p [])
  | c :: s' =>
      if starts_line_terminator s then option_map (pair []) (p s)
      else match dot_star_then p s' with
           | Some (g, b) => Some (c :: g, b)
           | None => option_map (pair []) (p s)
           end
  end.

(** [tag(\d+)$] for a literal [tag]. *)
Definition tag_number_end (tag s : text) : option text :=
  match strip_prefix tag s with
  | Some ds =>
      match ds with
      | [] => None
      | _ :: _ => if forallb is_digit ds then Some ds else None
      end
  | None => None
  end.

(** [version.match] against "anything, then -beta. , then digits up to
    the end", and its alpha twin: the two groups of the match, if there
    is one. *)
Definition match_prerelease (tag version : text) : option (text * text) :=
  dot_star_then (tag_number_end (txt "-" ++ tag ++ txt ".")) version.

(** ** [incrementVersion] *)

Definition bump_prerelease (tag version : text) : text :=
  match match_prerelease tag version with
  | Some (baseVersion, number) =>
      baseVersion ++ txt "-" ++ tag ++ txt "."
        ++ num_to_text (num_add (parseInt number) 1)
  | None => version ++ txt "-" ++ tag ++ txt ".1"
  end.

Definition incrementVersion (version type : text) : text :=
  let parts := split_on "." (hd [] (split_on "-" version)) in
  let major := parseInt_at parts 0 in
  let minor := parseInt_at parts 1 in
  let patch := parseInt_at parts 2 in
  if text_eqb type (txt "major") then
    num_to_text (num_add major 1) ++ txt ".0.0"
  else if text_eqb type (txt "minor") then
    num_to_text major ++ txt "." ++ num_to_text (num_add minor 1) ++ txt ".0"
  else if text_eqb type (txt "patch") then
    num_to_text major ++ txt "." ++ num_to_text minor ++ txt "."
      ++ num_to_text (num_add patch 1)
  else if text_eqb type (txt "beta") then bump_prerelease (txt "beta") version
  else if text_eqb type (txt "alpha") then bump_prerelease (txt "alpha") version
  else version.




(** ** The world of the script *)

(** A [package.json], by what [JSON.parse(fs.readFileSync(..))] makes of
    it.  A file that does not exist has no entry in the store.
    [JSON.stringify] followed by [JSON.parse] gives back the value
    written, so a file written by the script holds that value. *)
Inductive file :=
  | NotJson            (* the text is not JSON *)
  | Manifest (j : json).

(** The manifests, by package path: [path p] stands for the file
    [path.join(process.cwd(), p, 'package.json')]. *)
Abbreviation files := (gmap text file).

(** The calls of the script that are its steps, and what it reports. *)
Inductive event :=
  | GetCurrentVersion (packagePath : text)
  | GetNextAvailableVersion (packageName : text) (versionType : text)
  | FixWorkspaceDependencies (packagePath : text)
  | UpdateVersion (packagePath : text) (newVersion : text)
  | BuildPackage (packagePath : text)
  | PublishPackage (packagePath : text) (tag : text)
  | RestoreWorkspaceDependencies (packagePath : text)
  | CreateGitHubRelease (tagName : text)
  | ExecSync (command : text) (cwd : text) (succeeded : bool)
  | Log (message : text)           (* [console.log] of a warning or a failure *)
  | LogError (message : text) (e : exn). (* [console.error] *)

Abbreviation world := (Eff.world files event).
Abbreviation M := (Eff.M files event).

(** The versions gathered for dependency resolution, by package name:
    the object [packageVersions]. *)
Abbreviation versions := (gmap text jsval).

(** What the script is given: the command line, the answers typed at the
    prompts, which package directories exist, and the outcome of every
    subprocess.  A subprocess is known by its exit status and output; it
    may depend on everything that happened before, and it is taken not to
    write the manifests. *)
Record env := {
  noBuild : bool;                        (* [--no-build] on the command line *)
  sh : world -> text -> text -> option text;  (* command, cwd: its output,
                                                 or [None] if it fails *)
  dir_exists : text -> bool;             (* [fs.existsSync] of a package dir *)
  ask_action : text;
  ask_selectedPackage : package;
  ask_versionType : text;
  ask_customVersion : text -> text;      (* asked per package name *)
  ask_customVersion_all : text;          (* asked once, for all packages *)
  ask_tag : text;
  ask_confirm : bool
}.

Section Script.
Variable E : env.

(** [execSync(command, { cwd })], its output thrown away or returned. *)
Definition execSync (command cwd : text) : M text :=
  w ← observe;
  match sh E w command cwd with
  | Some out => emit (ExecSync command cwd true);; mret out
  | None => emit (ExecSync command cwd false);; throw (CommandFailed command)
  end.

(** [JSON.parse(fs.readFileSync(pkgPath, 'utf8'))] *)
Definition read_manifest (packagePath : text) : M json :=
  fs ← get_store;
  match fs !! packagePath with
  | None => throw ReadError
  | Some NotJson => throw SyntaxError
  | Some (Manifest j) => mret j
  end.

(** [fs.writeFileSync(pkgPath, JSON.stringify(pkg, null, 2) + '\n')]; the
    file was read just before, so its directory exists. *)
Definition write_manifest (packagePath : text) (pkg : json) : M unit :=
  fs ← get_store;
  put_store (<[packagePath := Manifest pkg]> fs).

(** [pkg[k]] for a parsed manifest: [null] has no properties to read, and
    the other values that are not objects have none called [k]. *)
Definition property (pkg : json) (k : text) : M jsval :=
  match pkg with
  | JNull => throw TypeError
  | JObj fields => mret (get_field k fields)
  | _ => mret Undefined
  end.

(** [getCurrentVersion] *)
Definition getCurrentVersion (packagePath : text) : M jsval :=
  emit (GetCurrentVersion packagePath);;
  try_catch
    (pkg ← read_manifest packagePath;
     property pkg (txt "version"))
    (fun _ => mret (Val (JStr (txt "unknown")))).

(** [incrementVersion] on whatever [getCurrentVersion] returned: only a
    string has a [split] method. *)
Definition incrementVersionOf (version : jsval) (type : text) : M text :=
  match version with
  | Val (JStr v) => mret (incrementVersion v type)
  | _ => throw TypeError
  end.

Definition maxAttempts : nat := 100.

(** The state of the loop of [getNextAvailableVersion]. *)
Record probing := Probing {
  nextVersion : text;
  versionExists : bool;
  attempts : nat
}.

(** [while (versionExists && attempts < maxAttempts) { .. }], unrolled at
    most [fuel] times. *)
Fixpoint probe_loop (fuel : nat) (packageName versionType : text)
    (st : probing) : M probing :=
  match fuel with
  | O => mret st
  | S fuel' =>
      if versionExists st && (attempts st <? maxAttempts)%nat then
        st' ← try_catch
                (execSync (txt "npm view " ++ packageName ++ txt "@"
                             ++ nextVersion st ++ txt " version") [];;
                 mret (Probing (incrementVersion (nextVersion st) versionType)
                               (versionExists st) (S (attempts st))))
                (fun _ => mret (Probing (nextVersion st) false (attempts st)));
        probe_loop fuel' packageName versionType st'
      else mret st
  end.

(** [getNextAvailableVersion].  Every iteration that does not end the
    loop counts one attempt, so [maxAttempts] rounds exhaust it. *)
Definition getNextAvailableVersion (packageName : text)
    (currentVersion : jsval) (versionType : text) : M text :=
  emit (GetNextAvailableVersion packageName versionType);;
  try_catch
    (next ← incrementVersionOf currentVersion versionType;
     st ← probe_loop maxAttempts packageName versionType (Probing next true 0);
     if (maxAttempts <=? attempts st)%nat
     then throw (Error (txt "Too many attempts to find available version"))
     else mret (nextVersion st))
    (fun _ =>
       emit (Log (txt "Could not check npm registry, using local increment for "
                    ++ packageName));;
       incrementVersionOf currentVersion versionType).

(** [updateVersion].  [pkg.version = newVersion] throws on [null], adds or
    replaces the property of an object, and is ignored by any other
    value. *)
Definition updateVersion (packagePath newVersion : text) : M unit :=
  emit (UpdateVersion packagePath newVersion);;
  pkg ← read_manifest packagePath;
  pkg' ← match pkg with
         | JNull => throw TypeError
         | JObj fields =>
             mret (JObj (set_field (txt "version") (JStr newVersion) fields))
         | _ => mret pkg
         end;
  write_manifest packagePath pkg'.

Definition depTypes : list text :=
  [txt "dependencies"; txt "devDependencies"; txt "peerDependencies"].

(** [packageVersions[depName]] *)
Definition version_of (packageVersions : versions) (depName : text) : jsval :=
  default Undefined (packageVersions !! depName).

(** [range === 'workspace:*' || range.startsWith('workspace:')]: only a
    string has a [startsWith] method. *)
Definition is_workspace_range (range : json) : option bool :=
  match range with
  | JStr r =>
      Some (text_eqb r (txt "workspace:*") || startsWith r (txt "workspace:"))
  | _ => None
  end.

(** One round of the inner loop of [fixWorkspaceDependencies]: the new
    value of the entry [depName], or [None] for a [TypeError]. *)
Definition fix_entry (packageVersions : versions) (depName : text)
    (range : json) : option json :=
  match is_workspace_range range with
  | None => None
  | Some false => Some range
  | Some true =>
      match find_package depName, version_of packageVersions depName with
      | Some _, Val v =>
          if truthy (Val v) then Some v else Some range
      | _, _ => Some range
      end
  end.

(** All rounds, in the order of [Object.keys]. *)
Fixpoint fix_entries (packageVersions : versions)
    (entries : list (text * json)) : option (list (text * json)) :=
  match entries with
  | [] => Some []
  | (depName, range) :: rest =>
      match fix_entry packageVersions depName range with
      | None => None
      | Some range' =>
          match fix_entries packageVersions rest with
          | None => None
          | Some rest' => Some ((depName, range') :: rest')
          end
      end
  end.

(** The body of [depTypes.forEach] in [fixWorkspaceDependencies] for one
    value of [pkg[depType]].  The keys of an array are its indices and
    those of a string the positions of its characters, none of them the
    name of a package: such a section is read but never written; a
    number and [true] have no keys; the other values are skipped. *)
Definition fix_section (packageVersions : versions) (section : json)
    : option json :=
  match section with
  | JObj entries =>
      match fix_entries packageVersions entries with
      | Some entries' => Some (JObj entries')
      | None => None
      end
  | JArr items =>
      if forallb (fun x => match is_workspace_range x with
                           | Some _ => true | None => false end) items
      then Some section else None
  | _ => Some section
  end.

(** [depTypes.forEach(depType => { if (pkg[depType]) { .. } })] on the
    properties of the manifest; [f] is the body, [None] when it throws. *)
Fixpoint over_sections (f : json -> option json) (types : list text)
    (fields : list (text * json)) : option (list (text * json)) :=
  match types with
  | [] => Some fields
  | depType :: types' =>
      match get_field depType fields with
      | Undefined => over_sections f types' fields
      | Val section =>
          if truthy (Val section) then
            match f section with
            | None => None
            | Some section' =>
                over_sections f types' (set_field depType section' fields)
            end
          else over_sections f types' fields
      end
  end.

(** The manifest after the loops of [fixWorkspaceDependencies]. *)
Definition fix_manifest (packageVersions : versions) (pkg : json)
    : option json :=
  match pkg with
  | JNull => None
  | JObj fields =>
      match over_sections (fix_section packageVersions) depTypes fields with
      | Some fields' => Some (JObj fields')
      | None => None
      end
  | _ => Some pkg
  end.

(** [fixWorkspaceDependencies] *)
Definition fixWorkspaceDependencies (packagePath : text)
    (packageVersions : versions) : M unit :=
  emit (FixWorkspaceDependencies packagePath);;
  pkg ← read_manifest packagePath;
  match fix_manifest packageVersions pkg with
  | None => throw TypeError
  | Some pkg' => write_manifest packagePath pkg'
  end.

(** One round of the inner loop of [restoreWorkspaceDependencies]. *)
Definition restore_entry (entry : text * json) : text * json :=
  match find_package (fst entry) with
  | Some _ => (fst entry, JStr (txt "workspace:*"))
  | None => entry
  end.

Definition restore_section (section : json) : option json :=
  match section with
  | JObj entries => Some (JObj (map restore_entry entries))
  | _ => Some section
  end.

Definition restore_manifest (pkg : json) : option json :=
  match pkg with
  | JNull => None
  | JObj fields =>
      match over_sections restore_section depTypes fields with
      | Some fields' => Some (JObj fields')
      | None => None
      end
  | _ => Some pkg
  end.

(** What the substitution may do to a dependency entry: nothing, or, when
    the range is a workspace range and the name that of an internal
    package with a known version, put that version in its place. *)
Definition entry_fixed (packageVersions : versions)
    (before after : text * json) : Prop :=
  fst after = fst before
  /\ (snd after = snd before
      \/ (is_workspace_range (snd before) = Some true
          /\ (exists pkg, find_package (fst before) = Some pkg)
          /\ version_of packageVersions (fst before) = Val (snd after)
          /\ truthy (Val (snd after)) = true)).

(** What it may do to a property of the manifest: nothing, or, when the
    property is one of the three dependency sections and an object, the
    above to its entries. *)
Definition field_fixed (packageVersions : versions)
    (before after : text * json) : Prop :=
  fst after = fst before
  /\ (snd after = snd before
      \/ (In (fst before) depTypes
          /\ exists entries entries',
               snd before = JObj entries /\ snd after = JObj entries'
               /\ Forall2 (entry_fixed packageVersions) entries entries')).

(** A dependency section after the restoration. *)
Definition restored (section : jsval) : jsval :=
  match section with
  | Val (JObj entries) => Val (JObj (map restore_entry entries))
  | _ => section
  end.

(** [restoreWorkspaceDependencies] *)
Definition restoreWorkspaceDependencies (packagePath : text) : M unit :=
  emit (RestoreWorkspaceDependencies packagePath);;
  pkg ← read_manifest packagePath;
  match restore_manifest pkg with
  | None => throw TypeError
  | Some pkg' => write_manifest packagePath pkg'
  end.

(** [buildPackage]: the three known paths have a command, any other path
    is reported as built without one. *)
Definition buildPackage (packagePath packageName : text) : M unit :=
  emit (BuildPackage packagePath);;
  try_catch
    (if text_eqb packagePath (txt "config") then
       execSync (txt "pnpm run build") packagePath;; mret tt
     else if text_eqb packagePath (txt "server") then
       execSync (txt "pnpm run prebuild && pnpm run build") packagePath;; mret tt
     else if text_eqb packagePath (txt "client") then
       execSync (txt "pnpm run prebuild && pnpm run build") packagePath;; mret tt
     else mret tt)
    (fun error =>
       emit (Log (txt "Failed to build " ++ packageName));;
       throw error).

(** [publishPackage] *)
Definition publishPackage (packagePath packageName tag : text) : M unit :=
  emit (PublishPackage packagePath tag);;
  try_catch
    (execSync (txt "pnpm publish --access public --tag " ++ tag
                 ++ txt " --registry https://registry.npmjs.org --no-git-checks")
              packagePath;;
     mret tt)
    (fun error =>
       emit (Log (txt "Failed to publish " ++ packageName));;
       throw error).

(** [createGitHubRelease]: a failure is reported and swallowed. *)
Definition createGitHubRelease (tagName releaseNotes : text) : M unit :=
  emit (CreateGitHubRelease tagName);;
  try_catch
    (execSync (txt "gh release create " ++ tagName ++ txt " --title "
                 ++ dquote ++ tagName ++ dquote ++ txt " --notes "
                 ++ dquote ++ releaseNotes ++ dquote)
              [];;
     mret tt)
    (fun _ => emit (Log (txt "Failed to create GitHub release"))).

(** [checkEnvironment] *)
Definition checkEnvironment : M bool :=
  pnpm ← try_catch
           (execSync (txt "pnpm --version") [];; mret true)
           (fun _ => emit (Log (txt "pnpm is not installed"));; mret false);
  if negb pnpm then mret false
  else
    whoami ← try_catch
               (execSync (txt "pnpm whoami --registry https://registry.npmjs.org")
                         [];;
                mret true)
               (fun _ => emit (Log (txt "Not logged in to npm"));; mret false);
    if negb whoami then mret false else mret true.

(** ** [main] *)

(** [packages.forEach(pkg => { packageVersions[pkg.name] =
    getCurrentVersion(pkg.path) })] *)
Fixpoint gather_versions (l : list package) (packageVersions : versions)
  : M versions :=
  match l with
  | [] => mret packageVersions
  | pkg :: l' =>
      v ← getCurrentVersion (path pkg);
      gather_versions l' (<[name pkg := v]> packageVersions)
  end.

(** The statements that each of the three publishing branches spells out
    for a package once its version is chosen (lines 367-385, 449-462 and
    553-569): the substitution, then inside [try] the version update, the
    build unless [--no-build] was given, and the publication, and in
    [finally] the restoration. *)
Definition publish_steps (pkg : package) (newVersion tag : text)
    (packageVersions : versions) : M unit :=
  fixWorkspaceDependencies (path pkg) packageVersions;;
  try_finally
    (updateVersion (path pkg) newVersion;;
     (if noBuild E then mret tt else buildPackage (path pkg) (name pkg));;
     publishPackage (path pkg) (name pkg) tag)
    (restoreWorkspaceDependencies (path pkg)).

Definition skip_missing (pkg : package) : M unit :=
  emit (Log (txt "Package " ++ name pkg ++ txt " directory not found, skipping...")).

(** [action === 'build-all'] *)
Definition build_all : M unit :=
  for_each packages (fun pkg =>
    if dir_exists E (path pkg) then buildPackage (path pkg) (name pkg)
    else skip_missing pkg).

(** [action === 'publish-one'] *)
Definition publish_one : M unit :=
  let selectedPackage := ask_selectedPackage E in
  let versionType := ask_versionType E in
  currentVersion ← getCurrentVersion (path selectedPackage);
  newVersion ←
    (if text_eqb versionType (txt "custom")
     then mret (ask_customVersion E (name selectedPackage))
     else getNextAvailableVersion (name selectedPackage) currentVersion
            versionType);
  packageVersions ← gather_versions packages ∅;
  let packageVersions :=
    <[name selectedPackage := Val (JStr newVersion)]> packageVersions in
  let tag := if text_eqb versionType (txt "beta")
             then txt "beta" else txt "latest" in
  publish_steps selectedPackage newVersion tag packageVersions.

(** The loop of [action === 'publish-prerelease']. *)
Fixpoint prerelease_loop (l : list package) (tag versionType : text)
    (packageVersions : versions) : M unit :=
  match l with
  | [] => mret tt
  | pkg :: l' =>
      if negb (dir_exists E (path pkg)) then
        skip_missing pkg;;
        prerelease_loop l' tag versionType packageVersions
      else
        currentVersion ← getCurrentVersion (path pkg);
        newVersion ←
          (if text_eqb versionType (txt "custom")
           then mret (ask_customVersion E (name pkg))
           else getNextAvailableVersion (name pkg) currentVersion versionType);
        let packageVersions :=
          <[name pkg := Val (JStr newVersion)]> packageVersions in
        publish_steps pkg newVersion tag packageVersions;;
        prerelease_loop l' tag versionType packageVersions
  end.

(** [action === 'publish-prerelease'] *)
Definition publish_prerelease : M unit :=
  let tag := ask_tag E in
  let versionType := ask_versionType E in
  packageVersions ← gather_versions packages ∅;
  prerelease_loop packages tag versionType packageVersions.

(** The loop of [action === 'publish-all']; it returns the versions it
    recorded, for the release notes. *)
Fixpoint publish_all_loop (l : list package) (baseVersion tag : text)
    (packageVersions : versions) : M versions :=
  match l with
  | [] => mret packageVersions
  | pkg :: l' =>
      if negb (dir_exists E (path pkg)) then
        skip_missing pkg;;
        publish_all_loop l' baseVersion tag packageVersions
      else
        let packageVersions :=
          <[name pkg := Val (JStr baseVersion)]> packageVersions in
        publish_steps pkg baseVersion tag packageVersions;;
        publish_all_loop l' baseVersion tag packageVersions
  end.

(** [s.trim()] *)
Fixpoint trim_end (s : text) : text :=
  match s with
  | [] => []
  | c :: s' => match skip_space s with [] => [] | _ :: _ => c :: trim_end s' end
  end.

Definition trim (s : text) : text := trim_end (skip_space s).

(** The lines of the release notes, one per recorded version; how a
    version that is not a string prints is left to [print]. *)
Definition release_notes (print : jsval -> text) (baseVersion : text)
    (packageVersions : versions) : text :=
  txt "Release " ++ baseVersion ++ [ascii_of_N 10; ascii_of_N 10]
    ++ txt "Packages released:"
    ++ concat (map (fun pkg => ascii_of_N 10 :: txt "- " ++ name pkg ++ txt "@"
                                 ++ print (version_of packageVersions (name pkg)))
                   packages).

Definition print_version (v : jsval) : text :=
  match v with
  | Val (JStr s) => s
  | Undefined => txt "undefined"
  | Val _ => txt "[object]"
  end.

(** [action === 'publish-all'] *)
Definition publish_all : M unit :=
  isMasterBranch ←
    try_catch
      (branch ← execSync (txt "git branch --show-current") [];
       mret (text_eqb (trim branch) (txt "master")
             || text_eqb (trim branch) (txt "main")))
      (fun _ => emit (Log (txt "Unable to determine current branch"));;
                mret false);
  let versionType := ask_versionType E in
  packageVersions ← gather_versions packages ∅;
  let originalVersions := packageVersions in
  baseVersion ←
    (if text_eqb versionType (txt "custom")
     then mret (ask_customVersion_all E)
     else
       match packages with
       | first :: _ =>
           getNextAvailableVersion (name first)
             (version_of originalVersions (name first)) versionType
       | [] => throw TypeError
       end);
  if negb (ask_confirm E) then emit (Log (txt "Operation cancelled."))
  else
    let tag := if text_eqb versionType (txt "beta") && negb isMasterBranch
               then txt "beta" else txt "latest" in
    packageVersions ← publish_all_loop packages baseVersion tag packageVersions;
    if isMasterBranch
    then createGitHubRelease (txt "v" ++ baseVersion)
           (release_notes print_version baseVersion packageVersions)
    else mret tt.

(** [main] *)
Definition main : M unit :=
  ok ← checkEnvironment;
  if negb ok then exit 1
  else
    for_each packages (fun pkg => getCurrentVersion (path pkg);; mret tt);;
    let action := ask_action E in
    if text_eqb action (txt "cancel") then
      emit (Log (txt "Operation cancelled."))
    else if text_eqb action (txt "build-all") then build_all
    else if text_eqb action (txt "publish-one") then publish_one
    else if text_eqb action (txt "publish-prerelease") then publish_prerelease
    else if text_eqb action (txt "publish-all") then publish_all
    else mret tt.

(** The last statement of the script:
    [main().catch(error => { console.error(..); process.exit(1) })]. *)
Definition script : M unit :=
  try_catch main
    (fun error => emit (LogError (txt "Publishing failed:") error);; exit 1).

End Script.

(** ** Speaking of the steps *)


(** The world [w] after the events [evs]. *)
Definition after (w : world) (evs : list event) : world :=
  World (store w) (trace w ++ evs).
Infix "⊕" := after (at level 50, left associativity).

(** What [getCurrentVersion] answers for a store. *)
Definition current_version (fs : files) (packagePath : text) : jsval :=
  match fs !! packagePath with
  | Some (Manifest (JObj fields)) => get_field (txt "version") fields
  | Some (Manifest JNull) => Val (JStr (txt "unknown"))
  | Some (Manifest _) => Undefined
  | Some NotJson | None => Val (JStr (txt "unknown"))
  end.

(** The probe for one candidate version. *)
Definition npm_view (packageName version : text) : text :=
  txt "npm view " ++ packageName ++ txt "@" ++ version ++ txt " version".

Definition is_probe (packageName : text) (e : event) : Prop :=
  exists version found, e = ExecSync (npm_view packageName version) [] found.

Definition could_not_check (packageName : text) : event :=
  Log (txt "Could not check npm registry, using local increment for "
         ++ packageName).

(** The world after the events [evs] and the writing of [pkg] at [p]. *)
Definition written (w : world) (p : text) (pkg : json) (evs : list event)
  : world :=
  World (<[p := Manifest pkg]> (store w)) (trace w ++ evs).

Definition set_version (newVersion : text) (pkg : json) : json :=
  match pkg with
  | JObj fields => JObj (set_field (txt "version") (JStr newVersion) fields)
  | _ => pkg
  end.

(** Reading the manifest fails on a missing file and on text that is not
    JSON. *)
Definition read_failure (fs : files) (p : text) : option exn :=
  match fs !! p with
  | None => Some ReadError
  | Some NotJson => Some SyntaxError
  | Some (Manifest _) => None
  end.

Definition build_command (packagePath : text) : option text :=
  if text_eqb packagePath (txt "config") then Some (txt "pnpm run build")
  else if text_eqb packagePath (txt "server")
  then Some (txt "pnpm run prebuild && pnpm run build")
  else if text_eqb packagePath (txt "client")
  then Some (txt "pnpm run prebuild && pnpm run build")
  else None.

Definition publish_command (tag : text) : text :=
  txt "pnpm publish --access public --tag " ++ tag
    ++ txt " --registry https://registry.npmjs.org --no-git-checks".

(** How [over_sections] relates a property before and after: the key
    stays, and the value stays unless the key is one of the sections, the
    value is truthy, and [f] maps it to the new value. *)
Definition section_step (f : json -> option json) (types : list text)
    (before after : text * json) : Prop :=
  fst after = fst before
  /\ (snd after = snd before
      \/ (In (fst before) types /\ truthy (Val (snd before)) = true
          /\ f (snd before) = Some (snd after))).

(** The value [over_sections] leaves under a key. *)
Definition apply_section (f : json -> option json) (v : json) : option json :=
  if truthy (Val v) then f v else Some v.

Section Attempt.
Variable E : env.

(** The events of a build that went well, or was not asked for. *)
Definition built (p : text) (bev : list event) : Prop :=
  (noBuild E = true /\ bev = [])
  \/ (noBuild E = false
      /\ ((build_command p = None /\ bev = [BuildPackage p])
          \/ exists command,
               build_command p = Some command
               /\ bev = [BuildPackage p; ExecSync command p true])).

(** What happens between the version update and the restoration. *)
Inductive middle (p n tag : text) : outcome unit -> list event -> Prop :=
  | middle_published bev :
      built p bev ->
      middle p n tag (Ret tt)
        (bev ++ [PublishPackage p tag; ExecSync (publish_command tag) p true])
  | middle_build_failed command :
      noBuild E = false -> build_command p = Some command ->
      middle p n tag (Throw (CommandFailed command))
        [BuildPackage p; ExecSync command p false;
         Log (txt "Failed to build " ++ n)]
  | middle_publish_failed bev :
      built p bev ->
      middle p n tag (Throw (CommandFailed (publish_command tag)))
        (bev ++ [PublishPackage p tag; ExecSync (publish_command tag) p false;
                 Log (txt "Failed to publish " ++ n)]).

End Attempt.

(** ** Reading a trace *)





(** The commands of [buildPackage] and [publishPackage]. *)
Definition builds_or_publishes (command : text) : bool :=
  text_eqb command (txt "pnpm run build")
  || text_eqb command (txt "pnpm run prebuild && pnpm run build")
  || startsWith command (txt "pnpm publish ").

(** Did a build or a publication fail? *)
Definition release_failed (evs : list event) : Prop :=
  exists command cwd,
    builds_or_publishes command = true /\ In (ExecSync command cwd false) evs.

(** When the publish command of a package was invoked, so were the
    substitution, the version update, the build (unless [--no-build]
    was given) and the restoration for that package. *)
Definition steps_present (E : env) (evs : list event) : Prop :=
  forall p tag, In (PublishPackage p tag) evs ->
    In (FixWorkspaceDependencies p) evs
    /\ (exists v, In (UpdateVersion p v) evs)
    /\ (noBuild E = false -> In (BuildPackage p) evs)
    /\ In (RestoreWorkspaceDependencies p) evs.

(** ** Invariants of the traces *)

(** A failed build or publication ends in an exception. *)
Definition fails_throw (k : ending) (evs : list event) : Prop :=
  release_failed evs -> k = Thrown.

(** Both properties that the whole script keeps. *)
Definition sound (E : env) (k : ending) (evs : list event) : Prop :=
  fails_throw k evs /\ steps_present E evs.

(** An event that is neither a failed build or publication nor the
    invocation of the publish command. *)
Definition plain (e : event) : Prop :=
  match e with
  | ExecSync command _ false => builds_or_publishes command = false
  | PublishPackage _ _ => False
  | _ => True
  end.

(** An event that says nothing of the steps of any package: a subprocess
    that is not a failed build or publication, a message, the creation of
    the release. *)
Definition neutral (e : event) : Prop :=
  match e with
  | ExecSync command _ ok => ok = true \/ builds_or_publishes command = false
  | Log _ | LogError _ _ | CreateGitHubRelease _ => True
  | _ => False
  end.

(** [silent m]: [m] records neutral events only and does not exit. *)
Definition silent {A} (m : M A) : Prop :=
  emits m (fun o evs => Forall neutral evs /\ forall c, o <> Exit c).




(** ** A sample run

    The server package depends on the config package through the
    workspace range [workspace:^1.0.0] and on a package from the registry;
    the user publishes it alone with a patch bump; no candidate version is
    on the registry yet and every other subprocess succeeds. *)

Definition sample_manifest : json :=
  JObj [ (txt "name", JStr (txt "@fecommunity/reactpress-server"));
         (txt "version", JStr (txt "1.0.0"));
         (txt "dependencies",
          JObj [ (txt "@fecommunity/reactpress-config",
                  JStr (txt "workspace:^1.0.0"));
                 (txt "lodash", JStr (txt "^4.17.21")) ]) ].

Definition sample_files : files := {[ txt "server" := Manifest sample_manifest ]}.

Definition sample_env (no_build : bool) : env := {|
  noBuild := no_build;
  sh := fun _ command _ =>
          if startsWith command (txt "npm view ") then None else Some [];
  dir_exists := fun _ => true;
  ask_action := txt "publish-one";
  ask_selectedPackage :=
    {| name := txt "@fecommunity/reactpress-server";
       path := txt "server";
       description := txt "Backend API server package" |};
  ask_versionType := txt "patch";
  ask_customVersion := fun _ => [];
  ask_customVersion_all := [];
  ask_tag := txt "beta";
  ask_confirm := true
|}.

(** The same user with other subprocesses. *)
Definition with_sh (E : env) (run : world -> text -> text -> option text)
  : env := {|
  noBuild := noBuild E;
  sh := run;
  dir_exists := dir_exists E;
  ask_action := ask_action E;
  ask_selectedPackage := ask_selectedPackage E;
  ask_versionType := ask_versionType E;
  ask_customVersion := ask_customVersion E;
  ask_customVersion_all := ask_customVersion_all E;
  ask_tag := ask_tag E;
  ask_confirm := ask_confirm E
|}.

(** The publish command fails. *)
Definition failing_env : env :=
  with_sh (sample_env false)
    (fun _ command _ =>
       if startsWith command (txt "npm view ")
          || startsWith command (txt "pnpm publish ")
       then None else Some []).

(** Every version asked for is on the registry already. *)
Definition crowded_env : env :=
  with_sh (sample_env false) (fun _ _ _ => Some []).

(** The range a manifest of the store gives to a dependency. *)
Definition dependency_range (fs : files) (packagePath depType depName : text)
  : option json :=
  match fs !! packagePath with
  | Some (Manifest (JObj fields)) =>
      match get_field depType fields with
      | Val (JObj entries) =>
          match get_field depName entries with
          | Val range => Some range
          | Undefined => None
          end
      | _ => None
      end
  | _ => None
  end.

End Publish.

(* ===================================================================== *)
(** * toolkit/scripts/generate-api-types.js *)
(* ===================================================================== *)

Module GenTypes.
Import JS Eff.

(** ** The regular expressions *)

Definition not_quote (c : ascii) : bool := negb (Ascii.eqb c "'").

(** The third pattern of [fixApiImports]: from, a blank, a quote, dot,
    slash, then a group of one or more characters other than a quote,
    then a quote.  The group is greedy and made of non-quotes only, so it
    is the whole run up to the next quote: a shorter group would be
    followed by a non-quote.  The replacement is computed by the
    callback, which gives the match back unless the path is a type
    file. *)
Definition import_matcher : matcher :=
  fun s =>
    match strip_prefix (txt "from './") s with
    | Some t =>
        let '(importPath, rest) := span not_quote t in
        match importPath, rest with
        | _ :: _, _ :: _ =>
            Some (if includes importPath (txt "contract")
                     || text_eqb importPath (txt "types")
                  then txt "from '../types/" ++ importPath ++ txt "'"
                  else txt "from './" ++ importPath ++ txt "'",
                  length (txt "from './") + length importPath + 1)
        | _, _ => None
        end
    | None => None
    end.

(** One or more word characters followed by the pattern [p].  The run is
    greedy: the longest one is tried first and shortened one character
    at a time until [p] accepts what follows. *)
Fixpoint word_star_then {B} (p : text -> option B) (s : text)
  : option (text * B) :=
  match s with
  | c :: s' =>
      if is_word c then
        match word_star_then p s' with
        | Some (g, b) => Some (c :: g, b)
        | None => option_map (pair []) (p s)
        end
      else option_map (pair []) (p s)
  | [] => option_map (pair []) (p [])
  end.

Definition word_plus_then {B} (p : text -> option B) (s : text)
  : option (text * B) :=
  match s with
  | c :: s' =>
      if is_word c then
        match word_star_then p s' with
        | Some (g, b) => Some (c :: g, b)
        | None => None
        end
      else None
  | [] => None
  end.

(** [Controller], an upper-case letter and one or more word characters,
    as many as there are: the method name and what is left. *)
Definition controller_method (s : text) : option (text * text) :=
  match strip_prefix (txt "Controller") s with
  | Some (u :: t) =>
      if is_upper u then
        let '(w, rest) := span is_word t in
        match w with
        | [] => None
        | _ :: _ => Some (u :: w, rest)
        end
      else None
  | _ => None
  end.

(** [methodName.charAt(0).toLowerCase() + methodName.slice(1)] *)
Definition lower_first (methodName : text) : text :=
  match methodName with
  | [] => []
  | c :: rest => to_lower c :: rest
  end.

(** The pattern of [renameApiMethods] with its callback. *)
Definition controller_matcher : matcher :=
  fun s =>
    match word_plus_then controller_method s with
    | Some (className, (methodName, rest)) =>
        Some (lower_first methodName, length s - length rest)
    | None => None
    end.

(** ** The rewriting of one file *)

(** The three replacements of [fixApiImports] on the content of a file. *)
Definition fix_imports (content : text) : text :=
  let content :=
    gsub (literally (txt "from './data-contracts'")
                    (txt "from '../types/data-contracts'")) content in
  let content :=
    gsub (literally (txt "from './httpClient'") (txt "from './HttpClient'"))
         content in
  gsub import_matcher content.

(** The replacement of [renameApiMethods] on the content of a file. *)
Definition rename_methods (content : text) : text :=
  gsub controller_matcher content.

(** ** The rewriting of the [api] directory

    The directory is the map from the names of its files to their
    contents. *)

(** [/[A-Z]/.test(file[0])] *)
Definition upper_initial (file : text) : bool :=
  match file with
  | c :: _ => is_upper c
  | [] => false
  end.

(** [fixApiImports] *)
Definition fixApiImports (api : gmap text text) : gmap text text :=
  map_imap (fun file content =>
    Some (if endsWith file (txt ".ts") && negb (text_eqb file (txt "index.ts"))
          then fix_imports content else content)) api.

(** [renameApiMethods] *)
Definition renameApiMethods (api : gmap text text) : gmap text text :=
  map_imap (fun file content =>
    Some (if endsWith file (txt ".ts")
             && negb (text_eqb file (txt "index.ts"))
             && negb (text_eqb file (txt "HttpClient.ts"))
             && upper_initial file
          then rename_methods content else content)) api.

(** ** [generateApiTypes] and the last statement of the script *)

Inductive report :=
  | SwaggerFileMissing (input : text)
  | GenerationFailed (e : exn)
  | ProcessFailed (e : exn).

Inductive event :=
  | ConsoleLog (message : text)
  | ConsoleError (r : report).

Section Script.
Context {St : Type}.
(** [CONFIG.input] and [CONFIG.output], whether the input file exists,
    and what the script does once it has found it: the generator and the
    post-processing. *)
Variable input output : text.
Variable input_exists : bool.
Variable generate_and_organize : M St event unit.

(** The three opening messages are recorded without their decoration. *)
Definition generateApiTypes : M St event unit :=
  emit (ConsoleLog (txt "start"));;
  emit (ConsoleLog (txt "input: " ++ input));;
  emit (ConsoleLog (txt "output: " ++ output));;
  if negb input_exists then
    emit (ConsoleError (SwaggerFileMissing input));;
    exit 1
  else
    try_catch generate_and_organize
      (fun error => emit (ConsoleError (GenerationFailed error));; exit 1).

(** [generateApiTypes().then(..).catch(..)] *)
Definition script : M St event unit :=
  try_catch
    (generateApiTypes;; emit (ConsoleLog (txt "done")))
    (fun error => emit (ConsoleError (ProcessFailed error));; exit 1).

End Script.

End GenTypes.

(* ===================================================================== *)
(** * toolkit/scripts/generate-api.js *)
(* ===================================================================== *)

Module GenApi.
Import JS Eff.

(** [[a-zA-Z0-9]] *)
Definition is_alnum (c : ascii) : bool :=
  is_lower c || is_upper c || is_digit c.

Section Module_file.
(** The names computed from the file name of the module.  They are
    spliced into regular expressions and are read here as plain text,
    which they are as long as they hold no character special to regular
    expressions. *)
Variable camelCaseName pascalCaseName : text.

(** [methodRegex] and its replacement, the first group. *)
Definition method_prefix_matcher : matcher :=
  literally (pascalCaseName ++ txt ".prototype." ++ camelCaseName
               ++ txt "Controller")
            (pascalCaseName ++ txt ".prototype.").

(** [methodNameRegex] with its callback: the controller prefix, then an
    upper-case letter and as many letters and digits as follow. *)
Definition method_name_matcher : matcher :=
  fun s =>
    match strip_prefix (camelCaseName ++ txt "Controller") s with
    | Some (u :: t) =>
        if is_upper u then
          let method := u :: fst (span is_alnum t) in
          Some (to_lower u :: fst (span is_alnum t),
                length (camelCaseName ++ txt "Controller") + length method)
        else None
    | _ => None
    end.

(** The two replacements that update the import paths. *)
Definition update_imports (fileContent : text) : text :=
  gsub (literally (txt "from './HttpClient';") (txt "from './HttpClient';"))
    (gsub (literally (txt "from './data-contracts';") (txt "from '../types';"))
       fileContent).

(** What [organizeGeneratedFiles] writes back for a file of the module. *)
Definition rewrite_module (fileContent : text) : text :=
  gsub method_name_matcher
    (update_imports (gsub method_prefix_matcher fileContent)).

End Module_file.

(** [generateApiTypes] and [main] *)
Section Script.
Context {St : Type}.
Variable input output : text.
Variable input_exists : bool.
Variable generate_and_organize : M St GenTypes.event unit.
Variable cleanupTempFiles : M St GenTypes.event unit.

Definition generateApiTypes : M St GenTypes.event unit :=
  emit (GenTypes.ConsoleLog (txt "start"));;
  emit (GenTypes.ConsoleLog (txt "input: " ++ input));;
  emit (GenTypes.ConsoleLog (txt "output: " ++ output));;
  if negb input_exists then
    emit (GenTypes.ConsoleError (GenTypes.SwaggerFileMissing input));;
    exit 1
  else
    try_catch generate_and_organize
      (fun error =>
         emit (GenTypes.ConsoleError (GenTypes.GenerationFailed error));;
         exit 1).

Definition main : M St GenTypes.event unit :=
  try_catch
    (generateApiTypes;; cleanupTempFiles;;
     emit (GenTypes.ConsoleLog (txt "done")))
    (fun error =>
       emit (GenTypes.ConsoleError (GenTypes.ProcessFailed error));; exit 1).

End Script.

End GenApi.

(* ===================================================================== *)
(** * Reading a content by its quotes

    Every pattern of the import fixes starts with [from], a blank and a
    quote, goes on with characters other than a quote and ends at the
    next quote.  Cut at its quotes, a content is a list of pieces, and a
    global replacement with such a pattern rewrites pieces: the piece
    after one that ends with [from] and a blank. *)
(* ===================================================================== *)

Module Quotes.
Import JS.

Definition quote : ascii := "'"%char.

Definition quote_free (piece : text) : Prop := Forall (fun x => x <> quote) piece.

(** The pieces put together again. *)
Fixpoint join (pieces : list text) : text :=
  match pieces with
  | [] => []
  | c :: rest =>
      match rest with
      | [] => c
      | _ :: _ => c ++ quote :: join rest
      end
  end.

(** The pattern that rewrites the piece [c] between the quote after
    [from] and the next quote to [c'] when [g c tail = Some c'], where
    [tail] is the text after the closing quote. *)
Definition quoted (g : text -> text -> option text) : matcher :=
  fun s =>
    match strip_prefix (txt "from '") s with
    | Some t =>
        let '(c, rest) := span GenTypes.not_quote t in
        match rest with
        | _ :: tail =>
            match g c tail with
            | Some c' =>
                Some (txt "from '" ++ c' ++ [quote], 6 + length c + 1)%nat
            | None => None
            end
        | [] => None
        end
    | None => None
    end.

Definition rewritten (g : text -> text -> option text) (c tail : text) : text :=
  match g c tail with Some c' => c' | None => c end.

(** A piece [c] that follows the piece [prev] and is followed by the
    pieces [rest]: it is rewritten when [prev] ends with [from] and a
    blank and a quote closes it. *)
Definition piece_step (f : text -> text -> text) (prev c : text)
    (rest : list text) : text :=
  match rest with
  | [] => c
  | _ :: _ => if endsWith prev (txt "from ") then f c (join rest) else c
  end.

Fixpoint pieces_map (f : text -> text -> text) (prev : text)
    (pieces : list text) : list text :=
  match pieces with
  | [] => []
  | c :: rest => piece_step f prev c rest :: pieces_map f c rest
  end.

(** The pieces that the patterns of [fixApiImports] rewrite. *)
Definition data_contracts : text -> text -> option text :=
  fun c _ =>
    if text_eqb c (txt "./data-contracts")
    then Some (txt "../types/data-contracts") else None.

Definition http_client : text -> text -> option text :=
  fun c _ =>
    if text_eqb c (txt "./httpClient") then Some (txt "./HttpClient") else None.

Definition relative_import : text -> text -> option text :=
  fun c _ =>
    match strip_prefix (txt "./") c with
    | Some (x :: p) =>
        Some (if includes (x :: p) (txt "contract")
                 || text_eqb (x :: p) (txt "types")
              then txt "../types/" ++ x :: p
              else txt "./" ++ x :: p)
    | _ => None
    end.

(** The piece that the first pattern of [organizeGeneratedFiles]
    rewrites, when a semicolon follows the closing quote. *)
Definition data_contracts_statement : text -> text -> option text :=
  fun c tail =>
    if text_eqb c (txt "./data-contracts") && startsWith tail (txt ";")
    then Some (txt "../types") else None.

(** What the three replacements of [fixApiImports] make of a piece. *)
Definition fixed_piece (c tail : text) : text :=
  rewritten relative_import
    (rewritten http_client (rewritten data_contracts c tail) tail) tail.

(** The four ways the replacements leave a piece: the two literal paths,
    a relative path of a type file, and any other piece, which stays. *)
Inductive fixed_case (c tail : text) : Prop :=
  | fixed_data_contracts :
      c = txt "./data-contracts" ->
      fixed_piece c tail = txt "../types/data-contracts" -> fixed_case c tail
  | fixed_http_client :
      c = txt "./httpClient" ->
      fixed_piece c tail = txt "./HttpClient" -> fixed_case c tail
  | fixed_types p :
      c = txt "./" ++ p ->
      fixed_piece c tail = txt "../types/" ++ p -> fixed_case c tail
  | fixed_same :
      fixed_piece c tail = c ->
      (forall tail', fixed_piece c tail' = c) -> fixed_case c tail.

(** A piece is tidy unless it starts like a relative path and ends like
    the start of an import; a content is tidy when its pieces are. *)
Definition tidy_piece (c : text) : bool :=
  negb (startsWith c (txt "./") && endsWith c (txt "from ")).

Definition tidy (content : text) : bool :=
  forallb tidy_piece (split_on quote content).

End Quotes.

(* ===================================================================== *)
(** * publish-packages.js: candidates and frames *)
(* ===================================================================== *)

Module Release.
Import JS Eff Publish.

(** The candidates that [getNextAvailableVersion] probes, in order: the
    version after [currentVersion], the one after that, and so on. *)
Definition candidate (currentVersion versionType : text) (i : nat) : text :=
  Nat.iter i (fun v => incrementVersion v versionType)
    (incrementVersion currentVersion versionType).

(** [changes_only P fs fs']: from [fs] to [fs'] no file appeared or
    disappeared, and the only files that changed are manifests that
    parsed, at paths that satisfy [P]. *)
Definition changes_only (P : text -> Prop) (fs fs' : files) : Prop :=
  forall q,
    fs' !! q = fs !! q
    \/ (P q /\ exists j j', fs !! q = Some (Manifest j)
                            /\ fs' !! q = Some (Manifest j')).

(** [touches m P]: every run of [m] changes the store in that way. *)
Definition touches {A} (m : M A) (P : text -> Prop) : Prop :=
  forall w, changes_only P (store w) (store (snd (m w))).

(** No path at all: what a computation touches when it writes nothing. *)
Definition nowhere (q : text) : Prop := False.

(** The paths of the packages the script may release. *)
Definition released (E : env) (q : text) : Prop :=
  exists pkg, (In pkg packages \/ pkg = ask_selectedPackage E) /\ q = path pkg.

(** [every Q]: all the events of a run satisfy [Q], however it ends. *)
Definition every (Q : event -> Prop) (k : ending) (evs : list event) : Prop :=
  Forall Q evs.

(** An event is allowed when it is not a publication under a tag outside
    [T] and, unless [probes] is set, has nothing to do with choosing a
    version from the registry. *)
Definition allowed (T : text -> Prop) (probes : bool) (e : event) : Prop :=
  match e with
  | PublishPackage _ tag => T tag
  | GetNextAvailableVersion _ _ => probes = true
  | ExecSync command _ _ =>
      startsWith command (txt "npm view ") = true -> probes = true
  | _ => True
  end.

(** The tag under which each publishing action publishes. *)
Definition tag_of_run (E : env) (tag : text) : Prop :=
  (ask_action E = txt "publish-one"
   /\ tag = if text_eqb (ask_versionType E) (txt "beta")
            then txt "beta" else txt "latest")
  \/ (ask_action E = txt "publish-prerelease" /\ tag = ask_tag E)
  \/ (ask_action E = txt "publish-all" /\ ask_confirm E = true
      /\ (tag = txt "latest"
          \/ (tag = txt "beta" /\ ask_versionType E = txt "beta"))).

(** The sample user when the registry already holds version [1.0.1] of
    the server package and no later one. *)
Definition taken_env : env :=
  with_sh (sample_env false)
    (fun _ command _ =>
       if text_eqb command
            (npm_view (txt "@fecommunity/reactpress-server") (txt "1.0.1"))
       then Some []
       else if startsWith command (txt "npm view ") then None else Some []).

End Release.

(* ===================================================================== *)
(** * toolkit/scripts/generate-api.js: the names of a module *)
(* ===================================================================== *)

Module Names.
Import JS.

(** [String.prototype.toUpperCase] on one character of a match: the
    patterns below only match characters of the ASCII range, where only
    [a-z] move. *)
Definition to_upper (c : ascii) : ascii :=
  if is_lower c then ascii_of_N (code c - 32) else c.

(** [[a-z]] under the [i] flag *)
Definition is_letter (c : ascii) : bool := is_lower c || is_upper c.

(** [[-_]] *)
Definition is_separator (c : ascii) : bool :=
  Ascii.eqb c "-" || Ascii.eqb c "_".

(** The callback of both functions:
    [$1.toUpperCase().replace('-', '').replace('_', '')]; a string
    pattern replaces its first occurrence only. *)
Definition upper_without_separator (match_ : text) : text :=
  sub_first (literally (txt "_") [])
    (sub_first (literally (txt "-") []) (map to_upper match_)).

(** [/([-_][a-z])/gi] with the callback *)
Definition separator_letter : matcher :=
  fun s =>
    match s with
    | c :: d :: _ =>
        if is_separator c && is_letter d
        then Some (upper_without_separator [c; d], 2%nat)
        else None
    | _ => None
    end.

(** [/(^\w|[-_][a-z])/gi] with the callback.  The first alternative
    looks at where the position is: [at_start] says whether it is the
    start of the string. *)
Definition initial_or_separator_letter (at_start : bool) : matcher :=
  fun s =>
    match s with
    | c :: _ =>
        if at_start && is_word c
        then Some (upper_without_separator [c], 1%nat)
        else separator_letter s
    | [] => None
    end.

(** [s.replace(re, by)] with the [g] flag for a pattern that tells the
    start of the string from the other positions: the scan of [gsub],
    with the first position tried as the start. *)
Definition gsub_anchored (m : bool -> matcher) (s : text) : text :=
  match s with
  | [] => gsub (m true) []
  | c :: s' =>
      match m true s with
      | Some (r, O) => r ++ c :: gsub (m false) s'
      | Some (r, S k) => r ++ gsub_from (m false) k s'
      | None => c :: gsub (m false) s'
      end
  end.

(** [s.replace(/^[A-Z]/, (match) => match.toLowerCase())] *)
Definition lower_initial (s : text) : text :=
  match s with
  | c :: rest => if is_upper c then to_lower c :: rest else s
  | [] => []
  end.

(** [toCamelCase] *)
Definition toCamelCase (str : text) : text :=
  lower_initial (gsub separator_letter str).

(** [toPascalCase] *)
Definition toPascalCase (str : text) : text :=
  gsub_anchored initial_or_separator_letter str.

(** A name written as words joined by separators: the first word, then
    each further word after its separator. *)
Definition joined (first : text) (more : list (ascii * text)) : text :=
  first ++ concat (map (fun sw => fst sw :: snd sw) more).

(** A word with its first letter in upper case. *)
Definition capitalized (word : text) : text :=
  match word with
  | c :: rest => to_upper c :: rest
  | [] => []
  end.

(** A word of a name: a letter, then characters that are no separators. *)
Definition is_name_word (word : text) : Prop :=
  match word with
  | c :: rest =>
      is_letter c = true /\ Forall (fun x => is_separator x = false) rest
  | [] => False
  end.

End Names.

(* ===================================================================== *)
(** * toolkit/scripts/generate-api-types.js: the HTTP client *)
(* ===================================================================== *)

Module HttpClient.
Import JS.

Definition default_export : text :=
  [ascii_of_N 10; ascii_of_N 10] ++ txt "export default HttpClient;"
    ++ [ascii_of_N 10].

(** What [fixHttpClient] writes back for the content it read: two
    replacements of a first occurrence, a global one, and the default
    export unless the content has one. *)
Definition fix_content (content : text) : text :=
  let content :=
    sub_first (literally (txt "private securityWorker")
                         (txt "public securityWorker")) content in
  let content :=
    sub_first (literally (txt "interface ApiConfig")
                         (txt "interface HttpClientConfig")) content in
  let content :=
    gsub (literally (txt "ApiConfig<SecurityDataType>")
                    (txt "HttpClientConfig<SecurityDataType>")) content in
  if negb (includes content (txt "export default HttpClient"))
  then content ++ default_export
  else content.

(** [fixHttpClient] on the [api] directory, the map from the names of its
    files to their contents: nothing is written when the file is not
    there. *)
Definition fixHttpClient (api : gmap text text) : gmap text text :=
  match api !! txt "HttpClient.ts" with
  | Some content => <[txt "HttpClient.ts" := fix_content content]> api
  | None => api
  end.

End HttpClient.

(* ===================================================================== *)
(** * toolkit/scripts/generate-api-types.js: organizing the files

    The output directory and its two subdirectories are maps from file
    names to contents.  The entries of the output directory whose names
    end in [.ts] are taken to be files; the subdirectories themselves,
    which [readdirSync] lists too, have other names and are passed over
    by the loop. *)
(* ===================================================================== *)

Module Organize.
Import JS GenTypes.

Record dirs := Dirs {
  root : gmap text text;    (* [CONFIG.output] *)
  api : gmap text text;     (* [CONFIG.output/api] *)
  types : gmap text text    (* [CONFIG.output/types] *)
}.

(** Where the loop of [organizeGeneratedFiles] puts a file. *)
Inductive place :=
  | InApi
  | InTypes (name : text)
  | InRoot.

Definition place_of (file : text) : place :=
  if endsWith file (txt ".ts") then
    if text_eqb file (txt "HttpClient.ts") || text_eqb file (txt "ApiClient.ts")
       || upper_initial file
    then InApi
    else if includes file (txt "contract") || text_eqb file (txt "types.ts")
    then InTypes (if text_eqb file (txt "types.ts") then txt "index.ts" else file)
    else InRoot
  else InRoot.

(** One round of the loop.  [fs.moveSync(src, dest, { overwrite: true })]
    throws when the source is missing: [None]. *)
Definition move_one (d : dirs) (file : text) : option dirs :=
  match place_of file with
  | InApi =>
      content ← root d !! file;
      Some (Dirs (delete file (root d)) (<[file := content]> (api d)) (types d))
  | InTypes name =>
      content ← root d !! file;
      Some (Dirs (delete file (root d)) (api d) (<[name := content]> (types d)))
  | InRoot => Some d
  end.

(** [files.forEach(..)] *)
Fixpoint move_files (files : list text) (d : dirs) : option dirs :=
  match files with
  | [] => Some d
  | file :: files' => d' ← move_one d file; move_files files' d'
  end.

(** [file.replace('.ts', '')]: the first occurrence goes. *)
Definition module_name (file : text) : text :=
  sub_first (literally (txt ".ts") []) file.

Definition newline : ascii := ascii_of_N 10.

(** The content [createTypeIndex] writes for the type files it found. *)
Definition type_index (typeFiles : list text) : text :=
  txt "// 类型定义索引" ++ [newline] ++ txt "// 自动生成，请勿手动修改"
    ++ [newline; newline]
    ++ concat (map (fun file => txt "export * from './" ++ module_name file
                                  ++ txt "';" ++ [newline])
                   typeFiles).

Section Listing.
(** [fs.readdirSync]: the names of a directory, in the order the system
    gives them. *)
Variable readdir : gset text -> list text.

(** [createTypeIndex] *)
Definition createTypeIndex (types : gmap text text) : gmap text text :=
  let typeFiles :=
    List.filter (fun file => endsWith file (txt ".ts")
                             && negb (text_eqb file (txt "index.ts")))
                (readdir (dom types)) in
  <[txt "index.ts" := type_index typeFiles]> types.

(** [organizeGeneratedFiles] up to [createTypeIndex]: the loop, the three
    rewritings of the [api] directory, the index of the types. *)
Definition organize (d : dirs) : option dirs :=
  d ← move_files (readdir (dom (root d))) d;
  Some (Dirs (root d)
             (renameApiMethods (fixApiImports (HttpClient.fixHttpClient (api d))))
             (createTypeIndex (types d))).

End Listing.

(** A listing gives each name of the directory once. *)
Definition lists (readdir : gset text -> list text) : Prop :=
  forall names, NoDup (readdir names)
                /\ forall file, In file (readdir names) <-> file ∈ names.

(** The same directories with another content in [types.ts]. *)
Definition with_types_ts (content : text) (d : dirs) : dirs :=
  Dirs (<[txt "types.ts" := content]> (root d)) (api d) (types d).

(** ** Two runs that differ in the content of [types.ts] *)

(** Before the loop reaches [types.ts]: the roots differ there only. *)
Definition differ_in_root (c1 c2 : text) (d1 d2 : dirs) : Prop :=
  api d1 = api d2 /\ types d1 = types d2
  /\ exists r, root d1 = <[txt "types.ts" := c1]> r
               /\ root d2 = <[txt "types.ts" := c2]> r.

(** After: the type directories differ at [index.ts] only. *)
Definition differ_in_types (c1 c2 : text) (d1 d2 : dirs) : Prop :=
  api d1 = api d2 /\ root d1 = root d2
  /\ exists t, types d1 = <[txt "index.ts" := c1]> t
               /\ types d2 = <[txt "index.ts" := c2]> t.

End Organize.


(* ===================================================================== *)
(** * Facts about the runtime *)
(* ===================================================================== *)

Module JSFacts.
Import JS.

(** ** Strings *)

Lemma text_eqb_spec a b : reflect (a = b) (text_eqb a b).
Proof.
  revert b; induction a as [|x a IH]; intros [|y b]; simpl;
    try (constructor; congruence).
  destruct (Ascii.eqb_spec x y) as [->|Hxy]; simpl.
  - destruct (IH b) as [->|Hab]; constructor; congruence.
  - constructor; congruence.
Qed.

Lemma text_eqb_eq a b : text_eqb a b = true <-> a = b.
Proof. destruct (text_eqb_spec a b); split; congruence. Qed.

Lemma text_eqb_refl a : text_eqb a a = true.
Proof. by apply text_eqb_eq. Qed.

Lemma text_eqb_neq a b : text_eqb a b = false <-> a <> b.
Proof. destruct (text_eqb_spec a b); split; congruence. Qed.

Lemma strip_prefix_app p s : strip_prefix p (p ++ s) = Some s.
Proof.
  induction p as [|x p IH]; simpl; [done|].
  by rewrite Ascii.eqb_refl.
Qed.

Lemma strip_prefix_Some p s r : strip_prefix p s = Some r -> s = p ++ r.
Proof.
  revert s; induction p as [|x p IH]; intros [|y s]; simpl; try congruence.
  destruct (Ascii.eqb_spec x y) as [->|]; [|done].
  intros H; f_equal; auto.
Qed.

Lemma strip_prefix_None p s :
  strip_prefix p s = None -> forall r, s <> p ++ r.
Proof.
  intros H r ->. by rewrite strip_prefix_app in H.
Qed.

Lemma startsWith_true s p : startsWith s p = true <-> exists r, s = p ++ r.
Proof.
  unfold startsWith. destruct (strip_prefix p s) as [r|] eqn:H; split.
  - exists r. by apply strip_prefix_Some.
  - done.
  - done.
  - intros [r ->]. by rewrite strip_prefix_app in H.
Qed.

Lemma startsWith_app s p : startsWith (p ++ s) p = true.
Proof. apply startsWith_true; eauto. Qed.

Lemma includes_true s p :
  includes s p = true <-> exists a b, s = a ++ p ++ b.
Proof.
  induction s as [|c s IH]; simpl.
  - rewrite startsWith_true. split.
    + intros [r H]. exists [], r. done.
    + intros (a & b & H). destruct a; [|done]. destruct p; [|done]. by exists [].
  - rewrite orb_true_iff, IH, startsWith_true. split.
    + intros [[r H]|(a & b & H)].
      * exists [], r. done.
      * exists (c :: a), b. by rewrite H.
    + intros (a & b & H). destruct a as [|c' a]; simpl in H.
      * left. eauto.
      * right. injection H as -> ->. eauto.
Qed.

Lemma forallb_Forall {A} (f : A -> bool) l :
  forallb f l = true <-> Forall (fun x => f x = true) l.
Proof.
  induction l as [|x l IH]; simpl.
  - split; [constructor|done].
  - rewrite andb_true_iff, IH. split.
    + intros [? ?]. by constructor.
    + inversion 1; subst. done.
Qed.

(** [split_on] cuts at every separator and nowhere else. *)
Lemma split_on_nonempty c s : split_on c s <> [].
Proof.
  destruct s as [|x s]; simpl; [done|].
  destruct (Ascii.eqb x c); [done|]. by destruct (split_on c s).
Qed.



Lemma span_app f a b :
  Forall (fun x => f x = true) a ->
  match b with [] => True | x :: _ => f x = false end ->
  span f (a ++ b) = (a, b).
Proof.
  induction 1 as [|x a Hx _ IH]; intros Hb; simpl.
  - destruct b as [|y b]; [done|]. simpl. by rewrite Hb.
  - rewrite Hx, IH; done.
Qed.

Lemma span_spec f s a b :
  span f s = (a, b) ->
  s = a ++ b /\ Forall (fun x => f x = true) a
  /\ match b with [] => True | x :: _ => f x = false end.
Proof.
  revert a b; induction s as [|x s IH]; simpl; intros a b H.
  - by injection H as <- <-.
  - destruct (f x) eqn:Hx.
    + destruct (span f s) as [a' b'] eqn:Hs. injection H as <- <-.
      destruct (IH _ _ eq_refl) as (-> & Ha & Hb). auto.
    + injection H as <- <-. auto.
Qed.

(** ** Decimal numerals *)
















Lemma digit_not c x : is_digit c = true -> is_digit x = false -> c <> x.
Proof. congruence. Qed.


End JSFacts.


(* ===================================================================== *)
(** * publish-packages.js: computing versions *)
(* ===================================================================== *)

Module VersionFacts.
Import JS JSFacts Publish.

#[local] Arguments starts_line_terminator : simpl never.



(** ** The switch of [incrementVersion], branch by branch *)






(** ** Splitting a version *)





(** ** The prerelease pattern *)
















End VersionFacts.


Module VersionClaims.
Import JS JSFacts Publish VersionFacts.





End VersionClaims.


(* ===================================================================== *)
(** * Reasoning about effects *)
(* ===================================================================== *)

Module EffFacts.
Import JS Eff.

Section Logic.
Context {St Ev : Type}.
Implicit Types w : world St Ev.

Lemma bind_unfold {A B} (m : M St Ev A) (k : A -> M St Ev B) w :
  (m ≫= k) w =
  match m w with
  | (Ret a, w') => k a w'
  | (Throw e, w') => (Throw e, w')
  | (Exit c, w') => (Exit c, w')
  end.
Proof. reflexivity. Qed.

End Logic.

End EffFacts.

(* ===================================================================== *)
(** * publish-packages.js: the steps *)
(* ===================================================================== *)

Module StepFacts.
Import JS JSFacts Eff EffFacts Publish.

Lemma after_after w a b : w ⊕ a ⊕ b = w ⊕ (a ++ b).
Proof. unfold after. simpl. by rewrite app_assoc. Qed.

Lemma after_nil w : w ⊕ [] = w.
Proof. destruct w. unfold after. simpl. by rewrite app_nil_r. Qed.

Lemma store_after w evs : store (w ⊕ evs) = store w.
Proof. done. Qed.

Lemma trace_after w evs : trace (w ⊕ evs) = trace w ++ evs.
Proof. done. Qed.

Lemma emit_run (e : event) (w : world) : emit e w = (Ret tt, w ⊕ [e]).
Proof. done. Qed.

(** Unfolds the combinators of the monad in the goal. *)
Ltac step :=
  unfold mbind, mret, M_bind, M_ret, bind, ret, throw, exit, emit, get_store,
    put_store, observe, try_catch, try_finally in *; simpl in *.

(** ** [getCurrentVersion] *)

Lemma getCurrentVersion_run p w :
  getCurrentVersion p w
  = (Ret (current_version (store w) p), w ⊕ [GetCurrentVersion p]).
Proof.
  unfold getCurrentVersion, read_manifest, property, current_version. step.
  destruct (store w !! p) as [[|[]]|]; reflexivity.
Qed.

End StepFacts.


(* ===================================================================== *)
(** * publish-packages.js: the steps, run *)
(* ===================================================================== *)

Module RunFacts.
Import JS JSFacts Eff EffFacts Publish StepFacts.

Section WithEnv.
Variable E : env.

(** ** Subprocesses *)

Lemma execSync_run command cwd w :
  execSync E command cwd w =
  match sh E w command cwd with
  | Some out => (Ret out, w ⊕ [ExecSync command cwd true])
  | None => (Throw (CommandFailed command), w ⊕ [ExecSync command cwd false])
  end.
Proof. unfold execSync. step. by destruct (sh E w command cwd). Qed.

(** ** [getNextAvailableVersion] *)

(** The loop runs to its exit condition within the rounds it is given
    when these cover the attempts left, and probes once per round. *)
Lemma probe_loop_run packageName versionType fuel : forall st w,
  exists st' evs,
    probe_loop E fuel packageName versionType st w = (Ret st', w ⊕ evs)
    /\ Forall (is_probe packageName) evs
    /\ (length evs <= fuel)%nat
    /\ (attempts st <= attempts st' <= attempts st + length evs)%nat
    /\ (versionExists st = false -> st' = st /\ evs = [])
    /\ ((maxAttempts - attempts st <= fuel)%nat ->
        versionExists st' && (attempts st' <? maxAttempts)%nat = false).
Proof.
  induction fuel as [|fuel IH]; intros st w.
  - exists st, []. rewrite after_nil. simpl.
    split; [done|]. split; [done|]. split; [lia|]. split; [lia|].
    split; [done|].
    intros H. apply andb_false_iff. right. apply Nat.ltb_ge. lia.
  - cbn [probe_loop].
    destruct (versionExists st && (attempts st <? maxAttempts)%nat) eqn:Hc.
    + apply andb_true_iff in Hc as [Hex Hlt]. apply Nat.ltb_lt in Hlt.
      unfold mbind, M_bind, bind, try_catch, mret, M_ret, ret.
      rewrite execSync_run.
      fold (npm_view packageName (nextVersion st)).
      destruct (sh E w (npm_view packageName (nextVersion st)) []) as [out|].
      * destruct (IH (Probing (incrementVersion (nextVersion st) versionType)
                              (versionExists st) (S (attempts st)))
                     (w ⊕ [ExecSync (npm_view packageName (nextVersion st)) [] true]))
          as (st' & evs & Hrun & Hev & Hlen & Hatt & _ & Hexit).
        cbn [attempts nextVersion versionExists] in *. rewrite Hrun.
        eexists st', (_ :: evs). rewrite after_after. cbn [app length].
        split; [done|]. split; [constructor; [by eexists _, _|done]|].
        split; [lia|]. split; [lia|]. split; [congruence|].
        intros H. apply Hexit. lia.
      * destruct (IH (Probing (nextVersion st) false (attempts st))
                     (w ⊕ [ExecSync (npm_view packageName (nextVersion st)) [] false]))
          as (st' & evs & Hrun & Hev & Hlen & Hatt & Hstop & _).
        cbn [attempts nextVersion versionExists] in *. rewrite Hrun.
        destruct (Hstop eq_refl) as [-> ->].
        exists (Probing (nextVersion st) false (attempts st)),
          [ExecSync (npm_view packageName (nextVersion st)) [] false].
        rewrite after_nil. cbn [app length attempts versionExists].
        split; [done|]. split; [constructor; [by eexists _, _|done]|].
        split; [lia|]. split; [lia|]. split; [congruence|]. done.
    + exists st, []. rewrite after_nil. simpl.
      split; [done|]. split; [done|]. split; [lia|]. split; [lia|]. done.
Qed.

(** [getNextAvailableVersion] on a version that is a string returns a
    version after at most [maxAttempts] probes, with or without the
    warning of its fallback. *)
Lemma getNextAvailableVersion_run packageName (v : text) versionType w :
  exists next probes tail,
    getNextAvailableVersion E packageName (Val (JStr v)) versionType w
    = (Ret next,
       w ⊕ (GetNextAvailableVersion packageName versionType :: probes ++ tail))
    /\ Forall (is_probe packageName) probes
    /\ (length probes <= maxAttempts)%nat
    /\ (tail = [] \/ tail = [could_not_check packageName]).
Proof.
  unfold getNextAvailableVersion, incrementVersionOf.
  unfold mbind, M_bind, bind, try_catch, mret, M_ret, ret, throw.
  rewrite emit_run.
  destruct (probe_loop_run packageName versionType maxAttempts
              (Probing (incrementVersion v versionType) true 0)
              (w ⊕ [GetNextAvailableVersion packageName versionType]))
    as (st' & evs & Hrun & Hev & Hlen & _ & _ & _).
  rewrite Hrun.
  destruct (maxAttempts <=? attempts st')%nat.
  - rewrite emit_run. rewrite !after_after.
    exists (incrementVersion v versionType), evs, [could_not_check packageName].
    cbn [app]. split; [done|]. auto.
  - rewrite !after_after. exists (nextVersion st'), evs, [].
    rewrite app_nil_r. cbn [app]. auto.
Qed.

(** On anything else it throws, from the fallback too. *)
Lemma getNextAvailableVersion_not_string packageName version versionType w :
  (forall v, version <> Val (JStr v)) ->
  getNextAvailableVersion E packageName version versionType w
  = (Throw TypeError,
     w ⊕ [GetNextAvailableVersion packageName versionType;
          could_not_check packageName]).
Proof.
  intros H. unfold getNextAvailableVersion, incrementVersionOf.
  unfold mbind, M_bind, bind, try_catch, mret, M_ret, ret, throw.
  rewrite emit_run.
  destruct version as [|[]]; try (rewrite emit_run, after_after; reflexivity).
  by destruct (H s).
Qed.

(** When every probe finds its version on the registry, the loop uses up
    all its rounds. *)
Lemma probe_loop_all_found packageName versionType :
  (forall w' version, sh E w' (npm_view packageName version) [] <> None) ->
  forall fuel st w,
  versionExists st = true -> (attempts st + fuel <= maxAttempts)%nat ->
  exists st' evs,
    probe_loop E fuel packageName versionType st w = (Ret st', w ⊕ evs)
    /\ Forall (is_probe packageName) evs
    /\ length evs = fuel
    /\ attempts st' = (attempts st + fuel)%nat.
Proof.
  intros Hall fuel. induction fuel as [|fuel IH]; intros st w Hex Hatt.
  - exists st, []. rewrite after_nil. simpl. repeat split; try done; lia.
  - cbn [probe_loop]. rewrite Hex.
    assert ((attempts st <? maxAttempts)%nat = true) as ->
      by (apply Nat.ltb_lt; lia).
    cbn [andb].
    unfold mbind, M_bind, bind, try_catch, mret, M_ret, ret.
    rewrite execSync_run. fold (npm_view packageName (nextVersion st)).
    destruct (sh E w (npm_view packageName (nextVersion st)) []) as [out|] eqn:Hsh;
      [|by destruct (Hall w (nextVersion st))].
    destruct (IH (Probing (incrementVersion (nextVersion st) versionType)
                          true (S (attempts st)))
                 (w ⊕ [ExecSync (npm_view packageName (nextVersion st)) [] true]))
      as (st' & evs & Hrun & Hev & Hlen & Hatt').
    { done. }
    { cbn [attempts]. lia. }
    cbn [attempts] in *. rewrite Hrun.
    eexists st', (_ :: evs). rewrite after_after. cbn [app length].
    split; [done|]. split; [constructor; [by eexists _, _|done]|].
    split; [lia|]. lia.
Qed.

(** The operation then falls back on the version it tried first. *)
Lemma getNextAvailableVersion_all_found packageName (v : text) versionType w :
  (forall w' version, sh E w' (npm_view packageName version) [] <> None) ->
  exists probes,
    getNextAvailableVersion E packageName (Val (JStr v)) versionType w
    = (Ret (incrementVersion v versionType),
       w ⊕ (GetNextAvailableVersion packageName versionType :: probes
              ++ [could_not_check packageName]))
    /\ Forall (is_probe packageName) probes
    /\ length probes = maxAttempts.
Proof.
  intros Hall.
  unfold getNextAvailableVersion, incrementVersionOf.
  unfold mbind, M_bind, bind, try_catch, mret, M_ret, ret, throw.
  rewrite emit_run.
  destruct (probe_loop_all_found packageName versionType Hall maxAttempts
              (Probing (incrementVersion v versionType) true 0)
              (w ⊕ [GetNextAvailableVersion packageName versionType]))
    as (st' & evs & Hrun & Hev & Hlen & Hatt); [done|done|].
  rewrite Hrun. rewrite Hatt. cbn [attempts].
  replace (maxAttempts <=? 0 + maxAttempts)%nat with true
    by (symmetry; apply Nat.leb_le; lia).
  rewrite emit_run. rewrite !after_after. exists evs. cbn [app]. auto.
Qed.

(** ** The steps that rewrite the manifest *)

Lemma updateVersion_run p v w :
  updateVersion p v w =
  match store w !! p with
  | None => (Throw ReadError, w ⊕ [UpdateVersion p v])
  | Some NotJson => (Throw SyntaxError, w ⊕ [UpdateVersion p v])
  | Some (Manifest JNull) => (Throw TypeError, w ⊕ [UpdateVersion p v])
  | Some (Manifest pkg) =>
      (Ret tt, written w p (set_version v pkg) [UpdateVersion p v])
  end.
Proof.
  unfold updateVersion, read_manifest, write_manifest. step.
  destruct (store w !! p) as [[|[]]|]; reflexivity.
Qed.

Lemma fixWorkspaceDependencies_run p pv w :
  fixWorkspaceDependencies p pv w =
  match store w !! p with
  | None => (Throw ReadError, w ⊕ [FixWorkspaceDependencies p])
  | Some NotJson => (Throw SyntaxError, w ⊕ [FixWorkspaceDependencies p])
  | Some (Manifest pkg) =>
      match fix_manifest pv pkg with
      | None => (Throw TypeError, w ⊕ [FixWorkspaceDependencies p])
      | Some pkg' => (Ret tt, written w p pkg' [FixWorkspaceDependencies p])
      end
  end.
Proof.
  unfold fixWorkspaceDependencies, read_manifest, write_manifest. step.
  destruct (store w !! p) as [[|pkg]|]; try reflexivity.
  destruct (fix_manifest pv pkg); reflexivity.
Qed.

Lemma restoreWorkspaceDependencies_run p w :
  restoreWorkspaceDependencies p w =
  match store w !! p with
  | None => (Throw ReadError, w ⊕ [RestoreWorkspaceDependencies p])
  | Some NotJson => (Throw SyntaxError, w ⊕ [RestoreWorkspaceDependencies p])
  | Some (Manifest pkg) =>
      match restore_manifest pkg with
      | None => (Throw TypeError, w ⊕ [RestoreWorkspaceDependencies p])
      | Some pkg' => (Ret tt, written w p pkg' [RestoreWorkspaceDependencies p])
      end
  end.
Proof.
  unfold restoreWorkspaceDependencies, read_manifest, write_manifest. step.
  destruct (store w !! p) as [[|pkg]|]; try reflexivity.
  destruct (restore_manifest pkg); reflexivity.
Qed.

(** ** [buildPackage] and [publishPackage] *)

Lemma buildPackage_run p n w :
  buildPackage E p n w =
  let w1 := w ⊕ [BuildPackage p] in
  match build_command p with
  | None => (Ret tt, w1)
  | Some command =>
      match sh E w1 command p with
      | Some _ => (Ret tt, w1 ⊕ [ExecSync command p true])
      | None =>
          (Throw (CommandFailed command),
           w1 ⊕ [ExecSync command p false; Log (txt "Failed to build " ++ n)])
      end
  end.
Proof.
  unfold buildPackage, build_command.
  unfold mbind, M_bind, bind, try_catch, mret, M_ret, ret, throw.
  rewrite emit_run. cbv zeta.
  repeat (destruct (text_eqb p _);
          [rewrite execSync_run; destruct (sh E _ _ _);
           [reflexivity|rewrite emit_run, after_after; reflexivity]|]).
  reflexivity.
Qed.

Lemma publishPackage_run p n tag w :
  publishPackage E p n tag w =
  let w1 := w ⊕ [PublishPackage p tag] in
  match sh E w1 (publish_command tag) p with
  | Some _ => (Ret tt, w1 ⊕ [ExecSync (publish_command tag) p true])
  | None =>
      (Throw (CommandFailed (publish_command tag)),
       w1 ⊕ [ExecSync (publish_command tag) p false;
             Log (txt "Failed to publish " ++ n)])
  end.
Proof.
  unfold publishPackage.
  unfold mbind, M_bind, bind, try_catch, mret, M_ret, ret, throw.
  rewrite emit_run, execSync_run. cbv zeta. fold (publish_command tag).
  destruct (sh E _ _ _); [reflexivity|].
  rewrite emit_run, after_after. reflexivity.
Qed.

End WithEnv.
End RunFacts.


(* ===================================================================== *)
(** * publish-packages.js: rewriting the manifest *)
(* ===================================================================== *)

Module ManifestFacts.
Import JS JSFacts Eff EffFacts Publish StepFacts RunFacts.

(** ** Properties of an object *)

Lemma get_set_field_same k v fields :
  get_field k (set_field k v fields) = Val v.
Proof.
  induction fields as [|[k' v'] fields IH]; cbn [get_field set_field].
  - by rewrite text_eqb_refl.
  - destruct (text_eqb k' k) eqn:Hk; cbn [get_field]; by rewrite Hk.
Qed.

Lemma get_set_field_other k k' v fields :
  k' <> k -> get_field k' (set_field k v fields) = get_field k' fields.
Proof.
  intros Hne. induction fields as [|[k0 v0] fields IH];
    cbn [get_field set_field].
  - apply not_eq_sym, text_eqb_neq in Hne. by rewrite Hne.
  - destruct (text_eqb k0 k) eqn:Hk; cbn [get_field]; [|by rewrite IH].
    apply text_eqb_eq in Hk as ->.
    apply not_eq_sym, text_eqb_neq in Hne. by rewrite Hne.
Qed.

(** Replacing the value of a property that exists changes that value, in
    place, and nothing else. *)
Lemma set_field_in_place k old v fields :
  get_field k fields = Val old ->
  Forall2 (fun '(k1, v1) '(k2, v2) =>
             k2 = k1 /\ (v2 = v1 \/ (k1 = k /\ v1 = old /\ v2 = v)))
          fields (set_field k v fields).
Proof.
  induction fields as [|[k' v'] fields IH]; cbn [get_field set_field]; [done|].
  destruct (text_eqb_spec k' k) as [->|Hk].
  - intros [= ->]. constructor; [auto|].
    apply Forall_Forall2_diag, Forall_forall. intros [k1 v1] _. auto.
  - intros H. constructor; auto.
Qed.

Lemma Forall2_compose {A} (R S T : A -> A -> Prop) l1 l2 l3 :
  (forall a b c, R a b -> S b c -> T a c) ->
  Forall2 R l1 l2 -> Forall2 S l2 l3 -> Forall2 T l1 l3.
Proof.
  intros H H12. revert l3. induction H12; intros l3 H23; inversion H23; subst.
  - constructor.
  - constructor; eauto.
Qed.

Lemma Forall2_same {A} (R : A -> A -> Prop) l :
  (forall a, R a a) -> Forall2 R l l.
Proof. intros H. induction l; constructor; auto. Qed.

(** ** The loop over the dependency sections *)

Lemma over_sections_spec f types : NoDup types -> forall fields fields',
  over_sections f types fields = Some fields' ->
  Forall2 (section_step f types) fields fields'.
Proof.
  induction 1 as [|d ts Hd Hnd IH]; intros fields fields'; cbn [over_sections].
  - intros [= <-]. apply Forall2_same. intros [k v]. by split; [|left].
  - assert (forall fs, over_sections f ts fs = Some fields' ->
              Forall2 (section_step f ts) fs fields' ->
              forall l, Forall2 (fun '(k1, v1) '(k2, v2) =>
                  k2 = k1 /\ (v2 = v1 \/ exists old new,
                    k1 = d /\ v1 = old /\ v2 = new
                    /\ truthy (Val old) = true /\ f old = Some new)) l fs ->
              Forall2 (section_step f (d :: ts)) l fields') as Hcomp.
    { intros fs _ H2 l H1.
      eapply Forall2_compose; [|exact H1|exact H2].
      intros [k1 v1] [k2 v2] [k3 v3] [-> H12] [Hk H23]. simpl in *. subst k3.
      split; [done|].
      destruct H12 as [->|(old & new & -> & -> & -> & Ht & Hf)].
      - destruct H23 as [->|(Hin & Ht & Hf)]; [by left|].
        right. split; [by right|done].
      - destruct H23 as [->|(Hin & _)]; [|by destruct Hd; apply list_elem_of_In].
        right. split; [by left|done]. }
    destruct (get_field d fields) as [|section] eqn:Hget.
    + intros H. eapply Hcomp; [exact H|exact (IH _ _ H)|].
      apply Forall2_same. intros [k v]. auto.
    + destruct (truthy (Val section)) eqn:Ht.
      * destruct (f section) as [section'|] eqn:Hf; [|intros H; discriminate H].
        intros H. eapply Hcomp; [exact H|exact (IH _ _ H)|].
        eapply Forall2_impl; [by apply set_field_in_place|].
        intros [k1 v1] [k2 v2] [-> [->|(-> & -> & ->)]]; [auto|].
        split; [done|]. right. eauto 10.
      * intros H. eapply Hcomp; [exact H|exact (IH _ _ H)|].
        apply Forall2_same. intros [k v]. auto.
Qed.

Lemma over_sections_get f types : NoDup types -> forall fields fields',
  over_sections f types fields = Some fields' ->
  forall k,
    (~ In k types -> get_field k fields' = get_field k fields)
    /\ (get_field k fields = Undefined -> get_field k fields' = Undefined)
    /\ (In k types -> forall v, get_field k fields = Val v ->
        exists v', apply_section f v = Some v' /\ get_field k fields' = Val v').
Proof.
  induction 1 as [|d ts Hd Hnd IH]; intros fields fields'; cbn [over_sections].
  - intros [= <-] k. split; [done|]. split; [done|]. intros [].
  - apply list_elem_of_In in Hd || (rewrite list_elem_of_In in Hd).
    assert (forall fs, over_sections f ts fs = Some fields' ->
              (forall k, k <> d -> get_field k fs = get_field k fields) ->
              (exists v0, (get_field d fields = Undefined /\ get_field d fs = Undefined)
                 \/ (get_field d fields = Val v0 /\
                     exists v', apply_section f v0 = Some v' /\ get_field d fs = Val v')) ->
              forall k,
                (~ In k (d :: ts) -> get_field k fields' = get_field k fields)
                /\ (get_field k fields = Undefined -> get_field k fields' = Undefined)
                /\ (In k (d :: ts) -> forall v, get_field k fields = Val v ->
                    exists v', apply_section f v = Some v' /\ get_field k fields' = Val v'))
      as Hstep.
    { intros fs Hfs Hother Hd' k.
      destruct (IH _ _ Hfs k) as (Hout & Hund & Hin).
      destruct (IH _ _ Hfs d) as (Hdout & _ & _).
      split; [|split].
      - intros Hk. rewrite Hout by (intros ?; apply Hk; by right).
        apply Hother. intros ->. apply Hk. by left.
      - intros Hu. destruct (decide (k = d)) as [->|Hkd].
        + rewrite Hdout by done.
          destruct Hd' as (v0 & [[_ ?]|[H1 _]]); [done|congruence].
        + apply Hund. by rewrite Hother.
      - intros Hk v Hv. destruct (decide (k = d)) as [->|Hkd].
        + rewrite Hdout by done.
          destruct Hd' as (v0 & [[H1 _]|[H1 H2]]); [congruence|].
          rewrite H1 in Hv. injection Hv as ->. done.
        + destruct Hk as [->|Hk]; [done|].
          apply Hin; [done|]. by rewrite Hother. }
    destruct (get_field d fields) as [|section] eqn:Hget.
    + intros H. apply (Hstep fields H); [done|]. exists JNull. by left.
    + destruct (truthy (Val section)) eqn:Ht.
      * destruct (f section) as [section'|] eqn:Hf; [|intros H; discriminate H].
        intros H. apply (Hstep _ H).
        -- intros k Hk. by apply get_set_field_other.
        -- exists section. right. split; [done|]. exists section'.
           unfold apply_section. rewrite Ht, get_set_field_same. done.
      * intros H. apply (Hstep fields H); [done|].
        exists section. right. split; [done|]. exists section.
        unfold apply_section. by rewrite Ht.
Qed.

Lemma over_sections_total f types :
  (forall v, f v <> None) -> forall fields, over_sections f types fields <> None.
Proof.
  intros Hf. induction types as [|d ts IH]; intros fields; cbn [over_sections].
  - done.
  - destruct (get_field d fields) as [|section]; [apply IH|].
    destruct (truthy (Val section)); [|apply IH].
    destruct (f section) eqn:H; [apply IH|]. by destruct (Hf section).
Qed.

Lemma NoDup_depTypes : NoDup depTypes.
Proof. apply (bool_decide_unpack _). by vm_compute. Qed.

Lemma depTypes_not_version d : In d depTypes -> d <> txt "version".
Proof. intros [<-|[<-|[<-|[]]]]; discriminate. Qed.

(** ** The substitution *)

Lemma fix_entry_spec pv n r r' :
  fix_entry pv n r = Some r' -> entry_fixed pv (n, r) (n, r').
Proof.
  unfold fix_entry, entry_fixed. cbn [fst snd].
  destruct (is_workspace_range r) as [[]|] eqn:Hw;
    [|intros H; simplify_eq; auto|done].
  destruct (find_package n) as [pkg|] eqn:Hp; [|intros H; simplify_eq; auto].
  destruct (version_of pv n) as [|v] eqn:Hv; [intros H; simplify_eq; auto|].
  destruct (truthy (Val v)) eqn:Ht; intros H; simplify_eq; [|by auto].
  split; [done|]. right. eauto.
Qed.

Lemma fix_entries_spec pv entries : forall entries',
  fix_entries pv entries = Some entries' ->
  Forall2 (entry_fixed pv) entries entries'.
Proof.
  induction entries as [|[n r] entries IH]; intros entries'; cbn [fix_entries].
  - intros H; simplify_eq. constructor.
  - destruct (fix_entry pv n r) as [r'|] eqn:Hr; [|done].
    destruct (fix_entries pv entries) as [rest'|]; [|done].
    intros H; simplify_eq. constructor; [by apply fix_entry_spec|by apply IH].
Qed.

Lemma fix_section_spec pv section section' :
  fix_section pv section = Some section' ->
  section' = section
  \/ exists entries entries',
       section = JObj entries /\ section' = JObj entries'
       /\ Forall2 (entry_fixed pv) entries entries'.
Proof.
  destruct section; cbn [fix_section];
    try (intros H; simplify_eq; by left).
  - destruct (forallb _ items); intros H; [|discriminate H].
    injection H as <-. by left.
  - destruct (fix_entries pv fields) as [entries'|] eqn:H; intros H';
      [|discriminate H'].
    injection H' as <-. right. exists fields, entries'.
    split; [done|]. split; [done|]. by apply fix_entries_spec.
Qed.

Lemma fix_manifest_spec pv fields pkg' :
  fix_manifest pv (JObj fields) = Some pkg' ->
  exists fields', pkg' = JObj fields' /\ Forall2 (field_fixed pv) fields fields'.
Proof.
  cbn [fix_manifest].
  destruct (over_sections (fix_section pv) depTypes fields) as [fields'|] eqn:H;
    [|done].
  intros H'; simplify_eq. exists fields'. split; [done|].
  eapply Forall2_impl; [exact (over_sections_spec _ _ NoDup_depTypes _ _ H)|].
  intros [k v] [k' v'] [Hk Hv]. simpl in *. split; [done|].
  destruct Hv as [->|(Hin & _ & Hf)]; [by left|].
  apply fix_section_spec in Hf as [->|Hf]; [by left|]. right. auto.
Qed.

(** ** The restoration *)

Lemma restore_manifest_object fields :
  exists fields', restore_manifest (JObj fields) = Some (JObj fields').
Proof.
  cbn [restore_manifest].
  destruct (over_sections restore_section depTypes fields) as [fields'|] eqn:H;
    [eauto|].
  exfalso. revert H. apply over_sections_total. by intros [].
Qed.

(** Restoring an entry forgets what the substitution did to it. *)
Lemma restore_entry_fixed pv e e' :
  entry_fixed pv e e' -> restore_entry e' = restore_entry e.
Proof.
  destruct e as [n r], e' as [n' r']. intros [Hn Hr]. simpl in *. subst n'.
  unfold restore_entry. simpl.
  destruct Hr as [->|(_ & [pkg Hp] & _)]; [done|]. by rewrite Hp.
Qed.

Lemma restore_entries_fixed pv entries entries' :
  Forall2 (entry_fixed pv) entries entries' ->
  map restore_entry entries' = map restore_entry entries.
Proof.
  induction 1 as [|e e' l l' He _ IH]; [done|].
  simpl. by rewrite IH, (restore_entry_fixed pv e e').
Qed.

(** The sections after substitution, version update and restoration. *)
Lemma restore_after_fix pv newVersion fields pkg1 :
  fix_manifest pv (JObj fields) = Some pkg1 ->
  exists fields2,
    restore_manifest (set_version newVersion pkg1) = Some (JObj fields2)
    /\ forall depType, In depType depTypes ->
         get_field depType fields2 = restored (get_field depType fields).
Proof.
  intros Hfix. pose proof Hfix as Hfix'.
  apply fix_manifest_spec in Hfix' as (fields1 & -> & _).
  cbn [fix_manifest] in Hfix.
  destruct (over_sections (fix_section pv) depTypes fields) as [f1|] eqn:H1;
    [|done].
  injection Hfix as <-. cbn [set_version].
  destruct (restore_manifest_object (set_field (txt "version") (JStr newVersion) f1))
    as (fields2 & H2).
  exists fields2. split; [done|]. intros d Hd.
  cbn [restore_manifest] in H2.
  destruct (over_sections restore_section depTypes _) as [f2|] eqn:H3; [|done].
  injection H2 as <-.
  destruct (over_sections_get _ _ NoDup_depTypes _ _ H1 d) as (_ & Hu1 & Hv1).
  destruct (over_sections_get _ _ NoDup_depTypes _ _ H3 d) as (_ & Hu2 & Hv2).
  rewrite (get_set_field_other _ _ _ _ (depTypes_not_version d Hd)) in Hu2, Hv2.
  destruct (get_field d fields) as [|section] eqn:Hget.
  - simpl. by apply Hu2, Hu1.
  - destruct (Hv1 Hd section eq_refl) as (s1 & Hs1 & Hg1).
    destruct (Hv2 Hd s1 Hg1) as (s2 & Hs2 & ->).
    unfold apply_section in Hs1, Hs2.
    destruct (truthy (Val section)) eqn:Ht.
    + apply fix_section_spec in Hs1 as [->|(es & es' & -> & -> & Hes)].
      * rewrite Ht in Hs2. destruct section; injection Hs2 as <-; done.
      * simpl in Hs2. injection Hs2 as <-. simpl.
        by rewrite (restore_entries_fixed pv es es').
    + injection Hs1 as <-. rewrite Ht in Hs2. injection Hs2 as <-.
      by destruct section.
Qed.

End ManifestFacts.


(* ===================================================================== *)
(** * Reasoning about traces *)
(* ===================================================================== *)

Module TraceFacts.
Import JS Eff EffFacts.

Section Emits.
Context {St Ev : Type}.

Lemma emits_conseq {A} (m : M St Ev A) (Φ Φ' : outcome A -> list Ev -> Prop) :
  emits m Φ -> (forall o evs, Φ o evs -> Φ' o evs) -> emits m Φ'.
Proof.
  intros H HΦ w. destruct (H w) as (o & st & evs & Hrun & HP). eauto 10.
Qed.

Lemma emits_ret {A} (a : A) (Φ : outcome A -> list Ev -> Prop) :
  Φ (Ret a) [] -> emits (mret a : M St Ev A) Φ.
Proof.
  intros H w. exists (Ret a), (store w), []. rewrite app_nil_r.
  split; [by destruct w|done].
Qed.

Lemma emits_throw {A} e (Φ : outcome A -> list Ev -> Prop) :
  Φ (Throw e) [] -> emits (throw e : M St Ev A) Φ.
Proof.
  intros H w. exists (Throw e), (store w), []. rewrite app_nil_r.
  split; [by destruct w|done].
Qed.

Lemma emits_exit {A} c (Φ : outcome A -> list Ev -> Prop) :
  Φ (Exit c) [] -> emits (exit c : M St Ev A) Φ.
Proof.
  intros H w. exists (Exit c), (store w), []. rewrite app_nil_r.
  split; [by destruct w|done].
Qed.

Lemma emits_emit (e : Ev) (Φ : outcome unit -> list Ev -> Prop) :
  Φ (Ret tt) [e] -> emits (emit e : M St Ev unit) Φ.
Proof. intros H w. exists (Ret tt), (store w), [e]. done. Qed.

Lemma emits_bind {A B} (m : M St Ev A) (k : A -> M St Ev B)
    (Φ1 : outcome A -> list Ev -> Prop) (Φ2 : A -> outcome B -> list Ev -> Prop)
    (Φ : outcome B -> list Ev -> Prop) :
  emits m Φ1 -> (forall a, emits (k a) (Φ2 a)) ->
  (forall a evs1 o evs2, Φ1 (Ret a) evs1 -> Φ2 a o evs2 -> Φ o (evs1 ++ evs2)) ->
  (forall e evs, Φ1 (Throw e) evs -> Φ (Throw e) evs) ->
  (forall c evs, Φ1 (Exit c) evs -> Φ (Exit c) evs) ->
  emits (m ≫= k) Φ.
Proof.
  intros Hm Hk Hret Hthrow Hexit w. rewrite bind_unfold.
  destruct (Hm w) as (o & st & evs & -> & H1).
  destruct o as [a|e|c]; [|eauto 10..].
  destruct (Hk a (World st (trace w ++ evs))) as (o2 & st2 & evs2 & -> & H2).
  simpl. rewrite <- app_assoc. eauto 10.
Qed.

Lemma emits_try_catch {A} (m : M St Ev A) (h : exn -> M St Ev A)
    (Φ1 : outcome A -> list Ev -> Prop) (Φ2 : exn -> outcome A -> list Ev -> Prop)
    (Φ : outcome A -> list Ev -> Prop) :
  emits m Φ1 -> (forall e, emits (h e) (Φ2 e)) ->
  (forall e evs1 o evs2, Φ1 (Throw e) evs1 -> Φ2 e o evs2 -> Φ o (evs1 ++ evs2)) ->
  (forall a evs, Φ1 (Ret a) evs -> Φ (Ret a) evs) ->
  (forall c evs, Φ1 (Exit c) evs -> Φ (Exit c) evs) ->
  emits (try_catch m h) Φ.
Proof.
  intros Hm Hh Hthrow Hret Hexit w. unfold try_catch.
  destruct (Hm w) as (o & st & evs & -> & H1).
  destruct o as [a|e|c]; [eauto 10| |eauto 10].
  destruct (Hh e (World st (trace w ++ evs))) as (o2 & st2 & evs2 & -> & H2).
  simpl. rewrite <- app_assoc. eauto 10.
Qed.

(** ** Properties that pass through sequences *)

Lemma keeps_ret {A} (a : A) I :
  sequential I -> keeps (mret a : M St Ev A) I.
Proof. intros HI. apply emits_ret. apply HI. Qed.

Lemma keeps_bind {A B} (m : M St Ev A) (k : A -> M St Ev B) I :
  sequential I -> keeps m I -> (forall a, keeps (k a) I) -> keeps (m ≫= k) I.
Proof.
  intros HI Hm Hk. eapply emits_bind; [exact Hm|exact Hk|..]; simpl.
  - intros a evs1 o evs2. apply HI.
  - done.
  - done.
Qed.

Lemma keeps_for_each {A} (l : list A) (body : A -> M St Ev unit) I :
  sequential I -> (forall x, In x l -> keeps (body x) I) ->
  keeps (for_each l body) I.
Proof.
  intros HI. induction l as [|x l IH]; intros Hbody; simpl.
  - by apply (keeps_ret tt).
  - apply (keeps_bind (body x) (fun _ => for_each l body)); [done|..].
    + apply Hbody. by left.
    + intros _. apply IH. intros y Hy. apply Hbody. by right.
Qed.

Lemma sequential_and (I J : ending -> list Ev -> Prop) :
  sequential I -> sequential J -> sequential (fun k evs => I k evs /\ J k evs).
Proof.
  intros [I1 I2] [J1 J2]. split; [done|].
  intros evs1 k evs2 [? ?] [? ?]. auto.
Qed.

Lemma keeps_conseq {A} (m : M St Ev A) (I J : ending -> list Ev -> Prop) :
  keeps m I -> (forall k evs, I k evs -> J k evs) -> keeps m J.
Proof. intros H HIJ. eapply emits_conseq; [exact H|]. simpl. auto. Qed.

(** A handler that takes over after a body whose events satisfy the
    property as those of a normal return do. *)
Lemma keeps_try_catch {A} (m : M St Ev A) (h : exn -> M St Ev A) I :
  sequential I ->
  emits m (fun o evs =>
             I Returned evs
             /\ match o with Exit c => I (Exited c) evs | _ => True end) ->
  (forall e, keeps (h e) I) -> keeps (try_catch m h) I.
Proof.
  intros HI Hm Hh. eapply emits_try_catch; [exact Hm|exact Hh|..]; simpl.
  - intros e evs1 o evs2 [H1 _] H2. by apply HI.
  - intros a evs [H _]. done.
  - intros c evs [_ H]. done.
Qed.

End Emits.

End TraceFacts.


(* ===================================================================== *)
(** * publish-packages.js: one publication attempt *)
(* ===================================================================== *)

Module AttemptFacts.
Import JS JSFacts Eff EffFacts Publish StepFacts RunFacts ManifestFacts.

Lemma written_after w p pkg evs evs' :
  written w p pkg evs ⊕ evs' = written w p pkg (evs ++ evs').
Proof. unfold written, after. simpl. by rewrite app_assoc. Qed.

Lemma after_written w p pkg evs evs' :
  written (w ⊕ evs) p pkg evs' = written w p pkg (evs ++ evs').
Proof. unfold written, after. simpl. by rewrite app_assoc. Qed.

Lemma written_written w p a b evs evs' :
  written (written w p a evs) p b evs' = written w p b (evs ++ evs').
Proof.
  unfold written. simpl. by rewrite insert_insert_eq, app_assoc.
Qed.

Lemma store_written w p pkg evs :
  store (written w p pkg evs) !! p = Some (Manifest pkg).
Proof. unfold written. simpl. apply lookup_insert_eq. Qed.

Lemma fix_manifest_not_null pv pkg pkg' :
  fix_manifest pv pkg = Some pkg' -> pkg' <> JNull.
Proof.
  destruct pkg; cbn [fix_manifest]; try (intros H; by simplify_eq).
  destruct (over_sections (fix_section pv) depTypes fields);
    intros H; by simplify_eq.
Qed.

Lemma set_version_not_null v pkg : pkg <> JNull -> set_version v pkg <> JNull.
Proof. by destruct pkg. Qed.

Lemma restore_manifest_not_null pkg :
  pkg <> JNull -> exists pkg', restore_manifest pkg = Some pkg'.
Proof.
  destruct pkg; try (by eauto).
  intros _. destruct (restore_manifest_object fields) as (f & ->). eauto.
Qed.

Lemma updateVersion_ok p v w pkg :
  store w !! p = Some (Manifest pkg) -> pkg <> JNull ->
  updateVersion p v w = (Ret tt, written w p (set_version v pkg) [UpdateVersion p v]).
Proof. intros H Hn. rewrite updateVersion_run, H. by destruct pkg. Qed.

Lemma restoreWorkspaceDependencies_ok p w pkg pkg' :
  store w !! p = Some (Manifest pkg) -> restore_manifest pkg = Some pkg' ->
  restoreWorkspaceDependencies p w
  = (Ret tt, written w p pkg' [RestoreWorkspaceDependencies p]).
Proof. intros H Hr. by rewrite restoreWorkspaceDependencies_run, H, Hr. Qed.

Section WithEnv.
Variable E : env.

(** The build and the publication leave the store alone. *)
Lemma middle_run p n tag w :
  exists o mid,
    ((if noBuild E then mret tt else buildPackage E p n);;
     publishPackage E p n tag) w = (o, w ⊕ mid)
    /\ middle E p n tag o mid.
Proof.
  rewrite bind_unfold.
  assert (forall w1 bev, built E p bev -> w1 = w ⊕ bev ->
            exists o mid, publishPackage E p n tag w1 = (o, w ⊕ mid)
                          /\ middle E p n tag o mid) as Hpub.
  { intros w1 bev Hb ->. rewrite publishPackage_run. cbv zeta.
    destruct (sh E _ _ _).
    - eexists _, _. rewrite !after_after. split; [done|]. by constructor.
    - eexists _, _. rewrite !after_after. split; [done|]. by constructor. }
  destruct (noBuild E) eqn:Hnb.
  - apply (Hpub _ []); [by left|]. by rewrite after_nil.
  - rewrite buildPackage_run. cbv zeta.
    destruct (build_command p) as [command|] eqn:Hc.
    + destruct (sh E _ _ _).
      * apply (Hpub _ [BuildPackage p; ExecSync command p true]).
        -- right. split; [done|]. right. eauto.
        -- by rewrite after_after.
      * eexists _, _. rewrite after_after. split; [done|]. by constructor.
    + apply (Hpub _ [BuildPackage p]); [|done].
      right. split; [done|]. by left.
Qed.

(** A publication attempt, from the substitution to the restoration:
    either the substitution fails and nothing is written, or the version
    is written, the build and the publication are tried, and the
    restoration takes place whatever became of them. *)
Lemma publish_steps_run pkg v tag pv w :
  let p := path pkg in
  (exists e, publish_steps E pkg v tag pv w
             = (Throw e, w ⊕ [FixWorkspaceDependencies p])
             /\ (read_failure (store w) p = Some e
                 \/ exists pkg0, store w !! p = Some (Manifest pkg0)
                                 /\ fix_manifest pv pkg0 = None))
  \/ (exists pkg0 pkg1 pkg3 o mid,
        store w !! p = Some (Manifest pkg0)
        /\ fix_manifest pv pkg0 = Some pkg1
        /\ restore_manifest (set_version v pkg1) = Some pkg3
        /\ publish_steps E pkg v tag pv w
           = (o, written w p pkg3
                   ([FixWorkspaceDependencies p; UpdateVersion p v] ++ mid
                      ++ [RestoreWorkspaceDependencies p]))
        /\ middle E p (name pkg) tag o mid).
Proof.
  intros p. unfold publish_steps. fold p. rewrite bind_unfold.
  rewrite fixWorkspaceDependencies_run. unfold read_failure.
  destruct (store w !! p) as [[|pkg0]|] eqn:Hp; [left; eauto..| |left; eauto].
  destruct (fix_manifest pv pkg0) as [pkg1|] eqn:Hfix; [|left; eauto 10].
  right.
  pose proof (fix_manifest_not_null _ _ _ Hfix) as Hn1.
  destruct (restore_manifest_not_null _ (set_version_not_null v _ Hn1))
    as (pkg3 & Hrestore).
  unfold try_finally. rewrite bind_unfold.
  rewrite (updateVersion_ok _ _ _ pkg1) by (by rewrite store_written || done).
  rewrite written_written.
  destruct (middle_run p (name pkg) tag
              (written w p (set_version v pkg1)
                 ([FixWorkspaceDependencies p] ++ [UpdateVersion p v])))
    as (o & mid & Hrun & Hmid).
  rewrite Hrun. rewrite written_after.
  rewrite (restoreWorkspaceDependencies_ok _ _ (set_version v pkg1) pkg3)
    by (by rewrite store_written || done).
  rewrite written_written.
  exists pkg0, pkg1, pkg3, o, mid.
  split; [done|]. split; [done|]. split; [done|].
  split; [|done].
  rewrite <- !app_assoc. by destruct Hmid.
Qed.

End WithEnv.

End AttemptFacts.


Module ManifestClaims.
Import JS JSFacts Eff EffFacts Publish StepFacts RunFacts ManifestFacts
  AttemptFacts.

(** C1, as stated, fails.  In the sample run the server manifest gives
    the config package the range [workspace:^1.0.0] before the run; the
    run succeeds, and afterwards the range is [workspace:*]. *)
Lemma C1_ranges_not_restored_exactly :
  let before := sample_files in
  let run := script (sample_env false) (World before []) in
  let after := store (snd run) in
  let config := txt "@fecommunity/reactpress-config" in
  fst run = Ret tt
  /\ dependency_range before (txt "server") (txt "dependencies") config
     = Some (JStr (txt "workspace:^1.0.0"))
  /\ dependency_range after (txt "server") (txt "dependencies") config
     = Some (JStr (txt "workspace:*"))
  /\ dependency_range after (txt "server") (txt "dependencies") config
     <> dependency_range before (txt "server") (txt "dependencies") config.
Proof. vm_compute. repeat split; congruence. Qed.

(** C1, amended.  After a publication attempt on a manifest that is an
    object -- whether the build and the publication succeed or throw --
    each of the three dependency sections is the section it was before
    the attempt with the range of every internal package set to
    [workspace:*] and every other entry as it was.  (When the
    substitution itself throws, nothing was written and the sections are
    as before.) *)
Theorem C1_ranges_after_attempt (E : env) (pkg : package)
    (newVersion tag : text) (packageVersions : versions) (w : world)
    (fields : list (text * json)) :
  store w !! path pkg = Some (Manifest (JObj fields)) ->
  exists fields',
    store (snd (publish_steps E pkg newVersion tag packageVersions w)) !! path pkg
    = Some (Manifest (JObj fields'))
    /\ forall depType, In depType depTypes ->
         get_field depType fields'
         = match fix_manifest packageVersions (JObj fields) with
           | Some _ => restored (get_field depType fields)
           | None => get_field depType fields
           end.
Proof.
  intros Hw.
  destruct (publish_steps_run E pkg newVersion tag packageVersions w)
    as [(e & -> & Hfail)|(pkg0 & pkg1 & pkg3 & o & mid & Hp & Hfix & Hres & -> & _)].
  - exists fields. split; [exact Hw|]. intros d _.
    destruct Hfail as [Hfail|(pkg0 & Hp & Hnone)].
    + unfold read_failure in Hfail. by rewrite Hw in Hfail.
    + rewrite Hw in Hp. injection Hp as <-. by rewrite Hnone.
  - rewrite Hw in Hp. injection Hp as <-.
    destruct (restore_after_fix _ newVersion _ _ Hfix) as (fields2 & Hres2 & Hsec).
    rewrite Hres in Hres2. injection Hres2 as ->.
    exists fields2. split; [apply store_written|]. by rewrite Hfix.
Qed.

Lemma C1_ranges_after_attempt_witness :
  exists fields',
    store (snd (publish_steps (sample_env false) (ask_selectedPackage (sample_env false))
                  (txt "1.0.1") (txt "latest") ∅ (World sample_files [])))
      !! txt "server" = Some (Manifest (JObj fields'))
    /\ forall depType, In depType depTypes ->
         get_field depType fields'
         = match fix_manifest ∅ sample_manifest with
           | Some _ =>
               restored (get_field depType
                           match sample_manifest with JObj f => f | _ => [] end)
           | None =>
               get_field depType
                 match sample_manifest with JObj f => f | _ => [] end
           end.
Proof.
  apply (C1_ranges_after_attempt (sample_env false)
           (ask_selectedPackage (sample_env false)) (txt "1.0.1") (txt "latest")
           ∅ (World sample_files [])).
  reflexivity.
Defined.



End ManifestClaims.


(* ===================================================================== *)
(** * publish-packages.js: the traces of the steps *)
(* ===================================================================== *)

Module TraceStepFacts.
Import JS JSFacts Eff EffFacts TraceFacts Publish StepFacts RunFacts
  ManifestFacts AttemptFacts.

Lemma Forall_In {A} (P : A -> Prop) l x : Forall P l -> In x l -> P x.
Proof.
  induction 1 as [|y l Hy _ IH]; [intros []|]. intros [<-|?]; auto.
Qed.

Lemma not_release_failed_nil : ~ release_failed [].
Proof. by intros (c & d & _ & []). Qed.

Lemma release_failed_app evs1 evs2 :
  release_failed (evs1 ++ evs2) -> release_failed evs1 \/ release_failed evs2.
Proof.
  intros (c & d & Hc & Hin). apply in_app_or in Hin as [Hin|Hin];
    [left|right]; by exists c, d.
Qed.

Lemma steps_present_app (E : env) evs1 evs2 :
  steps_present E evs1 -> steps_present E evs2 -> steps_present E (evs1 ++ evs2).
Proof.
  intros H1 H2 p tag Hin. apply in_app_or in Hin as [Hin|Hin].
  - destruct (H1 p tag Hin) as (Hf & [v Hu] & Hb & Hr).
    repeat split; try (apply in_or_app; left; done).
    + exists v. apply in_or_app. by left.
    + intros Hnb. apply in_or_app. left. auto.
  - destruct (H2 p tag Hin) as (Hf & [v Hu] & Hb & Hr).
    repeat split; try (apply in_or_app; right; done).
    + exists v. apply in_or_app. by right.
    + intros Hnb. apply in_or_app. right. auto.
Qed.

Lemma sequential_sound (E : env) : sequential (sound E).
Proof.
  split.
  - split; [intros H; by destruct not_release_failed_nil|by intros p tag []].
  - intros evs1 k evs2 [Hf1 Hp1] [Hf2 Hp2]. split.
    + intros H. apply release_failed_app in H as [H|H]; [|auto].
      by specialize (Hf1 H).
    + by apply steps_present_app.
Qed.

Lemma neutral_plain e : neutral e -> plain e.
Proof. destruct e; simpl; try done. destruct succeeded; [done|]. by intros [|]. Qed.


Lemma plain_sound (E : env) k evs : Forall plain evs -> sound E k evs.
Proof.
  intros H. split.
  - intros (c & d & Hc & Hin). pose proof (Forall_In _ _ _ H Hin) as Hp.
    simpl in Hp. congruence.
  - intros p tag Hin. by destruct (Forall_In _ _ _ H Hin).
Qed.

Lemma neutral_sound (E : env) k evs : Forall neutral evs -> sound E k evs.
Proof.
  intros H. apply plain_sound. eapply Forall_impl; [exact H|].
  apply neutral_plain.
Qed.



(** ** Silent computations *)

Lemma silent_sound {A : Type} (E : env) (m : M A) : silent m -> keeps m (sound E).
Proof.
  intros H. eapply emits_conseq; [exact H|]. simpl.
  intros o evs [Hn _]. by apply neutral_sound.
Qed.


Lemma npm_view_not_release n v : builds_or_publishes (npm_view n v) = false.
Proof. reflexivity. Qed.

Lemma probes_neutral n evs : Forall (is_probe n) evs -> Forall neutral evs.
Proof.
  intros H. eapply Forall_impl; [exact H|]. simpl.
  intros e (v & found & ->). simpl. right. apply npm_view_not_release.
Qed.

(** Events that are visibly neutral. *)
Ltac neutral_events :=
  cbn [app];
  repeat (apply List.Forall_cons;
          [first [exact I | left; reflexivity | right; reflexivity]|]);
  apply List.Forall_nil.

Section WithEnv.
Variable E : env.

Lemma checkEnvironment_silent : silent (checkEnvironment E).
Proof.
  intros w. unfold checkEnvironment.
  unfold mbind, M_bind, bind, try_catch, mret, M_ret, ret, throw.
  rewrite execSync_run.
  destruct (sh E w _ _).
  - cbn [negb]. rewrite execSync_run. destruct (sh E _ _ _).
    + eexists _, _, _. rewrite after_after. split; [reflexivity|].
      split; [|done]. neutral_events.
    + rewrite emit_run. eexists _, _, _. rewrite !after_after.
      split; [reflexivity|]. split; [|done].
      neutral_events.
  - rewrite emit_run. eexists _, _, _. rewrite !after_after.
    split; [reflexivity|]. split; [|done]. neutral_events.
Qed.

Lemma createGitHubRelease_silent tagName notes :
  silent (createGitHubRelease E tagName notes).
Proof.
  intros w. unfold createGitHubRelease.
  unfold mbind, M_bind, bind, try_catch, mret, M_ret, ret, throw.
  rewrite emit_run, execSync_run. destruct (sh E _ _ _).
  - eexists _, _, _. rewrite !after_after. split; [reflexivity|].
    split; [|done]. neutral_events.
  - rewrite emit_run. eexists _, _, _. rewrite !after_after.
    split; [reflexivity|]. split; [|done]. neutral_events.
Qed.

Lemma skip_missing_silent pkg : silent (skip_missing pkg).
Proof.
  intros w. unfold skip_missing. rewrite emit_run.
  eexists _, _, _. split; [reflexivity|]. split; [|done].
  neutral_events.
Qed.

End WithEnv.

End TraceStepFacts.


(* ===================================================================== *)
(** * publish-packages.js: the order of the steps *)
(* ===================================================================== *)

Module OrderFacts.
Import JS JSFacts Eff EffFacts TraceFacts Publish StepFacts RunFacts
  ManifestFacts AttemptFacts TraceStepFacts.

(** ** Shapes of ranks *)













(** ** Composing shapes *)

Section Ranked.
Variable pkg : package.






End Ranked.

End OrderFacts.


(* ===================================================================== *)
(** * publish-packages.js: what every run keeps *)
(* ===================================================================== *)

Module FlowFacts.
Import JS JSFacts Eff EffFacts TraceFacts Publish StepFacts RunFacts
  ManifestFacts AttemptFacts TraceStepFacts OrderFacts.

Section WithEnv.
Variable E : env.

(** ** The steps keep the two properties *)

Lemma getCurrentVersion_sound p : keeps (getCurrentVersion p) (sound E).
Proof.
  intros w. rewrite getCurrentVersion_run. eexists _, _, _.
  split; [reflexivity|]. apply plain_sound. by repeat constructor.
Qed.

Lemma gather_versions_sound l : forall pv, keeps (gather_versions l pv) (sound E).
Proof.
  induction l as [|q l IH]; intros pv; simpl.
  - apply (keeps_ret pv), sequential_sound.
  - apply keeps_bind; [apply sequential_sound|apply getCurrentVersion_sound|].
    intros v. apply IH.
Qed.

(** The events of [getNextAvailableVersion]: its own, then neutral ones. *)
Lemma getNextAvailableVersion_events n cur type :
  emits (getNextAvailableVersion E n cur type)
    (fun o evs =>
       (forall c, o <> Exit c)
       /\ exists rest, evs = GetNextAvailableVersion n type :: rest
                       /\ Forall neutral rest).
Proof.
  intros w.
  assert (Forall neutral [could_not_check n]) as Hc by neutral_events.
  destruct cur as [|[| | |v| |]];
    try (rewrite getNextAvailableVersion_not_string by done;
         eexists _, _, _; split; [reflexivity|]; split; [done|]; eauto).
  destruct (getNextAvailableVersion_run E n v type w)
    as (next & probes & tail & -> & Hp & _ & Ht).
  eexists _, _, _. split; [reflexivity|]. split; [done|].
  eexists. split; [reflexivity|]. apply Forall_app. split.
  - by apply (probes_neutral n).
  - by destruct Ht as [->| ->].
Qed.

Lemma getNextAvailableVersion_sound n cur type :
  keeps (getNextAvailableVersion E n cur type) (sound E).
Proof.
  eapply emits_conseq; [apply getNextAvailableVersion_events|]. simpl.
  intros o evs (_ & rest & -> & Hn). apply plain_sound.
  constructor; [done|]. eapply Forall_impl; [exact Hn|apply neutral_plain].
Qed.

(** ** A publication attempt *)

Lemma publish_steps_events q v tag pv :
  emits (publish_steps E q v tag pv)
    (fun o evs =>
       (exists e, o = Throw e /\ evs = [FixWorkspaceDependencies (path q)])
       \/ exists mid,
            evs = [FixWorkspaceDependencies (path q); UpdateVersion (path q) v]
                    ++ mid ++ [RestoreWorkspaceDependencies (path q)]
            /\ middle E (path q) (name q) tag o mid).
Proof.
  intros w.
  destruct (publish_steps_run E q v tag pv w)
    as [(e & -> & _)|(pkg0 & pkg1 & pkg3 & o & mid & _ & _ & _ & -> & Hmid)].
  - eexists _, _, _. split; [reflexivity|]. left. eauto.
  - eexists _, _, _. split; [reflexivity|]. right. eauto.
Qed.

Ltac in_events := cbn [app In]; repeat first [left; reflexivity | right].

Lemma attempt_sound p n v tag o mid :
  middle E p n tag o mid ->
  sound E (ending_of o)
    ([FixWorkspaceDependencies p; UpdateVersion p v] ++ mid
       ++ [RestoreWorkspaceDependencies p]).
Proof.
  intros Hmid. split.
  - destruct Hmid as [bev Hb|command Hnb Hc|bev Hb]; [|done..].
    intros (c & d & _ & Hin). exfalso.
    destruct Hb as [[_ ->]|[_ [[_ ->]|(command & _ & ->)]]];
      cbn [app In] in Hin;
      repeat (destruct Hin as [Hin|Hin]; [discriminate Hin|]); done.
  - intros p' tag' Hin.
    assert (p' = p /\ exists bev, built E p bev
              /\ (forall x, In x bev -> In x mid)) as (-> & bev & Hb & Hsub).
    { destruct Hmid as [bev Hb|command Hnb Hc|bev Hb].
      - split; [|exists bev; split; [done|intros x Hx; apply in_or_app; by left]].
        destruct Hb as [[_ ->]|[_ [[_ ->]|(command & _ & ->)]]];
          cbn [app In] in Hin;
          repeat (destruct Hin as [Hin|Hin]; [by simplify_eq|]); done.
      - cbn [app In] in Hin.
        repeat (destruct Hin as [Hin|Hin]; [by simplify_eq|]). done.
      - split; [|exists bev; split; [done|intros x Hx; apply in_or_app; by left]].
        destruct Hb as [[_ ->]|[_ [[_ ->]|(command & _ & ->)]]];
          cbn [app In] in Hin;
          repeat (destruct Hin as [Hin|Hin]; [by simplify_eq|]); done. }
    split; [in_events|]. split; [exists v; in_events|]. split.
    + intros Hnb. apply in_or_app. right. apply in_or_app. left. apply Hsub.
      destruct Hb as [[Hnb' ->]|[_ [[_ ->]|(command & _ & ->)]]];
        [congruence|in_events..].
    + apply in_or_app. right. apply in_or_app. right. in_events.
Qed.

Lemma publish_steps_sound q v tag pv :
  keeps (publish_steps E q v tag pv) (sound E).
Proof.
  eapply emits_conseq; [apply publish_steps_events|]. simpl.
  intros o evs [(e & -> & ->)|(mid & -> & Hmid)].
  - apply plain_sound. by repeat constructor.
  - by eapply attempt_sound.
Qed.

Lemma buildPackage_events p n :
  emits (buildPackage E p n)
    (fun o evs =>
       (o = Ret tt /\ exists rest, evs = BuildPackage p :: rest /\ Forall neutral rest)
       \/ (exists command, o = Throw (CommandFailed command)
                           /\ evs = [BuildPackage p; ExecSync command p false;
                                     Log (txt "Failed to build " ++ n)])).
Proof.
  intros w. rewrite buildPackage_run. cbv zeta.
  destruct (build_command p) as [command|].
  - destruct (sh E _ _ _).
    + eexists _, _, _. rewrite after_after. split; [reflexivity|].
      left. split; [done|]. eexists. split; [reflexivity|]. neutral_events.
    + eexists _, _, _. rewrite after_after. split; [reflexivity|]. eauto.
  - eexists _, _, _. split; [reflexivity|].
    left. split; [done|]. eexists. split; [reflexivity|]. neutral_events.
Qed.

Lemma buildPackage_sound p n : keeps (buildPackage E p n) (sound E).
Proof.
  eapply emits_conseq; [apply buildPackage_events|]. simpl.
  intros o evs [(-> & rest & -> & Hn)|(command & -> & ->)].
  - apply plain_sound. constructor; [done|].
    eapply Forall_impl; [exact Hn|apply neutral_plain].
  - split; [done|]. intros p' tag' Hin. cbn [In] in Hin.
    repeat (destruct Hin as [Hin|Hin]; [by simplify_eq|]). done.
Qed.

(** ** The branches of [main] keep [sound] *)

Lemma log_silent (msg : text) : silent (emit (Log msg) : M unit).
Proof.
  intros w. rewrite emit_run. eexists _, _, _. split; [reflexivity|].
  split; [neutral_events|done].
Qed.

Lemma ret_sound {A : Type} (a : A) : keeps (mret a : M A) (sound E).
Proof. apply keeps_ret, sequential_sound. Qed.

Ltac sound_bind :=
  apply keeps_bind; [apply sequential_sound|..].

Lemma build_all_sound : keeps (build_all E) (sound E).
Proof.
  apply keeps_for_each; [apply sequential_sound|]. intros q _.
  destruct (dir_exists E (path q)).
  - apply buildPackage_sound.
  - apply silent_sound, skip_missing_silent.
Qed.

Lemma choose_version_sound (custom : text) n cur type :
  keeps (if text_eqb type (txt "custom") then mret custom
         else getNextAvailableVersion E n cur type) (sound E).
Proof.
  destruct (text_eqb type _);
    [apply ret_sound|apply getNextAvailableVersion_sound].
Qed.

Lemma publish_one_sound : keeps (publish_one E) (sound E).
Proof.
  unfold publish_one. sound_bind; [apply getCurrentVersion_sound|].
  intros cur. sound_bind; [apply choose_version_sound|].
  intros v. sound_bind; [apply gather_versions_sound|].
  intros pv. apply publish_steps_sound.
Qed.

Lemma prerelease_loop_sound l tag type :
  forall pv, keeps (prerelease_loop E l tag type pv) (sound E).
Proof.
  induction l as [|q l IH]; intros pv; simpl; [apply ret_sound|].
  destruct (dir_exists E (path q)); simpl.
  - sound_bind; [apply getCurrentVersion_sound|].
    intros cur. sound_bind; [apply choose_version_sound|].
    intros v. sound_bind; [apply publish_steps_sound|]. intros _. apply IH.
  - sound_bind; [apply silent_sound, skip_missing_silent|]. intros _. apply IH.
Qed.

Lemma publish_prerelease_sound : keeps (publish_prerelease E) (sound E).
Proof.
  unfold publish_prerelease. sound_bind; [apply gather_versions_sound|].
  intros pv. apply prerelease_loop_sound.
Qed.

Lemma publish_all_loop_sound l base tag :
  forall pv, keeps (publish_all_loop E l base tag pv) (sound E).
Proof.
  induction l as [|q l IH]; intros pv; simpl; [apply ret_sound|].
  destruct (dir_exists E (path q)); simpl.
  - sound_bind; [apply publish_steps_sound|]. intros _. apply IH.
  - sound_bind; [apply silent_sound, skip_missing_silent|]. intros _. apply IH.
Qed.

Lemma branch_silent :
  silent (try_catch
            (branch ← execSync E (txt "git branch --show-current") [];
             mret (text_eqb (trim branch) (txt "master")
                   || text_eqb (trim branch) (txt "main")))
            (fun _ => emit (Log (txt "Unable to determine current branch"));;
                      mret false)).
Proof.
  intros w.
  unfold mbind, M_bind, bind, try_catch, mret, M_ret, ret, throw.
  rewrite execSync_run. destruct (sh E w _ _).
  - eexists _, _, _. split; [reflexivity|]. split; [neutral_events|done].
  - rewrite emit_run. rewrite after_after.
    eexists _, _, _. split; [reflexivity|]. split; [neutral_events|done].
Qed.

Lemma publish_all_sound : keeps (publish_all E) (sound E).
Proof.
  unfold publish_all. sound_bind; [apply silent_sound, branch_silent|].
  intros master. sound_bind; [apply gather_versions_sound|].
  intros pv. sound_bind.
  { destruct (text_eqb _ _); [apply ret_sound|].
    apply getNextAvailableVersion_sound. }
  intros base. destruct (ask_confirm E); cbn [negb].
  - sound_bind; [apply publish_all_loop_sound|]. intros pv'.
    destruct master; [|apply ret_sound].
    apply silent_sound, createGitHubRelease_silent.
  - apply silent_sound, log_silent.
Qed.

Lemma main_sound : keeps (main E) (sound E).
Proof.
  unfold main. sound_bind; [apply silent_sound, checkEnvironment_silent|].
  intros ok. destruct ok; cbn [negb].
  - sound_bind.
    { apply keeps_for_each; [apply sequential_sound|]. intros q _.
      sound_bind; [apply getCurrentVersion_sound|]. intros _. apply ret_sound. }
    intros _.
    repeat (destruct (text_eqb (ask_action E) _);
            [first [ apply silent_sound, log_silent | apply build_all_sound
                   | apply publish_one_sound | apply publish_prerelease_sound
                   | apply publish_all_sound ]|]).
    apply ret_sound.
  - apply emits_exit. apply plain_sound. constructor.
Qed.

(** ** The last statement of the script *)

Lemma script_outcome :
  emits (script E)
    (fun o evs =>
       steps_present E evs
       /\ (release_failed evs ->
           o = Exit 1
           /\ exists error, In (LogError (txt "Publishing failed:") error) evs)).
Proof.
  unfold script.
  eapply emits_try_catch with
    (Φ1 := fun o evs => sound E (ending_of o) evs)
    (Φ2 := fun e o evs =>
             o = Exit 1 /\ evs = [LogError (txt "Publishing failed:") e]).
  - apply main_sound.
  - intros e w.
    unfold mbind, M_bind, bind. rewrite emit_run.
    eexists _, _, _. split; [reflexivity|]. done.
  - intros e evs1 o evs2 [_ Hp] [-> ->]. split.
    + apply steps_present_app; [done|]. by intros p tag [|[]].
    + intros _. split; [done|]. exists e. apply in_or_app. right. by left.
  - intros a evs [Hf Hp]. split; [done|]. intros H. by specialize (Hf H).
  - intros c evs [Hf Hp]. split; [done|]. intros H. by specialize (Hf H).
Qed.

End WithEnv.
End FlowFacts.


(* ===================================================================== *)
(** * publish-packages.js: the ranks of the steps of a package *)
(* ===================================================================== *)

Module RankFacts.
Import JS JSFacts Eff EffFacts TraceFacts Publish StepFacts RunFacts
  ManifestFacts AttemptFacts TraceStepFacts OrderFacts FlowFacts.

Section WithEnv.
Variable E : env.
Variable pkg : package.

(** ** The ranks of the steps *)















(** ** Loops over the packages *)














(** ** The packages of the repository *)



(** ** The branches of [main], in the ranks of one package *)







End WithEnv.
End RankFacts.

(* ===================================================================== *)
(** * The runs of the scripts *)
(* ===================================================================== *)

Module FlowClaims.
Import JS JSFacts Eff EffFacts TraceFacts Publish StepFacts RunFacts
  ManifestFacts AttemptFacts TraceStepFacts OrderFacts FlowFacts RankFacts.

(** C9.  [getCurrentVersion] never throws.  When the manifest of the
    package is missing or is not JSON it returns the string [unknown];
    when the manifest is an object it returns its [version] property
    (undefined if there is none). *)
Theorem C9_getCurrentVersion (packagePath : text) (w : world) :
  exists v,
    getCurrentVersion packagePath w = (Ret v, w ⊕ [GetCurrentVersion packagePath])
    /\ (store w !! packagePath = None \/ store w !! packagePath = Some NotJson ->
        v = Val (JStr (txt "unknown")))
    /\ (forall fields,
          store w !! packagePath = Some (Manifest (JObj fields)) ->
          v = get_field (txt "version") fields).
Proof.
  exists (current_version (store w) packagePath).
  split; [apply getCurrentVersion_run|]. unfold current_version. split.
  - by intros [-> | ->].
  - by intros fields ->.
Qed.

Lemma C9_getCurrentVersion_witness :
  fst (getCurrentVersion (txt "server") (World sample_files []))
  = Ret (Val (JStr (txt "1.0.0")))
  /\ fst (getCurrentVersion (txt "client") (World sample_files []))
     = Ret (Val (JStr (txt "unknown"))).
Proof.
  split.
  - destruct (C9_getCurrentVersion (txt "server") (World sample_files []))
      as (v & -> & _ & Hv).
    cbn [fst]. f_equal. apply (Hv _ eq_refl).
  - destruct (C9_getCurrentVersion (txt "client") (World sample_files []))
      as (v & -> & Hv & _).
    cbn [fst]. f_equal. apply Hv. left. reflexivity.
Defined.

(** C2.  [getNextAvailableVersion] on a version string returns a version
    after at most 100 probes of the registry.  When every probe finds its
    candidate on the registry, it makes exactly 100 probes, logs that the
    registry could not be checked, and returns the candidate it tried
    first: the error thrown at the ceiling is caught by the function
    itself. *)
Theorem C2_attempt_ceiling (E : env) (packageName v versionType : text)
    (w : world) :
  (exists next probes tail,
     getNextAvailableVersion E packageName (Val (JStr v)) versionType w
     = (Ret next,
        w ⊕ (GetNextAvailableVersion packageName versionType :: probes ++ tail))
     /\ Forall (is_probe packageName) probes
     /\ (length probes <= 100)%nat
     /\ (tail = [] \/ tail = [could_not_check packageName]))
  /\ ((forall w' version, sh E w' (npm_view packageName version) [] <> None) ->
      exists probes,
        getNextAvailableVersion E packageName (Val (JStr v)) versionType w
        = (Ret (incrementVersion v versionType),
           w ⊕ (GetNextAvailableVersion packageName versionType :: probes
                  ++ [could_not_check packageName]))
        /\ Forall (is_probe packageName) probes
        /\ length probes = 100%nat).
Proof.
  split.
  - apply getNextAvailableVersion_run.
  - apply getNextAvailableVersion_all_found.
Qed.

Lemma C2_attempt_ceiling_witness :
  exists probes,
    getNextAvailableVersion crowded_env (txt "@fecommunity/reactpress-config")
      (Val (JStr (txt "1.0.0"))) (txt "patch") (World sample_files [])
    = (Ret (txt "1.0.1"),
       World sample_files
         (GetNextAvailableVersion (txt "@fecommunity/reactpress-config")
            (txt "patch") :: probes
          ++ [could_not_check (txt "@fecommunity/reactpress-config")]))
    /\ Forall (is_probe (txt "@fecommunity/reactpress-config")) probes
    /\ length probes = 100%nat.
Proof.
  apply (proj2 (C2_attempt_ceiling crowded_env
                  (txt "@fecommunity/reactpress-config") (txt "1.0.0")
                  (txt "patch") (World sample_files []))).
  intros w' version. discriminate.
Defined.

(** C7.  The two code generators, when the OpenAPI input file is missing,
    print an error that names the file and exit with status 1.  In the
    publish script, a run in which a build or a publish subprocess failed
    prints the error [Publishing failed:] and exits with status 1. *)
Theorem C7_unrecoverable_errors_exit :
  (forall (St : Type) (input output : text) generate_and_organize
          (w : Eff.world St GenTypes.event),
     GenTypes.script input output false generate_and_organize w
     = (Exit 1,
        World (store w)
          (trace w ++ [GenTypes.ConsoleLog (txt "start");
                       GenTypes.ConsoleLog (txt "input: " ++ input);
                       GenTypes.ConsoleLog (txt "output: " ++ output);
                       GenTypes.ConsoleError (GenTypes.SwaggerFileMissing input)])))
  /\ (forall (St : Type) (input output : text) generate_and_organize cleanup
             (w : Eff.world St GenTypes.event),
        GenApi.main input output false generate_and_organize cleanup w
        = (Exit 1,
           World (store w)
             (trace w ++ [GenTypes.ConsoleLog (txt "start");
                          GenTypes.ConsoleLog (txt "input: " ++ input);
                          GenTypes.ConsoleLog (txt "output: " ++ output);
                          GenTypes.ConsoleError
                            (GenTypes.SwaggerFileMissing input)])))
  /\ (forall (E : env) (w : world) (evs : list event),
        trace (snd (script E w)) = trace w ++ evs ->
        release_failed evs ->
        fst (script E w) = Exit 1
        /\ exists error, In (LogError (txt "Publishing failed:") error) evs).
Proof.
  split; [|split].
  - intros St input output gen w.
    unfold GenTypes.script, GenTypes.generateApiTypes.
    unfold mbind, M_bind, bind, try_catch, emit, exit. cbn.
    by rewrite <- !app_assoc.
  - intros St input output gen cleanup w.
    unfold GenApi.main, GenApi.generateApiTypes.
    unfold mbind, M_bind, bind, try_catch, emit, exit. cbn.
    by rewrite <- !app_assoc.
  - intros E w evs Htr Hfail.
    destruct (script_outcome E w) as (o & st & evs' & Hrun & _ & Hout).
    rewrite Hrun in Htr |- *. cbn [fst snd trace] in *.
    apply app_inv_head in Htr as ->. by apply Hout.
Qed.

Lemma C7_unrecoverable_errors_exit_witness :
  let run := script failing_env (World sample_files []) in
  fst run = Exit 1
  /\ exists error, In (LogError (txt "Publishing failed:") error) (trace (snd run)).
Proof.
  apply (proj2 (proj2 C7_unrecoverable_errors_exit) failing_env
           (World sample_files [])); [reflexivity|].
  exists (publish_command (txt "latest")), (txt "server").
  split; [reflexivity|]. vm_compute.
  repeat first [left; reflexivity | right].
Defined.




End FlowClaims.

(* ===================================================================== *)
(** * Global replacement *)
(* ===================================================================== *)

Module SubstFacts.
Import JS JSFacts.

Lemma gsub_from_skip (m : matcher) s : forall k,
  (k <= length s)%nat -> gsub_from m k s = gsub_from m 0 (drop k s).
Proof.
  induction s as [|c s IH]; intros [|k] Hk; simpl in *; try done; [lia|].
  apply IH. lia.
Qed.

Lemma gsub_from_ext (m m' : matcher) :
  (forall t, m t = m' t) -> forall s k, gsub_from m k s = gsub_from m' k s.
Proof.
  intros Hext. induction s as [|c s IH]; intros [|k]; simpl; try done.
  - by rewrite Hext.
  - rewrite Hext. destruct (m' (c :: s)) as [[r [|n]]|]; by rewrite IH.
Qed.

Lemma gsub_ext (m m' : matcher) s :
  (forall t, m t = m' t) -> gsub m s = gsub m' s.
Proof. intros H. by apply gsub_from_ext. Qed.

(** A stretch where nothing matches is copied. *)
Lemma gsub_copy (m : matcher) pre rest :
  (forall a b, pre = a ++ b -> b <> [] -> m (b ++ rest) = None) ->
  gsub m (pre ++ rest) = pre ++ gsub m rest.
Proof.
  unfold gsub. induction pre as [|c pre IH]; intros Hnone; [done|].
  pose proof (Hnone [] (c :: pre) eq_refl) as H0. cbn [app] in *.
  cbn [gsub_from]. rewrite H0 by done. f_equal.
  apply IH. intros a b -> Hb. by apply (Hnone (c :: a) b).
Qed.

Lemma gsub_none (m : matcher) s :
  (forall a b, s = a ++ b -> m b = None) -> gsub m s = s.
Proof.
  intros Hnone. rewrite <- (app_nil_r s) at 1. rewrite gsub_copy.
  - unfold gsub. simpl. rewrite (Hnone s []) by by rewrite app_nil_r.
    by rewrite app_nil_r.
  - intros a b -> _. rewrite app_nil_r. by apply (Hnone a).
Qed.

(** At a match the replacement is written and the scan goes on after the
    match. *)
Lemma gsub_match (m : matcher) s r n :
  m s = Some (r, n) -> (0 < n <= length s)%nat ->
  gsub m s = r ++ gsub m (drop n s).
Proof.
  intros Hm Hn. unfold gsub. destruct s as [|c s]; simpl in Hn; [lia|].
  destruct n as [|n]; [lia|]. cbn [gsub_from]. rewrite Hm. f_equal.
  change (drop (S n) (c :: s)) with (drop n s). apply gsub_from_skip. lia.
Qed.

(** A replacement that writes the match back changes nothing. *)
Lemma gsub_from_fixed (m : matcher) s :
  (forall a b r n, s = a ++ b -> m b = Some (r, n) ->
     (0 < n <= length b)%nat /\ r = take n b) ->
  forall k, (k <= length s)%nat -> gsub_from m k s = drop k s.
Proof.
  induction s as [|c s IH]; intros Hfix k Hk.
  - destruct k; simpl in *; [|lia].
    destruct (m []) as [[r n]|] eqn:Hm; [|done].
    destruct (Hfix [] [] r n eq_refl Hm) as [Hn _]. simpl in Hn. lia.
  - assert (forall k, (k <= length s)%nat -> gsub_from m k s = drop k s) as IH'.
    { apply IH. intros a b r n -> Hm. by apply (Hfix (c :: a) b). }
    destruct k as [|k]; simpl in *; [|apply IH'; lia].
    destruct (m (c :: s)) as [[r n]|] eqn:Hm.
    + destruct (Hfix [] (c :: s) r n eq_refl Hm) as [Hn ->].
      destruct n as [|n]; [lia|]. simpl in *.
      rewrite IH' by lia. by rewrite take_drop.
    + f_equal. by apply (IH' 0%nat); lia.
Qed.

Lemma gsub_fixed (m : matcher) s :
  (forall a b r n, s = a ++ b -> m b = Some (r, n) ->
     (0 < n <= length b)%nat /\ r = take n b) ->
  gsub m s = s.
Proof. intros H. unfold gsub. rewrite gsub_from_fixed; [done|done|lia]. Qed.

End SubstFacts.

(* ===================================================================== *)
(** * The renaming of the methods *)
(* ===================================================================== *)

Module RenameFacts.
Import JS JSFacts SubstFacts GenTypes.









Lemma includes_prefix a b p : includes (a ++ b) p = false -> includes a p = false.
Proof.
  intros H. destruct (includes a p) eqn:Ha; [|done].
  apply includes_true in Ha as (x & y & ->).
  assert (includes ((x ++ p ++ y) ++ b) p = true) as H'; [|congruence].
  apply includes_true. exists x, (y ++ b). by rewrite <- !app_assoc.
Qed.








End RenameFacts.

(* ===================================================================== *)
(** * The import fixes, piece by piece *)
(* ===================================================================== *)

Module QuoteFacts.
Import JS JSFacts SubstFacts GenTypes Quotes.

(** ** Pieces *)

Lemma join_cons c c' cs : join (c :: c' :: cs) = c ++ quote :: join (c' :: cs).
Proof. reflexivity. Qed.

Lemma join_split_on s : join (split_on quote s) = s.
Proof.
  induction s as [|x s IH]; [done|]. cbn [split_on].
  pose proof (split_on_nonempty quote s) as Hne.
  destruct (Ascii.eqb_spec x quote) as [->|Hx].
  - destruct (split_on quote s) as [|h r]; [done|].
    rewrite join_cons. cbn [app]. by rewrite IH.
  - destruct (split_on quote s) as [|h r]; [done|].
    rewrite <- IH. by destruct r.
Qed.

Lemma split_on_quote_free s : Forall quote_free (split_on quote s).
Proof.
  induction s as [|x s IH]; cbn [split_on]; [by repeat constructor|].
  destruct (Ascii.eqb_spec x quote) as [->|Hx].
  - constructor; [constructor|done].
  - destruct (split_on quote s) as [|h r]; [by repeat constructor|].
    apply Forall_cons in IH as [Hh Hr]. constructor; [by constructor|done].
Qed.

Lemma quote_free_not_quote c :
  quote_free c -> Forall (fun x => not_quote x = true) c.
Proof.
  intros H. eapply Forall_impl; [exact H|]. simpl. intros x Hx.
  unfold not_quote. by destruct (Ascii.eqb_spec x "'").
Qed.

Lemma endsWith_true s p : endsWith s p = true <-> exists a, s = a ++ p.
Proof.
  unfold endsWith. rewrite startsWith_true. split.
  - intros [r Hr]. exists (rev r).
    rewrite <- (rev_involutive s), Hr, rev_app_distr. by rewrite rev_involutive.
  - intros [a ->]. exists (rev a). by rewrite rev_app_distr.
Qed.

(** ** Where a pattern can match *)

Lemma strip_from x tl u :
  quote_free x -> match tl with [] => True | y :: _ => y = quote end ->
  strip_prefix (txt "from '") (x ++ tl) = Some u ->
  x = txt "from " /\ tl = quote :: u.
Proof.
  intros Hx Htl Hs. apply strip_prefix_Some in Hs.
  cbn [app txt list_ascii_of_string] in Hs. symmetry in Hs.
  assert (forall y, tl = y :: u -> y = quote) as Hq.
  { intros y ->. done. }
  destruct x as [|x0 x]; cbn [app] in Hs.
  { destruct tl as [|y tl]; [done|]. by simplify_eq. }
  injection Hs as <- Hs. apply Forall_cons in Hx as [_ Hx].
  destruct x as [|x1 x]; cbn [app] in Hs.
  { destruct tl as [|y tl]; [done|]. by simplify_eq. }
  injection Hs as <- Hs. apply Forall_cons in Hx as [_ Hx].
  destruct x as [|x2 x]; cbn [app] in Hs.
  { destruct tl as [|y tl]; [done|]. by simplify_eq. }
  injection Hs as <- Hs. apply Forall_cons in Hx as [_ Hx].
  destruct x as [|x3 x]; cbn [app] in Hs.
  { destruct tl as [|y tl]; [done|]. by simplify_eq. }
  injection Hs as <- Hs. apply Forall_cons in Hx as [_ Hx].
  destruct x as [|x4 x]; cbn [app] in Hs.
  { destruct tl as [|y tl]; [done|]. by simplify_eq. }
  injection Hs as <- Hs. apply Forall_cons in Hx as [_ Hx].
  destruct x as [|x5 x]; cbn [app] in Hs.
  { by subst tl. }
  injection Hs as <- Hs. apply Forall_cons in Hx as [Hx5 _]. done.
Qed.

Lemma quoted_strip g s r n :
  quoted g s = Some (r, n) -> exists u, strip_prefix (txt "from '") s = Some u.
Proof.
  unfold quoted. destruct (strip_prefix (txt "from '") s) as [u|]; [eauto|done].
Qed.

Lemma quoted_piece g x tl r n :
  quote_free x -> match tl with [] => True | y :: _ => y = quote end ->
  quoted g (x ++ tl) = Some (r, n) ->
  x = txt "from " /\ exists tl', tl = quote :: tl'.
Proof.
  intros Hx Htl Hm. apply quoted_strip in Hm as [u Hs].
  destruct (strip_from x tl u Hx Htl Hs) as [-> ->]. eauto.
Qed.

Lemma quoted_here g c tail :
  quote_free c ->
  quoted g (txt "from '" ++ c ++ quote :: tail)
  = match g c tail with
    | Some c' => Some (txt "from '" ++ c' ++ [quote], 6 + length c + 1)%nat
    | None => None
    end.
Proof.
  intros Hc. unfold quoted. rewrite strip_prefix_app.
  rewrite (span_app not_quote c (quote :: tail));
    [done|by apply quote_free_not_quote|done].
Qed.

Lemma quoted_open g c : quote_free c -> quoted g (txt "from '" ++ c) = None.
Proof.
  intros Hc. unfold quoted. rewrite strip_prefix_app.
  rewrite <- (app_nil_r c) at 1.
  by rewrite (span_app not_quote c []); [|by apply quote_free_not_quote|].
Qed.

Lemma quoted_quote g rest : quoted g (quote :: rest) = None.
Proof. reflexivity. Qed.

(** ** The scan of one piece *)

Lemma gsub_piece_plain g c tl :
  quote_free c -> match tl with [] => True | y :: _ => y = quote end ->
  endsWith c (txt "from ") = false ->
  gsub (quoted g) (c ++ tl) = c ++ gsub (quoted g) tl.
Proof.
  intros Hc Htl Hends. apply gsub_copy. intros a b -> Hb.
  destruct (quoted g (b ++ tl)) as [[r n]|] eqn:Hm; [|done].
  apply Forall_app in Hc as [_ Hb'].
  destruct (quoted_piece g b tl r n Hb' Htl Hm) as [-> _].
  assert (endsWith (a ++ txt "from ") (txt "from ") = true) as H; [|congruence].
  apply endsWith_true. by exists a.
Qed.

Lemma gsub_piece_from g c tl :
  quote_free c -> match tl with [] => True | y :: _ => y = quote end ->
  gsub (quoted g) (c ++ txt "from " ++ tl)
  = c ++ gsub (quoted g) (txt "from " ++ tl).
Proof.
  intros Hc Htl. apply gsub_copy. intros a b -> Hb.
  destruct (quoted g (b ++ txt "from " ++ tl)) as [[r n]|] eqn:Hm; [|done].
  apply Forall_app in Hc as [_ Hb']. rewrite app_assoc in Hm.
  destruct (quoted_piece g (b ++ txt "from ") tl r n) as [Heq _]; [|done|done|].
  - apply Forall_app. split; [done|]. by repeat constructor.
  - apply (f_equal length) in Heq. rewrite length_app in Heq. simpl in Heq.
    destruct b; [done|simpl in Heq; lia].
Qed.

Lemma gsub_from_unmatched g tl :
  match tl with [] => True | y :: _ => y = quote end ->
  quoted g (txt "from " ++ tl) = None ->
  gsub (quoted g) (txt "from " ++ tl) = txt "from " ++ gsub (quoted g) tl.
Proof.
  intros Htl Hnone. apply gsub_copy. intros a b Heq Hb.
  destruct (quoted g (b ++ tl)) as [[r n]|] eqn:Hm; [|done].
  destruct (quoted_piece g b tl r n) as [-> _]; [|done|done|congruence].
  assert (quote_free (a ++ b)) as H by (rewrite <- Heq; by repeat constructor).
  by apply Forall_app in H as [_ ?].
Qed.

Lemma gsub_quote g rest :
  gsub (quoted g) (quote :: rest) = quote :: gsub (quoted g) rest.
Proof. reflexivity. Qed.

Lemma gsub_last_piece g c : quote_free c -> gsub (quoted g) c = c.
Proof.
  intros Hc. apply gsub_none. intros a b ->.
  destruct (quoted g b) as [[r n]|] eqn:Hm; [|done].
  apply Forall_app in Hc as [_ Hb]. rewrite <- (app_nil_r b) in Hm.
  by destruct (quoted_piece g b [] r n Hb I Hm) as [_ [tl' ?]].
Qed.

(** ** The replacement, piece by piece *)

Lemma pieces_map_cons f prev c rest :
  pieces_map f prev (c :: rest) = piece_step f prev c rest :: pieces_map f c rest.
Proof. reflexivity. Qed.

Lemma piece_step_plain f prev c rest :
  endsWith prev (txt "from ") = false -> piece_step f prev c rest = c.
Proof. intros H. unfold piece_step. rewrite H. by destruct rest. Qed.

(** A global replacement with a pattern of this kind rewrites the pieces
    one by one, as long as no piece that the pattern rewrites ends like
    the start of an import. *)
Lemma gsub_quoted g n : forall cs c0,
  (length cs <= n)%nat ->
  quote_free c0 -> Forall quote_free cs ->
  Forall (fun c => forall tail c', g c tail = Some c' ->
                     endsWith c (txt "from ") = false) cs ->
  gsub (quoted g) (join (c0 :: cs)) = join (c0 :: pieces_map (rewritten g) c0 cs).
Proof.
  induction n as [|n IH]; intros cs c0 Hlen Hc0 Hcs Hg.
  { destruct cs; [|simpl in Hlen; lia]. simpl. by apply gsub_last_piece. }
  destruct cs as [|c1 cs]; [simpl; by apply gsub_last_piece|].
  simpl in Hlen.
  apply Forall_cons in Hcs as [Hc1 Hcs]. apply Forall_cons in Hg as [Hg1 Hg].
  assert (gsub (quoted g) (join (c1 :: cs))
          = join (c1 :: pieces_map (rewritten g) c1 cs)) as IH1.
  { apply IH; [lia|done..]. }
  rewrite join_cons, pieces_map_cons, join_cons.
  destruct (endsWith c0 (txt "from ")) eqn:Hends.
  - apply endsWith_true in Hends as [c ->].
    apply Forall_app in Hc0 as [Hc _].
    rewrite <- app_assoc. rewrite gsub_piece_from by done.
    rewrite <- app_assoc. f_equal.
    destruct cs as [|c2 cs].
    + (* no quote closes the piece *)
      cbn [join pieces_map piece_step].
      rewrite gsub_from_unmatched; [|done|].
      * rewrite gsub_quote. by rewrite gsub_last_piece.
      * change (txt "from " ++ quote :: c1) with (txt "from '" ++ c1).
        by apply quoted_open.
    + rewrite join_cons. unfold piece_step, rewritten.
      assert (endsWith (c ++ txt "from ") (txt "from ") = true) as ->
        by (apply endsWith_true; by exists c).
      pose proof (quoted_here g c1 (join (c2 :: cs)) Hc1) as Hhere.
      destruct (g c1 (join (c2 :: cs))) as [c1'|] eqn:Hgc.
      * (* the piece is rewritten *)
        change (txt "from " ++ quote :: c1 ++ quote :: join (c2 :: cs))
          with (txt "from '" ++ c1 ++ quote :: join (c2 :: cs)).
        rewrite (gsub_match _ _ _ _ Hhere).
        2:{ cbn [txt list_ascii_of_string app length]. rewrite length_app.
            cbn [length]. lia. }
        replace (drop (6 + length c1 + 1)
                   (txt "from '" ++ c1 ++ quote :: join (c2 :: cs)))
          with (join (c2 :: cs)).
        2:{ replace (txt "from '" ++ c1 ++ quote :: join (c2 :: cs))
              with ((txt "from '" ++ c1 ++ [quote]) ++ join (c2 :: cs))
              by (by rewrite <- !app_assoc).
            rewrite drop_app_length'; [done|].
            rewrite !length_app. simpl. lia. }
        apply Forall_cons in Hcs as [Hc2 Hcs]. apply Forall_cons in Hg as [Hg2 Hg].
        rewrite (IH cs c2) by (done || simpl in Hlen; lia).
        rewrite pieces_map_cons.
        rewrite (piece_step_plain _ c1) by by eapply Hg1.
        rewrite <- !app_assoc. reflexivity.
      * (* the pattern does not match *)
        change (txt "from " ++ quote :: c1 ++ quote :: join (c2 :: cs))
          with (txt "from '" ++ c1 ++ quote :: join (c2 :: cs)) in *.
        change (txt "from '" ++ c1 ++ quote :: join (c2 :: cs))
          with (txt "from " ++ quote :: join (c1 :: c2 :: cs)) at 1.
        rewrite gsub_from_unmatched; [|done|exact Hhere].
        rewrite gsub_quote, IH1. reflexivity.
  - rewrite gsub_piece_plain by done. rewrite gsub_quote, IH1.
    by rewrite piece_step_plain.
Qed.

End QuoteFacts.

(* ===================================================================== *)
(** * The patterns of the import fixes *)
(* ===================================================================== *)

Module PatternFacts.
Import JS JSFacts SubstFacts GenTypes Quotes QuoteFacts.

Lemma strip_prefix_app_l a b s :
  strip_prefix (a ++ b) s
  = match strip_prefix a s with Some u => strip_prefix b u | None => None end.
Proof.
  revert s. induction a as [|x a IH]; intros s; [done|].
  destruct s as [|y s]; simpl; [done|]. destruct (Ascii.eqb x y); [apply IH|done].
Qed.

(** The first quote of a text cuts it in one way only. *)
Lemma first_quote_unique a : forall b x y,
  a ++ quote :: x = b ++ quote :: y -> quote_free a -> quote_free b ->
  a = b /\ x = y.
Proof.
  induction a as [|a0 a IH]; intros [|b0 b] x y Heq Ha Hb; simpl in Heq.
  - by simplify_eq.
  - simplify_eq. by apply Forall_cons in Hb as [? _].
  - simplify_eq. by apply Forall_cons in Ha as [? _].
  - simplify_eq. apply Forall_cons in Ha as [_ Ha]. apply Forall_cons in Hb as [_ Hb].
    by destruct (IH b x y) as [-> ->].
Qed.

Lemma not_quote_false y : not_quote y = false -> y = quote.
Proof. unfold not_quote. by destruct (Ascii.eqb_spec y "'"). Qed.

Lemma not_quote_free c : Forall (fun x => not_quote x = true) c -> quote_free c.
Proof.
  intros H. eapply Forall_impl; [exact H|]. simpl. by intros x Hx ->.
Qed.

(** A path and its closing quote at the head of a text. *)
Lemma strip_quoted p u :
  quote_free p ->
  strip_prefix (p ++ [quote]) u
  = match span not_quote u with
    | (c, _ :: tail) => if text_eqb c p then Some tail else None
    | (_, []) => None
    end.
Proof.
  intros Hp. destruct (span not_quote u) as [c rest] eqn:Hsp.
  apply span_spec in Hsp as (-> & Hc & Hrest). apply not_quote_free in Hc.
  destruct rest as [|y tail].
  - rewrite app_nil_r.
    destruct (strip_prefix (p ++ [quote]) c) as [r|] eqn:Hs; [|done].
    apply strip_prefix_Some in Hs as ->. rewrite <- app_assoc in Hc.
    apply Forall_app in Hc as [_ Hc]. by apply Forall_cons in Hc as [? _].
  - apply not_quote_false in Hrest as ->.
    destruct (text_eqb_spec c p) as [->|Hne].
    + replace (p ++ quote :: tail) with ((p ++ [quote]) ++ tail)
        by (by rewrite <- app_assoc).
      apply strip_prefix_app.
    + destruct (strip_prefix (p ++ [quote]) (c ++ quote :: tail)) as [r|] eqn:Hs;
        [|done].
      apply strip_prefix_Some in Hs. rewrite <- app_assoc in Hs.
      by destruct (first_quote_unique c p tail r Hs Hc Hp).
Qed.

(** A literal pattern of the kind, read by its piece. *)
Lemma literally_quoted p p' s :
  quote_free p ->
  literally (txt "from '" ++ p ++ [quote]) (txt "from '" ++ p' ++ [quote]) s
  = quoted (fun c _ => if text_eqb c p then Some p' else None) s.
Proof.
  intros Hp. unfold literally, quoted, startsWith.
  rewrite strip_prefix_app_l.
  destruct (strip_prefix (txt "from '") s) as [u|]; [|done].
  rewrite (strip_quoted p u Hp).
  destruct (span not_quote u) as [c [|y tail]]; [done|].
  destruct (text_eqb_spec c p) as [->|_]; [|done].
  do 2 f_equal. rewrite !length_app. simpl. lia.
Qed.

Lemma data_contracts_quoted s :
  literally (txt "from './data-contracts'") (txt "from '../types/data-contracts'") s
  = quoted data_contracts s.
Proof.
  apply (literally_quoted (txt "./data-contracts") (txt "../types/data-contracts")).
  by repeat constructor.
Qed.

Lemma http_client_quoted s :
  literally (txt "from './httpClient'") (txt "from './HttpClient'") s
  = quoted http_client s.
Proof.
  apply (literally_quoted (txt "./httpClient") (txt "./HttpClient")).
  by repeat constructor.
Qed.

Lemma span_cons_true f x s :
  f x = true -> span f (x :: s) = (x :: fst (span f s), snd (span f s)).
Proof. intros H. simpl. rewrite H. by destruct (span f s). Qed.

Lemma import_matcher_quoted s : import_matcher s = quoted relative_import s.
Proof.
  unfold import_matcher, quoted.
  change (txt "from './") with (txt "from '" ++ txt "./").
  rewrite strip_prefix_app_l.
  destruct (strip_prefix (txt "from '") s) as [u|]; [|done].
  destruct (strip_prefix (txt "./") u) as [t|] eqn:Hs.
  - apply strip_prefix_Some in Hs as ->.
    cbn [txt list_ascii_of_string app].
    rewrite !span_cons_true by done.
    destruct (span not_quote t) as [importPath rest]. cbn [fst snd].
    destruct importPath as [|x p]; destruct rest as [|y tail]; try done.
    unfold relative_import.
    change (strip_prefix (txt "./") ("."%char :: "/"%char :: x :: p))
      with (Some (x :: p)).
    cbv iota beta. cbn [txt list_ascii_of_string].
    destruct (includes (x :: p) _ || text_eqb (x :: p) _);
      do 2 f_equal; simpl; lia.
  - destruct (span not_quote u) as [c rest] eqn:Hsp.
    destruct rest as [|y tail]; [done|].
    unfold relative_import.
    destruct (strip_prefix (txt "./") c) as [[|x p]|] eqn:Hc; try done.
    apply strip_prefix_Some in Hc as ->.
    apply span_spec in Hsp as (-> & _). by rewrite <- app_assoc, strip_prefix_app in Hs.
Qed.

(** A pattern that also consumes, and writes back, one more character
    replaces as the pattern that only looks at it. *)
Lemma gsub_lookahead (m m' : matcher) e n : forall s,
  (length s <= n)%nat ->
  (forall t, m t = None -> m' t = None) ->
  (forall t r k, m t = Some (r, k) ->
     exists r0 k0 t', r = r0 ++ [e] /\ k = S k0 /\ (0 < k0)%nat
                      /\ m' t = Some (r0, k0) /\ drop k0 t = e :: t') ->
  (forall t', m' (e :: t') = None) ->
  gsub m s = gsub m' s.
Proof.
  induction n as [|n IH]; intros s Hlen H1 H2 H3.
  - destruct s; [|simpl in Hlen; lia]. unfold gsub. simpl.
    destruct (m []) as [[r k]|] eqn:Hm; [|by rewrite H1].
    destruct (H2 _ _ _ Hm) as (r0 & k0 & t' & _ & _ & _ & _ & Hd).
    by rewrite drop_nil in Hd.
  - destruct (m s) as [[r k]|] eqn:Hm.
    + destruct (H2 _ _ _ Hm) as (r0 & k0 & t' & -> & -> & Hk0 & Hm' & Hdrop).
      assert (S k0 <= length s)%nat as Hk.
      { apply (f_equal length) in Hdrop. rewrite length_drop in Hdrop.
        simpl in Hdrop. lia. }
      rewrite (gsub_match m s _ _ Hm) by lia.
      rewrite (gsub_match m' s _ _ Hm') by lia.
      rewrite Hdrop. change (gsub m' (e :: t')) with (gsub_from m' 0 (e :: t')).
      cbn [gsub_from]. rewrite H3. fold (gsub m' t').
      replace (drop (S k0) s) with t'.
      2:{ replace (S k0) with (k0 + 1)%nat by lia.
          rewrite <- drop_drop. by rewrite Hdrop. }
      rewrite <- app_assoc. cbn [app]. do 2 f_equal.
      apply IH; [|done..].
      apply (f_equal length) in Hdrop. rewrite length_drop in Hdrop.
      simpl in Hdrop. lia.
    + destruct s as [|c s]; unfold gsub; simpl; rewrite Hm, (H1 _ Hm); [done|].
      f_equal. apply (IH s); [simpl in Hlen; lia|done..].
Qed.

Lemma data_contracts_statement_quoted s :
  gsub (literally (txt "from './data-contracts';") (txt "from '../types';")) s
  = gsub (quoted data_contracts_statement) s.
Proof.
  apply (gsub_lookahead _ _ ";"%char (length s)); [done|..].
  - intros t Hm. unfold literally in Hm.
    destruct (startsWith t (txt "from './data-contracts';")) eqn:Hs; [done|].
    destruct (quoted data_contracts_statement t) as [[r k]|] eqn:Hq; [|done].
    exfalso. unfold quoted in Hq.
    destruct (strip_prefix (txt "from '") t) as [u|] eqn:Hu; [|done].
    apply strip_prefix_Some in Hu as ->.
    destruct (span not_quote u) as [c rest] eqn:Hsp.
    apply span_spec in Hsp as (-> & _ & Hrest).
    destruct rest as [|y tail]; [done|]. apply not_quote_false in Hrest as ->.
    unfold data_contracts_statement in Hq.
    destruct (text_eqb_spec c (txt "./data-contracts")) as [->|]; [|done].
    destruct (startsWith tail (txt ";")) eqn:Htail; [|done].
    apply startsWith_true in Htail as [r' ->].
    assert (startsWith (txt "from './data-contracts';" ++ r')
              (txt "from './data-contracts';") = true) as H
      by apply startsWith_app.
    cbn [txt list_ascii_of_string app] in *. unfold quote in Hs. congruence.
  - intros t r k Hm. unfold literally in Hm.
    destruct (startsWith t (txt "from './data-contracts';")) eqn:Hs; [|done].
    apply startsWith_true in Hs as [r' ->]. simplify_eq.
    exists (txt "from '../types'"), 23%nat, r'.
    split; [done|]. split; [done|]. split; [lia|]. split; [|done].
    change (txt "from './data-contracts';" ++ r')
      with (txt "from '" ++ txt "./data-contracts" ++ quote :: txt ";" ++ r').
    rewrite quoted_here by by repeat constructor.
    unfold data_contracts_statement. by rewrite startsWith_app.
  - done.
Qed.

Lemma http_client_statement_fixed s :
  gsub (literally (txt "from './HttpClient';") (txt "from './HttpClient';")) s = s.
Proof.
  apply gsub_fixed. intros a b r n _ Hm. unfold literally in Hm.
  destruct (startsWith b (txt "from './HttpClient';")) eqn:Hs; [|done].
  apply startsWith_true in Hs as [r' ->]. simplify_eq.
  split; [|done]. rewrite length_app. simpl. lia.
Qed.

End PatternFacts.

(* ===================================================================== *)
(** * The import fixes are idempotent on tidy contents *)
(* ===================================================================== *)

Module ImportFacts.
Import JS JSFacts SubstFacts GenTypes Quotes QuoteFacts PatternFacts.

(** ** Rewriting the pieces twice *)

Lemma pieces_map_Forall (P : text -> Prop) f :
  (forall c tail, P c -> P (f c tail)) ->
  forall cs prev, Forall P cs -> Forall P (pieces_map f prev cs).
Proof.
  intros Hf. induction cs as [|c cs IH]; intros prev Hcs; [done|].
  apply Forall_cons in Hcs as [Hc Hcs]. rewrite pieces_map_cons.
  constructor; [|by apply IH].
  unfold piece_step. destruct cs; [done|].
  destruct (endsWith prev _); [by apply Hf|done].
Qed.

Lemma piece_step_ends f prev c rest :
  (forall tail, endsWith (f c tail) (txt "from ") = endsWith c (txt "from ")) ->
  endsWith (piece_step f prev c rest) (txt "from ") = endsWith c (txt "from ").
Proof.
  intros Hf. unfold piece_step. destruct rest; [done|].
  destruct (endsWith prev _); [apply Hf|done].
Qed.

Lemma piece_step_cons f prev c c2 rest :
  piece_step f prev c (c2 :: rest)
  = if endsWith prev (txt "from ") then f c (join (c2 :: rest)) else c.
Proof. reflexivity. Qed.

Lemma pieces_map_compose f f' cs : forall prev prev',
  endsWith prev' (txt "from ") = endsWith prev (txt "from ") ->
  Forall (fun c => forall tail,
            endsWith (f c tail) (txt "from ") = endsWith c (txt "from ")) cs ->
  (forall c p l, f' c (join (pieces_map f p l)) = f' c (join l)) ->
  pieces_map f' prev' (pieces_map f prev cs)
  = pieces_map (fun c tail => f' (f c tail) tail) prev cs.
Proof.
  induction cs as [|c cs IH]; intros prev prev' Hprev Hends Hlook; [done|].
  apply Forall_cons in Hends as [Hc Hends].
  rewrite !pieces_map_cons. f_equal.
  - destruct cs as [|c2 cs]; [done|].
    destruct (pieces_map f c (c2 :: cs)) as [|y l] eqn:Hyl; [done|].
    rewrite !piece_step_cons, Hprev.
    destruct (endsWith prev _); [|done].
    rewrite <- Hyl. apply Hlook.
  - apply IH; [by apply piece_step_ends|done..].
Qed.

Lemma pieces_map_ext f f' cs : forall prev,
  (forall c tail, f c tail = f' c tail) ->
  pieces_map f prev cs = pieces_map f' prev cs.
Proof.
  induction cs as [|c cs IH]; intros prev Hext; [done|].
  rewrite !pieces_map_cons, IH by done. f_equal.
  unfold piece_step. destruct cs; [done|]. by rewrite Hext.
Qed.

(** ** What the fixes make of a piece *)

(** A character that the pattern does not hold stops the comparison. *)
Lemma startsWith_blocked p d : forall r a b,
  ~ In d p -> startsWith (r ++ d :: a) p = startsWith (r ++ d :: b) p.
Proof.
  unfold startsWith. induction p as [|x p IH]; intros r a b Hd; [done|].
  destruct r as [|y r]; simpl.
  - destruct (Ascii.eqb_spec x d) as [->|_]; [|done]. destruct Hd. by left.
  - destruct (Ascii.eqb x y); [|done]. apply IH. intros H. apply Hd. by right.
Qed.

Lemma endsWith_types p :
  endsWith (txt "../types/" ++ p) (txt "from ")
  = endsWith (txt "./" ++ p) (txt "from ").
Proof.
  unfold endsWith. rewrite !rev_app_distr.
  apply (startsWith_blocked _ "/"%char (rev p) (txt "sepyt/..") (txt ".")).
  simpl. intros H. repeat (destruct H as [H|H]; [discriminate H|]). done.
Qed.

Lemma fixed_piece_cases c tail : fixed_case c tail.
Proof.
  destruct (text_eqb c (txt "./data-contracts")) eqn:H1.
  { apply text_eqb_eq in H1 as ->. by apply fixed_data_contracts. }
  destruct (text_eqb c (txt "./httpClient")) eqn:H2.
  { apply text_eqb_eq in H2 as ->. by apply fixed_http_client. }
  assert (forall tail', fixed_piece c tail' = rewritten relative_import c tail')
    as Hrel.
  { intros tail'. unfold fixed_piece.
    unfold rewritten at 3. unfold data_contracts. rewrite H1.
    unfold rewritten at 2. unfold http_client. by rewrite H2. }
  destruct (strip_prefix (txt "./") c) as [[|x p]|] eqn:Hs.
  - apply fixed_same; [|intros tail'];
      rewrite Hrel; unfold rewritten, relative_import; by rewrite Hs.
  - destruct (includes (x :: p) (txt "contract") || text_eqb (x :: p) (txt "types"))
      eqn:Hd.
    + apply (fixed_types c tail (x :: p)); [by apply strip_prefix_Some in Hs|].
      rewrite Hrel. unfold rewritten, relative_import. by rewrite Hs, Hd.
    + apply strip_prefix_Some in Hs as Hc.
      apply fixed_same; [|intros tail'];
        rewrite Hrel; unfold rewritten, relative_import; by rewrite Hs, Hd.
  - apply fixed_same; [|intros tail'];
      rewrite Hrel; unfold rewritten, relative_import; by rewrite Hs.
Qed.

Lemma quote_free_types p :
  quote_free (txt "./" ++ p) -> quote_free (txt "../types/" ++ p).
Proof.
  intros H. apply Forall_app in H as [_ Hp].
  apply Forall_app. split; [by repeat constructor|done].
Qed.

Lemma fixed_piece_quote_free c tail :
  quote_free c -> quote_free (fixed_piece c tail).
Proof.
  intros Hc. destruct (fixed_piece_cases c tail) as [_ ->|_ ->|p -> ->| -> _].
  - by repeat constructor.
  - by repeat constructor.
  - by apply quote_free_types.
  - done.
Qed.

Lemma fixed_piece_tidy c tail :
  tidy_piece c = true -> tidy_piece (fixed_piece c tail) = true.
Proof.
  intros Hc. by destruct (fixed_piece_cases c tail) as [_ ->|_ ->|p -> ->| -> _].
Qed.

Lemma fixed_piece_ends c tail :
  endsWith (fixed_piece c tail) (txt "from ") = endsWith c (txt "from ").
Proof.
  destruct (fixed_piece_cases c tail) as [-> ->| -> ->|p -> ->| -> _]; try done.
  apply endsWith_types.
Qed.

Lemma fixed_piece_idempotent c tail :
  fixed_piece (fixed_piece c tail) tail = fixed_piece c tail.
Proof.
  destruct (fixed_piece_cases c tail) as [_ ->|_ ->|p _ ->|Hc _].
  - reflexivity.
  - reflexivity.
  - reflexivity.
  - by rewrite !Hc.
Qed.

(** The first two replacements alone. *)
Lemma rewritten_data_contracts c tail :
  rewritten data_contracts c tail = c
  \/ c = txt "./data-contracts"
     /\ rewritten data_contracts c tail = txt "../types/data-contracts".
Proof.
  unfold rewritten, data_contracts.
  destruct (text_eqb_spec c (txt "./data-contracts")); auto.
Qed.

Lemma rewritten_http_client c tail :
  rewritten http_client c tail = c
  \/ c = txt "./httpClient"
     /\ rewritten http_client c tail = txt "./HttpClient".
Proof.
  unfold rewritten, http_client.
  destruct (text_eqb_spec c (txt "./httpClient")); auto.
Qed.

Lemma relative_import_tidy c tail c' :
  relative_import c tail = Some c' -> tidy_piece c = true ->
  endsWith c (txt "from ") = false.
Proof.
  unfold relative_import, tidy_piece, startsWith.
  destruct (strip_prefix (txt "./") c) as [[|x p]|]; [done| |done].
  intros _. simpl. by destruct (endsWith c _).
Qed.

(** ** [fix_imports], piece by piece *)

Lemma fix_imports_pieces c0 cs :
  quote_free c0 -> Forall quote_free cs ->
  Forall (fun c => tidy_piece c = true) cs ->
  fix_imports (join (c0 :: cs)) = join (c0 :: pieces_map fixed_piece c0 cs).
Proof.
  intros Hc0 Hfree Htidy. unfold fix_imports. cbv zeta.
  rewrite (gsub_ext _ (quoted data_contracts) _ data_contracts_quoted).
  rewrite (gsub_quoted data_contracts (length cs)); [|done..|].
  2:{ apply Forall_forall. intros c _ tail c'. unfold data_contracts.
      by destruct (text_eqb_spec c (txt "./data-contracts")) as [->|]. }
  set (l1 := pieces_map (rewritten data_contracts) c0 cs).
  assert (Forall quote_free l1) as Hfree1.
  { apply pieces_map_Forall; [|done]. intros c tail Hc.
    destruct (rewritten_data_contracts c tail) as [->|[_ ->]];
      [done|by repeat constructor]. }
  assert (Forall (fun c => tidy_piece c = true) l1) as Htidy1.
  { apply pieces_map_Forall; [|done]. intros c tail Hc.
    by destruct (rewritten_data_contracts c tail) as [->|[_ ->]]. }
  rewrite (gsub_ext _ (quoted http_client) _ http_client_quoted).
  rewrite (gsub_quoted http_client (length l1)); [|done..|].
  2:{ apply Forall_forall. intros c _ tail c'. unfold http_client.
      by destruct (text_eqb_spec c (txt "./httpClient")) as [->|]. }
  set (l2 := pieces_map (rewritten http_client) c0 l1).
  assert (Forall quote_free l2) as Hfree2.
  { apply pieces_map_Forall; [|done]. intros c tail Hc.
    destruct (rewritten_http_client c tail) as [->|[_ ->]];
      [done|by repeat constructor]. }
  assert (Forall (fun c => tidy_piece c = true) l2) as Htidy2.
  { apply pieces_map_Forall; [|done]. intros c tail Hc.
    by destruct (rewritten_http_client c tail) as [->|[_ ->]]. }
  rewrite (gsub_ext _ (quoted relative_import) _ import_matcher_quoted).
  rewrite (gsub_quoted relative_import (length l2)); [|done..|].
  2:{ eapply Forall_impl; [exact Htidy2|]. simpl. intros c Hc tail c' Hrel.
      by eapply relative_import_tidy. }
  do 2 f_equal. subst l2 l1.
  rewrite pieces_map_compose; [|done| |done].
  2:{ apply Forall_forall. intros c _ tail.
      by destruct (rewritten_http_client c tail) as [->|[-> ->]]. }
  rewrite pieces_map_compose; [|done| |done].
  2:{ apply Forall_forall. intros c _ tail.
      by destruct (rewritten_data_contracts c tail) as [->|[-> ->]]. }
  reflexivity.
Qed.

Lemma fix_imports_idempotent content :
  tidy content = true -> fix_imports (fix_imports content) = fix_imports content.
Proof.
  unfold tidy. intros Htidy. apply forallb_Forall in Htidy.
  pose proof (split_on_quote_free content) as Hfree.
  rewrite <- (join_split_on content).
  destruct (split_on quote content) as [|c0 cs].
  { reflexivity. }
  apply Forall_cons in Hfree as [Hc0 Hfree].
  apply Forall_cons in Htidy as [_ Htidy].
  rewrite (fix_imports_pieces c0 cs) by done.
  rewrite fix_imports_pieces.
  - do 2 f_equal.
    rewrite pieces_map_compose; [|done| |].
    + apply pieces_map_ext. intros c tail. apply fixed_piece_idempotent.
    + apply Forall_forall. intros c _ tail. apply fixed_piece_ends.
    + intros c p l. destruct (fixed_piece_cases c (join l)) as [-> _| -> _|q -> _|_ H].
      * reflexivity.
      * reflexivity.
      * reflexivity.
      * by rewrite !H.
  - done.
  - apply pieces_map_Forall; [|done]. intros c tail. apply fixed_piece_quote_free.
  - apply pieces_map_Forall; [|done]. intros c tail. apply fixed_piece_tidy.
Qed.

Lemma fixApiImports_idempotent (api : gmap text text) :
  (forall file content, api !! file = Some content -> tidy content = true) ->
  fixApiImports (fixApiImports api) = fixApiImports api.
Proof.
  intros Htidy. apply map_eq. intros file. unfold fixApiImports.
  rewrite !map_lookup_imap.
  destruct (api !! file) as [content|] eqn:Hfile; [|done].
  cbn [mbind option_bind]. f_equal.
  destruct (endsWith file (txt ".ts") && negb (text_eqb file (txt "index.ts")));
    [|done].
  apply fix_imports_idempotent. by eapply Htidy.
Qed.

(** ** [update_imports], piece by piece *)

Lemma rewritten_statement c tail :
  rewritten data_contracts_statement c tail = c
  \/ c = txt "./data-contracts"
     /\ rewritten data_contracts_statement c tail = txt "../types".
Proof.
  unfold rewritten, data_contracts_statement.
  destruct (text_eqb_spec c (txt "./data-contracts")); [|by left].
  destruct (startsWith tail (txt ";")); auto.
Qed.

Lemma startsWith_join c cs :
  startsWith (join (c :: cs)) (txt ";") = startsWith c (txt ";").
Proof.
  destruct cs; [done|]. rewrite join_cons.
  destruct c as [|a c]; [reflexivity|].
  unfold startsWith. cbn [txt list_ascii_of_string app strip_prefix].
  by destruct (Ascii.eqb ";" a).
Qed.

Lemma statement_tail c t t' :
  startsWith t (txt ";") = startsWith t' (txt ";") ->
  rewritten data_contracts_statement c t = rewritten data_contracts_statement c t'.
Proof. unfold rewritten, data_contracts_statement. by intros ->. Qed.

Lemma statement_lookahead c p l :
  rewritten data_contracts_statement c
    (join (pieces_map (rewritten data_contracts_statement) p l))
  = rewritten data_contracts_statement c (join l).
Proof.
  apply statement_tail. destruct l as [|c2 l]; [done|].
  rewrite pieces_map_cons, !startsWith_join.
  unfold piece_step. destruct l as [|c3 l]; [done|].
  destruct (endsWith p _); [|done].
  by destruct (rewritten_statement c2 (join (c3 :: l))) as [->|[-> ->]].
Qed.

Lemma update_imports_pieces c0 cs :
  quote_free c0 -> Forall quote_free cs ->
  GenApi.update_imports (join (c0 :: cs))
  = join (c0 :: pieces_map (rewritten data_contracts_statement) c0 cs).
Proof.
  intros Hc0 Hfree. unfold GenApi.update_imports.
  rewrite http_client_statement_fixed, data_contracts_statement_quoted.
  apply (gsub_quoted _ (length cs)); [done..|].
  apply Forall_forall. intros c _ tail c'. unfold data_contracts_statement.
  by destruct (text_eqb_spec c (txt "./data-contracts")) as [->|].
Qed.

Lemma update_imports_idempotent content :
  GenApi.update_imports (GenApi.update_imports content)
  = GenApi.update_imports content.
Proof.
  pose proof (split_on_quote_free content) as Hfree.
  rewrite <- (join_split_on content).
  destruct (split_on quote content) as [|c0 cs]; [reflexivity|].
  apply Forall_cons in Hfree as [Hc0 Hfree].
  rewrite (update_imports_pieces c0 cs) by done.
  rewrite update_imports_pieces.
  - do 2 f_equal.
    rewrite pieces_map_compose; [|done| |].
    + apply pieces_map_ext. intros c tail.
      destruct (rewritten_statement c tail) as [Hc|[-> ->]]; [by rewrite !Hc|].
      reflexivity.
    + apply Forall_forall. intros c _ tail.
      by destruct (rewritten_statement c tail) as [->|[-> ->]].
    + apply statement_lookahead.
  - done.
  - apply pieces_map_Forall; [|done]. intros c tail Hc.
    destruct (rewritten_statement c tail) as [->|[_ ->]];
      [done|by repeat constructor].
Qed.

End ImportFacts.

(* ===================================================================== *)
(** * The substitutions of the code generators *)
(* ===================================================================== *)

Module MethodNameFacts.
Import JS JSFacts SubstFacts RenameFacts.



End MethodNameFacts.

Module TextClaims.
Import JS JSFacts SubstFacts GenTypes Quotes QuoteFacts PatternFacts ImportFacts
  RenameFacts MethodNameFacts.

(** C3 (the rewriting that is not idempotent).  On a content where one
    import path runs into the next import, the first application rewrites
    the first path and the second application rewrites the second. *)
Lemma C3_nested_import_rewritten_again :
  fix_imports (txt "from './contract from './types'")
  = txt "from '../types/contract from './types'"
  /\ fix_imports (fix_imports (txt "from './contract from './types'"))
     = txt "from '../types/contract from '../types/types'".
Proof. split; vm_compute; reflexivity. Qed.

(** C3 (amended).  [fixApiImports] is idempotent on tidy contents, those
    where no stretch between two quotes starts with [./] and ends with
    [from] and a blank: applying the three replacements twice gives what
    applying them once gives, for one content and for the whole [api]
    directory.  The two replacements of [organizeGeneratedFiles] are
    idempotent on every content. *)
Theorem C3_import_fix_idempotent :
  (forall content,
     tidy content = true ->
     fix_imports (fix_imports content) = fix_imports content)
  /\ (forall api : gmap text text,
        (forall file content, api !! file = Some content -> tidy content = true) ->
        fixApiImports (fixApiImports api) = fixApiImports api)
  /\ (forall content,
        GenApi.update_imports (GenApi.update_imports content)
        = GenApi.update_imports content).
Proof.
  split; [|split].
  - apply fix_imports_idempotent.
  - apply fixApiImports_idempotent.
  - apply update_imports_idempotent.
Qed.

Lemma C3_import_fix_idempotent_witness :
  let content :=
    txt "import { A } from './data-contracts'; import x from './types';" in
  fix_imports content
  = txt "import { A } from '../types/data-contracts'; import x from '../types/types';"
  /\ fix_imports (fix_imports content) = fix_imports content.
Proof.
  split; [reflexivity|].
  apply (proj1 C3_import_fix_idempotent). reflexivity.
Defined.




End TextClaims.


(* ===================================================================== *)
(** * publish-packages.js: more on versions *)
(* ===================================================================== *)

Module VersionExtras.
Import JS JSFacts Publish VersionFacts.









End VersionExtras.


(* ===================================================================== *)
(** * publish-packages.js: more on the steps *)
(* ===================================================================== *)

Module StepExtras.
Import JS JSFacts Eff EffFacts Publish StepFacts RunFacts ManifestFacts
  AttemptFacts Release.

(** ** Writing and reading the version *)



(** ** Manifests that cannot be read *)

(** X4.  On a manifest that is missing, is not JSON or is [null], each of the
    three steps that rewrite the manifest throws (the read error, the
    syntax error, a type error) and writes nothing. *)
Theorem manifest_steps_fail_cleanly (packagePath newVersion : text)
    (packageVersions : versions) (w : world) (e : exn) :
  (store w !! packagePath = None /\ e = ReadError)
  \/ (store w !! packagePath = Some NotJson /\ e = SyntaxError)
  \/ (store w !! packagePath = Some (Manifest JNull) /\ e = TypeError) ->
  (fst (updateVersion packagePath newVersion w) = Throw e
   /\ store (snd (updateVersion packagePath newVersion w)) = store w)
  /\ (fst (fixWorkspaceDependencies packagePath packageVersions w) = Throw e
      /\ store (snd (fixWorkspaceDependencies packagePath packageVersions w))
         = store w)
  /\ (fst (restoreWorkspaceDependencies packagePath w) = Throw e
      /\ store (snd (restoreWorkspaceDependencies packagePath w)) = store w).
Proof.
  rewrite updateVersion_run, fixWorkspaceDependencies_run,
    restoreWorkspaceDependencies_run.
  intros [[-> ->]|[[-> ->]|[-> ->]]]; done.
Qed.

Lemma manifest_steps_fail_cleanly_witness :
  let w := World sample_files [] in
  (fst (updateVersion (txt "client") (txt "2.0.0") w) = Throw ReadError
   /\ store (snd (updateVersion (txt "client") (txt "2.0.0") w)) = store w)
  /\ (fst (fixWorkspaceDependencies (txt "client") ∅ w) = Throw ReadError
      /\ store (snd (fixWorkspaceDependencies (txt "client") ∅ w)) = store w)
  /\ (fst (restoreWorkspaceDependencies (txt "client") w) = Throw ReadError
      /\ store (snd (restoreWorkspaceDependencies (txt "client") w)) = store w).
Proof.
  apply (manifest_steps_fail_cleanly (txt "client") (txt "2.0.0") ∅
           (World sample_files []) ReadError).
  left. split; reflexivity.
Defined.

(** ** What the substitution replaces *)

Lemma fix_entries_get pv depName : forall entries entries' range,
  fix_entries pv entries = Some entries' ->
  get_field depName entries = Val range ->
  exists range',
    fix_entry pv depName range = Some range'
    /\ get_field depName entries' = Val range'.
Proof.
  induction entries as [|[n r] entries IH]; intros entries' range Hfix Hget;
    [done|].
  cbn [fix_entries] in Hfix.
  destruct (fix_entry pv n r) as [r'|] eqn:Hr; [|done].
  destruct (fix_entries pv entries) as [rest'|] eqn:Hrest; [|done].
  injection Hfix as <-. cbn [get_field] in *.
  destruct (text_eqb_spec n depName) as [->|Hn].
  - injection Hget as <-. by exists r'.
  - by apply IH.
Qed.

(** X5.  When the substitution succeeds, every dependency on an internal
    package that was given by a workspace range, and whose version is
    known and a non-empty string, is given by that version afterwards. *)
Theorem fix_replaces_internal_ranges (packagePath : text)
    (packageVersions : versions) (w : world)
    (depType depName range version : text) :
  In depType depTypes ->
  dependency_range (store w) packagePath depType depName = Some (JStr range) ->
  startsWith range (txt "workspace:") = true ->
  (exists pkg, find_package depName = Some pkg) ->
  version_of packageVersions depName = Val (JStr version) ->
  version <> [] ->
  fst (fixWorkspaceDependencies packagePath packageVersions w) = Ret tt ->
  dependency_range
    (store (snd (fixWorkspaceDependencies packagePath packageVersions w)))
    packagePath depType depName
  = Some (JStr version).
Proof.
  intros Hin Hdep Hws [pkg Hpkg] Hver Hne.
  rewrite fixWorkspaceDependencies_run.
  unfold dependency_range in Hdep.
  destruct (store w !! packagePath) as [[|[| | | | |fields]]|] eqn:Hfile; try done.
  destruct (get_field depType fields) as [|[| | | | |entries]] eqn:Hsec; try done.
  destruct (get_field depName entries) as [|r] eqn:Hent; [done|].
  injection Hdep as ->.
  destruct (fix_manifest packageVersions (JObj fields)) as [pkg'|] eqn:Hfix;
    [|done].
  intros _. cbn [snd]. unfold dependency_range. rewrite store_written.
  cbn [fix_manifest] in Hfix.
  destruct (over_sections (fix_section packageVersions) depTypes fields)
    as [fields'|] eqn:Hover; [|done].
  injection Hfix as <-.
  destruct (over_sections_get _ _ NoDup_depTypes _ _ Hover depType)
    as (_ & _ & Hthere).
  destruct (Hthere Hin _ Hsec) as (section' & Happly & ->).
  unfold apply_section in Happly. cbn [truthy fix_section] in Happly.
  destruct (fix_entries packageVersions entries) as [entries'|] eqn:Hentries;
    [|done].
  injection Happly as <-.
  destruct (fix_entries_get _ _ _ _ _ Hentries Hent) as (range' & Hr & ->).
  unfold fix_entry in Hr. cbn [is_workspace_range] in Hr.
  rewrite Hws, orb_true_r, Hpkg, Hver in Hr.
  cbn [truthy] in Hr. destruct version; [done|]. by injection Hr as <-.
Qed.

Lemma fix_replaces_internal_ranges_witness :
  dependency_range
    (store (snd (fixWorkspaceDependencies (txt "server")
                   {[ txt "@fecommunity/reactpress-config"
                        := Val (JStr (txt "1.0.0")) ]}
                   (World sample_files []))))
    (txt "server") (txt "dependencies") (txt "@fecommunity/reactpress-config")
  = Some (JStr (txt "1.0.0")).
Proof.
  apply (fix_replaces_internal_ranges (txt "server")
           {[ txt "@fecommunity/reactpress-config" := Val (JStr (txt "1.0.0")) ]}
           (World sample_files [])
           (txt "dependencies") (txt "@fecommunity/reactpress-config")
           (txt "workspace:^1.0.0") (txt "1.0.0")).
  - left. reflexivity.
  - reflexivity.
  - reflexivity.
  - eexists. reflexivity.
  - reflexivity.
  - discriminate.
  - reflexivity.
Defined.

(** ** Restoring twice *)

Lemma set_field_same k v : forall fields,
  get_field k fields = Val v -> set_field k v fields = fields.
Proof.
  induction fields as [|[k' v'] fields IH]; [done|]. cbn [get_field set_field].
  destruct (text_eqb k' k); [by intros [= ->]|]. intros H. by rewrite IH.
Qed.

Lemma over_sections_fixed f types : forall fields,
  (forall d v, In d types -> get_field d fields = Val v ->
     truthy (Val v) = true -> f v = Some v) ->
  over_sections f types fields = Some fields.
Proof.
  induction types as [|d types IH]; intros fields Hf; [done|].
  cbn [over_sections].
  assert (over_sections f types fields = Some fields) as IH'.
  { apply IH. intros d' v Hd'. apply Hf. by right. }
  destruct (get_field d fields) as [|section] eqn:Hd; [done|].
  destruct (truthy (Val section)) eqn:Ht; [|done].
  rewrite (Hf d section) by (done || by left).
  by rewrite set_field_same.
Qed.

Lemma restore_entry_idempotent e : restore_entry (restore_entry e) = restore_entry e.
Proof.
  unfold restore_entry. destruct (find_package (fst e)) eqn:H; cbn [fst];
    by rewrite H.
Qed.

Lemma restore_section_idempotent v v' :
  restore_section v = Some v' -> restore_section v' = Some v'.
Proof.
  destruct v; intros [= <-]; try done. cbn [restore_section].
  rewrite map_map. do 2 f_equal. apply map_ext. intros e.
  apply restore_entry_idempotent.
Qed.

Lemma restore_manifest_idempotent pkg pkg' :
  restore_manifest pkg = Some pkg' -> restore_manifest pkg' = Some pkg'.
Proof.
  destruct pkg as [| | | | |fields]; intros H;
    try done; try (by injection H as <-).
  cbn [restore_manifest] in H.
  destruct (over_sections restore_section depTypes fields) as [fields'|] eqn:Hover;
    [|done].
  injection H as <-. cbn [restore_manifest].
  rewrite over_sections_fixed; [done|].
  intros d v Hd Hget Htruthy.
  destruct (over_sections_get _ _ NoDup_depTypes _ _ Hover d) as (_ & Hnone & Hsome).
  destruct (get_field d fields) as [|v0] eqn:Hd0.
  { rewrite Hnone in Hget; done. }
  destruct (Hsome Hd v0 eq_refl) as (v' & Happly & Hget').
  rewrite Hget in Hget'. injection Hget' as <-.
  unfold apply_section in Happly. destruct (truthy (Val v0)) eqn:Ht0.
  - by eapply restore_section_idempotent.
  - injection Happly as <-. congruence.
Qed.

(** X8.  Restoring the workspace ranges a second time changes nothing: after
    a restoration that succeeded, another one succeeds and leaves every
    file as it is. *)
Theorem restoreWorkspaceDependencies_idempotent (packagePath : text) (w : world) :
  fst (restoreWorkspaceDependencies packagePath w) = Ret tt ->
  let w1 := snd (restoreWorkspaceDependencies packagePath w) in
  fst (restoreWorkspaceDependencies packagePath w1) = Ret tt
  /\ store (snd (restoreWorkspaceDependencies packagePath w1)) = store w1.
Proof.
  rewrite (restoreWorkspaceDependencies_run packagePath w).
  destruct (store w !! packagePath) as [[|pkg]|] eqn:Hfile; try done.
  destruct (restore_manifest pkg) as [pkg'|] eqn:Hres; [|done].
  intros _ w1. subst w1. cbn [snd].
  rewrite restoreWorkspaceDependencies_run, store_written.
  rewrite (restore_manifest_idempotent _ _ Hres). cbn [fst snd]. split; [done|].
  unfold written. cbn [store]. by rewrite insert_insert_eq.
Qed.

Lemma restoreWorkspaceDependencies_idempotent_witness :
  let w1 := snd (restoreWorkspaceDependencies (txt "server")
                   (World sample_files [])) in
  fst (restoreWorkspaceDependencies (txt "server") w1) = Ret tt
  /\ store (snd (restoreWorkspaceDependencies (txt "server") w1)) = store w1.
Proof.
  apply (restoreWorkspaceDependencies_idempotent (txt "server")
           (World sample_files [])).
  reflexivity.
Defined.

(** ** Choosing the next version *)

Section WithEnv.
Variable E : env.

Lemma probe_loop_idle fuel packageName versionType st w :
  versionExists st = false ->
  probe_loop E fuel packageName versionType st w = (Ret st, w).
Proof. intros H. destruct fuel; simpl; [done|]. by rewrite H. Qed.

Lemma probe_loop_finds packageName versionType v k :
  (k < maxAttempts)%nat ->
  (forall w' i, (i < k)%nat ->
     sh E w' (npm_view packageName (candidate v versionType i)) [] <> None) ->
  (forall w', sh E w' (npm_view packageName (candidate v versionType k)) [] = None) ->
  forall d j fuel w,
    (j + d = k)%nat -> (d < fuel)%nat ->
    exists evs,
      probe_loop E fuel packageName versionType
        (Probing (candidate v versionType j) true j) w
      = (Ret (Probing (candidate v versionType k) false k), w ⊕ evs)
      /\ Forall (is_probe packageName) evs
      /\ length evs = S d.
Proof.
  intros Hk Htaken Hfree. induction d as [|d IH]; intros j fuel w Hj Hfuel.
  - destruct fuel as [|fuel]; [lia|]. assert (j = k) as -> by lia.
    cbn [probe_loop versionExists attempts nextVersion].
    assert ((k <? maxAttempts)%nat = true) as -> by (apply Nat.ltb_lt; lia).
    cbn [andb]. unfold mbind, M_bind, bind, try_catch, mret, M_ret, ret.
    rewrite execSync_run. fold (npm_view packageName (candidate v versionType k)).
    rewrite Hfree. rewrite probe_loop_idle by done.
    eexists. split; [reflexivity|]. split; [|done].
    constructor; [by eexists _, _|constructor].
  - destruct fuel as [|fuel]; [lia|].
    cbn [probe_loop versionExists attempts nextVersion].
    assert ((j <? maxAttempts)%nat = true) as -> by (apply Nat.ltb_lt; lia).
    cbn [andb]. unfold mbind, M_bind, bind, try_catch, mret, M_ret, ret.
    rewrite execSync_run. fold (npm_view packageName (candidate v versionType j)).
    destruct (sh E w (npm_view packageName (candidate v versionType j)) [])
      as [out|] eqn:Hsh; [|destruct (Htaken w j); [lia|done]].
    change (incrementVersion (candidate v versionType j) versionType)
      with (candidate v versionType (S j)).
    destruct (IH (S j) fuel
                (w ⊕ [ExecSync (npm_view packageName (candidate v versionType j))
                        [] true]))
      as (evs & -> & Hev & Hlen); [lia|lia|].
    rewrite after_after. eexists. split; [reflexivity|].
    split; [constructor; [by eexists _, _|done]|]. simpl. by rewrite Hlen.
Qed.

(** X6.  [getNextAvailableVersion] returns the first candidate that the
    registry does not hold: when the first [k] candidates are on the
    registry and the next one is not, with [k] below the ceiling, it
    probes these [k + 1] candidates in order and returns the last one,
    without a warning. *)
Theorem getNextAvailableVersion_first_free (packageName currentVersion
    versionType : text) (k : nat) (w : world) :
  (k < 100)%nat ->
  (forall w' i, (i < k)%nat ->
     sh E w' (npm_view packageName (candidate currentVersion versionType i)) []
     <> None) ->
  (forall w',
     sh E w' (npm_view packageName (candidate currentVersion versionType k)) []
     = None) ->
  exists probes,
    getNextAvailableVersion E packageName (Val (JStr currentVersion))
      versionType w
    = (Ret (candidate currentVersion versionType k),
       w ⊕ (GetNextAvailableVersion packageName versionType :: probes))
    /\ Forall (is_probe packageName) probes
    /\ length probes = S k.
Proof.
  intros Hk Htaken Hfree.
  unfold getNextAvailableVersion, incrementVersionOf.
  unfold mbind, M_bind, bind, try_catch, mret, M_ret, ret, throw.
  rewrite emit_run.
  destruct (probe_loop_finds packageName versionType currentVersion k Hk
              Htaken Hfree k 0%nat maxAttempts
              (w ⊕ [GetNextAvailableVersion packageName versionType]))
    as (evs & Hrun & Hev & Hlen); [lia|done|].
  change (incrementVersion currentVersion versionType)
    with (candidate currentVersion versionType 0).
  rewrite Hrun. cbn [attempts nextVersion].
  assert ((maxAttempts <=? k)%nat = false) as -> by (apply Nat.leb_gt; exact Hk).
  rewrite after_after. by exists evs.
Qed.

End WithEnv.

(** X7.  For a manifest without a [version], [getCurrentVersion] returns
    [undefined], and choosing the next version from it throws a type
    error, twice: the one thrown in the body is caught and reported as a
    registry that could not be checked, and the fallback throws it
    again.  The registry is never asked. *)
Theorem getNextAvailableVersion_no_version (E : env)
    (packagePath packageName versionType : text) (w : world)
    (fields : list (text * json)) :
  store w !! packagePath = Some (Manifest (JObj fields)) ->
  get_field (txt "version") fields = Undefined ->
  (currentVersion ← getCurrentVersion packagePath;
   getNextAvailableVersion E packageName currentVersion versionType) w
  = (Throw TypeError,
     w ⊕ [GetCurrentVersion packagePath;
          GetNextAvailableVersion packageName versionType;
          could_not_check packageName]).
Proof.
  intros Hw Hv. unfold mbind, M_bind, bind.
  rewrite getCurrentVersion_run. unfold current_version. rewrite Hw, Hv.
  rewrite getNextAvailableVersion_not_string by done.
  by rewrite after_after.
Qed.

Lemma getNextAvailableVersion_no_version_witness :
  (currentVersion ← getCurrentVersion (txt "config");
   getNextAvailableVersion (sample_env false) (txt "@fecommunity/reactpress-config")
     currentVersion (txt "patch"))
    (World {[ txt "config" := Manifest (JObj []) ]} [])
  = (Throw TypeError,
     World {[ txt "config" := Manifest (JObj []) ]} []
       ⊕ [GetCurrentVersion (txt "config");
          GetNextAvailableVersion (txt "@fecommunity/reactpress-config")
            (txt "patch");
          could_not_check (txt "@fecommunity/reactpress-config")]).
Proof.
  apply (getNextAvailableVersion_no_version (sample_env false) (txt "config")
           (txt "@fecommunity/reactpress-config") (txt "patch")
           (World {[ txt "config" := Manifest (JObj []) ]} []) []);
    reflexivity.
Defined.

Lemma getNextAvailableVersion_first_free_witness :
  exists probes,
    getNextAvailableVersion taken_env (txt "@fecommunity/reactpress-server")
      (Val (JStr (txt "1.0.0"))) (txt "patch") (World sample_files [])
    = (Ret (txt "1.0.2"),
       World sample_files
         (GetNextAvailableVersion (txt "@fecommunity/reactpress-server")
            (txt "patch") :: probes))
    /\ Forall (is_probe (txt "@fecommunity/reactpress-server")) probes
    /\ length probes = 2%nat.
Proof.
  apply (getNextAvailableVersion_first_free taken_env
           (txt "@fecommunity/reactpress-server") (txt "1.0.0") (txt "patch")
           1 (World sample_files [])).
  - lia.
  - intros w' i Hi. assert (i = 0%nat) as -> by lia. discriminate.
  - intros w'. reflexivity.
Defined.

End StepExtras.


(* ===================================================================== *)
(** * publish-packages.js: what the script writes *)
(* ===================================================================== *)

Module FrameFacts.
Import JS JSFacts Eff EffFacts Publish StepFacts RunFacts ManifestFacts
  AttemptFacts Release.

(** ** Changes of the store *)

Lemma changes_only_refl (P : text -> Prop) (fs : files) : changes_only P fs fs.
Proof. intros q. by left. Qed.

Lemma changes_only_trans (P : text -> Prop) (fs1 fs2 fs3 : files) :
  changes_only P fs1 fs2 -> changes_only P fs2 fs3 -> changes_only P fs1 fs3.
Proof.
  intros H12 H23 q.
  destruct (H12 q) as [H1|(HP & j & j' & Ha & Hb)],
           (H23 q) as [H2|(HP' & k & k' & Hc & Hd)].
  - left. congruence.
  - right. split; [done|]. exists k, k'. split; congruence.
  - right. split; [done|]. exists j, j'. split; congruence.
  - right. split; [done|]. by exists j, k'.
Qed.

Lemma changes_only_nowhere (fs fs' : files) :
  changes_only nowhere fs fs' -> fs' = fs.
Proof.
  intros H. apply map_eq. intros q. by destruct (H q) as [|[[] _]].
Qed.

Lemma written_changes (P : text -> Prop) (w : world) p pkg pkg' evs :
  P p -> store w !! p = Some (Manifest pkg) ->
  changes_only P (store w) (store (written w p pkg' evs)).
Proof.
  intros HP Hw q. unfold written. cbn [store].
  destruct (decide (q = p)) as [->|Hq].
  - right. split; [done|]. exists pkg, pkg'. by rewrite lookup_insert_eq.
  - left. by rewrite lookup_insert_ne.
Qed.

(** ** The combinators *)

Section Combinators.
Context {A B : Type}.
Variable P : text -> Prop.

Lemma touches_still (m : M A) :
  (forall w, store (snd (m w)) = store w) -> touches m P.
Proof. intros H w. rewrite H. apply changes_only_refl. Qed.

Lemma touches_ret (a : A) : touches (mret a : M A) P.
Proof. by apply touches_still. Qed.

Lemma touches_throw (e : exn) : touches (throw e : M A) P.
Proof. by apply touches_still. Qed.

Lemma touches_exit (c : Z) : touches (exit c : M A) P.
Proof. by apply touches_still. Qed.

Lemma touches_bind (m : M A) (k : A -> M B) :
  touches m P -> (forall a, touches (k a) P) -> touches (m ≫= k) P.
Proof.
  intros Hm Hk w. rewrite bind_unfold. specialize (Hm w).
  destruct (m w) as [[a|e|c] w']; cbn [snd] in *; [|done..].
  eapply changes_only_trans; [exact Hm|apply Hk].
Qed.

Lemma touches_try_catch (m : M A) (h : exn -> M A) :
  touches m P -> (forall e, touches (h e) P) -> touches (try_catch m h) P.
Proof.
  intros Hm Hh w. unfold try_catch. specialize (Hm w).
  destruct (m w) as [[a|e|c] w']; cbn [snd] in *; [done| |done].
  eapply changes_only_trans; [exact Hm|apply Hh].
Qed.

Lemma touches_try_finally (m : M A) (f : M unit) :
  touches m P -> touches f P -> touches (try_finally m f) P.
Proof.
  intros Hm Hf w. unfold try_finally. specialize (Hm w).
  destruct (m w) as [[a|e|c] w']; cbn [snd] in *; [| |done].
  - specialize (Hf w'). destruct (f w') as [[[]|e|c] w'']; cbn [snd] in *;
      by eapply changes_only_trans.
  - specialize (Hf w'). destruct (f w') as [[[]|e'|c] w'']; cbn [snd] in *;
      by eapply changes_only_trans.
Qed.

End Combinators.

Lemma touches_emit (P : text -> Prop) (e : event) : touches (emit e : M unit) P.
Proof. by apply touches_still. Qed.

Lemma touches_for_each {A : Type} (P : text -> Prop) (body : A -> M unit)
    (l : list A) :
  (forall x, In x l -> touches (body x) P) -> touches (for_each l body) P.
Proof.
  induction l as [|x l IH]; intros H; cbn [for_each].
  - apply touches_ret.
  - apply (touches_bind P (body x) (fun _ => for_each l body)).
    + apply H. by left.
    + intros _. apply IH. intros y Hy. apply H. by right.
Qed.

Lemma touches_mono {A : Type} (P Q : text -> Prop) (m : M A) :
  (forall q, P q -> Q q) -> touches m P -> touches m Q.
Proof.
  intros HPQ Hm w q. destruct (Hm w q) as [H|[HP H]]; [by left|].
  right. split; [by apply HPQ|done].
Qed.

(** ** The steps *)

Section WithEnv.
Variable E : env.
Variable P : text -> Prop.

Lemma execSync_touches command cwd : touches (execSync E command cwd) P.
Proof.
  apply touches_still. intros w. rewrite execSync_run.
  by destruct (sh E w command cwd).
Qed.

Lemma getCurrentVersion_touches p : touches (getCurrentVersion p) P.
Proof. apply touches_still. intros w. by rewrite getCurrentVersion_run. Qed.

Lemma incrementVersionOf_touches version type :
  touches (incrementVersionOf version type) P.
Proof.
  destruct version as [|[]]; first [apply touches_throw|apply touches_ret].
Qed.

Lemma probe_loop_touches packageName versionType fuel : forall st,
  touches (probe_loop E fuel packageName versionType st) P.
Proof.
  induction fuel as [|fuel IH]; intros st; cbn [probe_loop];
    [apply touches_ret|].
  destruct (versionExists st && (attempts st <? maxAttempts)%nat);
    [|apply touches_ret].
  apply touches_bind; [|intros st'; apply IH].
  apply touches_try_catch; [|intros _; apply touches_ret].
  apply touches_bind; [apply execSync_touches|intros _; apply touches_ret].
Qed.

Lemma getNextAvailableVersion_touches packageName currentVersion versionType :
  touches (getNextAvailableVersion E packageName currentVersion versionType) P.
Proof.
  unfold getNextAvailableVersion.
  apply touches_bind; [apply touches_emit|intros _].
  apply touches_try_catch.
  - apply touches_bind; [apply incrementVersionOf_touches|intros next].
    apply touches_bind; [apply probe_loop_touches|intros st].
    destruct (maxAttempts <=? attempts st)%nat;
      [apply touches_throw|apply touches_ret].
  - intros _. apply touches_bind; [apply touches_emit|intros _].
    apply incrementVersionOf_touches.
Qed.

Lemma updateVersion_touches p v : P p -> touches (updateVersion p v) P.
Proof.
  intros HP w. rewrite updateVersion_run.
  destruct (store w !! p) as [[|pkg]|] eqn:Hw; try apply changes_only_refl.
  destruct pkg; first [apply changes_only_refl|by eapply written_changes].
Qed.

Lemma fixWorkspaceDependencies_touches p pv :
  P p -> touches (fixWorkspaceDependencies p pv) P.
Proof.
  intros HP w. rewrite fixWorkspaceDependencies_run.
  destruct (store w !! p) as [[|pkg]|] eqn:Hw; try apply changes_only_refl.
  destruct (fix_manifest pv pkg);
    first [apply changes_only_refl|by eapply written_changes].
Qed.

Lemma restoreWorkspaceDependencies_touches p :
  P p -> touches (restoreWorkspaceDependencies p) P.
Proof.
  intros HP w. rewrite restoreWorkspaceDependencies_run.
  destruct (store w !! p) as [[|pkg]|] eqn:Hw; try apply changes_only_refl.
  destruct (restore_manifest pkg);
    first [apply changes_only_refl|by eapply written_changes].
Qed.

Lemma buildPackage_touches p n : touches (buildPackage E p n) P.
Proof.
  apply touches_still. intros w. rewrite buildPackage_run. cbv zeta.
  destruct (build_command p); [|done]. by destruct (sh E _ _ _).
Qed.

Lemma publishPackage_touches p n tag : touches (publishPackage E p n tag) P.
Proof.
  apply touches_still. intros w. rewrite publishPackage_run. cbv zeta.
  by destruct (sh E _ _ _).
Qed.

Lemma createGitHubRelease_touches tagName notes :
  touches (createGitHubRelease E tagName notes) P.
Proof.
  unfold createGitHubRelease.
  apply touches_bind; [apply touches_emit|intros _].
  apply touches_try_catch; [|intros _; apply touches_emit].
  apply touches_bind; [apply execSync_touches|intros _; apply touches_ret].
Qed.

Lemma checkEnvironment_touches : touches (checkEnvironment E) P.
Proof.
  unfold checkEnvironment.
  apply touches_bind.
  { apply touches_try_catch.
    - apply touches_bind; [apply execSync_touches|intros _; apply touches_ret].
    - intros _. apply touches_bind; [apply touches_emit|intros _; apply touches_ret]. }
  intros pnpm. destruct (negb pnpm); [apply touches_ret|].
  apply touches_bind.
  { apply touches_try_catch.
    - apply touches_bind; [apply execSync_touches|intros _; apply touches_ret].
    - intros _. apply touches_bind; [apply touches_emit|intros _; apply touches_ret]. }
  intros whoami. destruct (negb whoami); apply touches_ret.
Qed.

Lemma gather_versions_touches l : forall pv, touches (gather_versions l pv) P.
Proof.
  induction l as [|pkg l IH]; intros pv; cbn [gather_versions];
    [apply touches_ret|].
  apply touches_bind; [apply getCurrentVersion_touches|intros v; apply IH].
Qed.

(** ** The branches *)

Lemma publish_steps_touches pkg v tag pv :
  P (path pkg) -> touches (publish_steps E pkg v tag pv) P.
Proof.
  intros HP. unfold publish_steps.
  apply touches_bind; [by apply fixWorkspaceDependencies_touches|intros _].
  apply touches_try_finally; [|by apply restoreWorkspaceDependencies_touches].
  apply touches_bind; [by apply updateVersion_touches|intros _].
  apply touches_bind; [|intros _; apply publishPackage_touches].
  destruct (noBuild E); [apply touches_ret|apply buildPackage_touches].
Qed.

Lemma build_all_touches : touches (build_all E) P.
Proof.
  unfold build_all. apply touches_for_each. intros pkg _.
  destruct (dir_exists E (path pkg));
    [apply buildPackage_touches|apply touches_emit].
Qed.

Lemma choose_version_touches (custom : text) n cur type :
  touches (if text_eqb type (txt "custom") then mret custom
           else getNextAvailableVersion E n cur type) P.
Proof.
  destruct (text_eqb type _);
    [apply touches_ret|apply getNextAvailableVersion_touches].
Qed.

Lemma publish_one_touches :
  P (path (ask_selectedPackage E)) -> touches (publish_one E) P.
Proof.
  intros HP. unfold publish_one. cbv zeta.
  apply touches_bind; [apply getCurrentVersion_touches|intros cur].
  apply touches_bind; [apply choose_version_touches|intros v].
  apply touches_bind; [apply gather_versions_touches|intros pv].
  by apply publish_steps_touches.
Qed.

Lemma prerelease_loop_touches l tag type :
  (forall pkg, In pkg l -> P (path pkg)) ->
  forall pv, touches (prerelease_loop E l tag type pv) P.
Proof.
  induction l as [|pkg l IH]; intros HP pv; cbn [prerelease_loop];
    [apply touches_ret|].
  assert (forall pv', touches (prerelease_loop E l tag type pv') P) as IH'.
  { apply IH. intros q Hq. apply HP. by right. }
  destruct (negb (dir_exists E (path pkg))).
  - apply touches_bind; [apply touches_emit|intros _; apply IH'].
  - apply touches_bind; [apply getCurrentVersion_touches|intros cur].
    apply touches_bind; [apply choose_version_touches|intros v].
    apply touches_bind; [|intros _; apply IH'].
    apply publish_steps_touches. apply HP. by left.
Qed.

Lemma publish_prerelease_touches :
  (forall pkg, In pkg packages -> P (path pkg)) ->
  touches (publish_prerelease E) P.
Proof.
  intros HP. unfold publish_prerelease. cbv zeta.
  apply touches_bind; [apply gather_versions_touches|intros pv].
  by apply prerelease_loop_touches.
Qed.

Lemma publish_all_loop_touches l base tag :
  (forall pkg, In pkg l -> P (path pkg)) ->
  forall pv, touches (publish_all_loop E l base tag pv) P.
Proof.
  induction l as [|pkg l IH]; intros HP pv; cbn [publish_all_loop];
    [apply touches_ret|].
  assert (forall pv', touches (publish_all_loop E l base tag pv') P) as IH'.
  { apply IH. intros q Hq. apply HP. by right. }
  destruct (negb (dir_exists E (path pkg))).
  - apply touches_bind; [apply touches_emit|intros _; apply IH'].
  - cbv zeta. apply touches_bind; [|intros _; apply IH'].
    apply publish_steps_touches. apply HP. by left.
Qed.

Lemma publish_all_touches :
  (ask_confirm E = true -> forall pkg, In pkg packages -> P (path pkg)) ->
  touches (publish_all E) P.
Proof.
  intros HP. unfold publish_all.
  apply touches_bind.
  { apply touches_try_catch.
    - apply touches_bind; [apply execSync_touches|intros b; apply touches_ret].
    - intros _. apply touches_bind; [apply touches_emit|intros _; apply touches_ret]. }
  intros isMasterBranch. cbv zeta.
  apply touches_bind; [apply gather_versions_touches|intros pv].
  apply touches_bind.
  { destruct (text_eqb _ _); [apply touches_ret|].
    unfold packages. apply getNextAvailableVersion_touches. }
  intros baseVersion.
  destruct (ask_confirm E); cbn [negb]; [|apply touches_emit].
  apply touches_bind; [by apply publish_all_loop_touches; auto|intros pv'].
  destruct isMasterBranch; [apply createGitHubRelease_touches|apply touches_ret].
Qed.

(** [main] writes where its branch does. *)
Lemma main_touches :
  (ask_action E = txt "publish-one" -> P (path (ask_selectedPackage E))) ->
  (ask_action E = txt "publish-prerelease" ->
   forall pkg, In pkg packages -> P (path pkg)) ->
  (ask_action E = txt "publish-all" -> ask_confirm E = true ->
   forall pkg, In pkg packages -> P (path pkg)) ->
  touches (main E) P.
Proof.
  intros Hone Hpre Hall. unfold main.
  apply touches_bind; [apply checkEnvironment_touches|intros ok].
  destruct (negb ok); [apply touches_exit|].
  apply touches_bind.
  { apply touches_for_each. intros pkg _.
    apply touches_bind; [apply getCurrentVersion_touches|intros _; apply touches_ret]. }
  intros _. cbv zeta.
  destruct (text_eqb (ask_action E) (txt "cancel")); [apply touches_emit|].
  destruct (text_eqb (ask_action E) (txt "build-all")); [apply build_all_touches|].
  destruct (text_eqb (ask_action E) (txt "publish-one")) eqn:H1.
  { apply text_eqb_eq in H1. by apply publish_one_touches, Hone. }
  destruct (text_eqb (ask_action E) (txt "publish-prerelease")) eqn:H2.
  { apply text_eqb_eq in H2. by apply publish_prerelease_touches, Hpre. }
  destruct (text_eqb (ask_action E) (txt "publish-all")) eqn:H3.
  { apply text_eqb_eq in H3. apply publish_all_touches. by apply Hall. }
  apply touches_ret.
Qed.

Lemma script_touches :
  touches (main E) P -> touches (script E) P.
Proof.
  intros H. unfold script. apply touches_try_catch; [done|].
  intros e. apply touches_bind; [apply touches_emit|intros _; apply touches_exit].
Qed.

End WithEnv.

(** ** The environment check, run *)

Lemma checkEnvironment_run (E : env) (w : world) :
  let pnpm := txt "pnpm --version" in
  let whoami := txt "pnpm whoami --registry https://registry.npmjs.org" in
  checkEnvironment E w =
  match sh E w pnpm [] with
  | None =>
      (Ret false, w ⊕ [ExecSync pnpm [] false; Log (txt "pnpm is not installed")])
  | Some _ =>
      match sh E (w ⊕ [ExecSync pnpm [] true]) whoami [] with
      | None =>
          (Ret false,
           w ⊕ [ExecSync pnpm [] true; ExecSync whoami [] false;
                Log (txt "Not logged in to npm")])
      | Some _ =>
          (Ret true, w ⊕ [ExecSync pnpm [] true; ExecSync whoami [] true])
      end
  end.
Proof.
  cbv zeta. unfold checkEnvironment.
  unfold mbind, M_bind, bind, try_catch, mret, M_ret, ret.
  rewrite execSync_run.
  destruct (sh E w _ []); [|by rewrite emit_run, after_after].
  cbn [negb]. rewrite execSync_run.
  destruct (sh E _ _ []); cbn [negb]; [by rewrite after_after|].
  by rewrite emit_run, !after_after.
Qed.

End FrameFacts.

Module FlowExtras.
Import JS JSFacts Eff EffFacts Publish StepFacts RunFacts ManifestFacts
  AttemptFacts Release FrameFacts.

(** ** The files the script writes *)

(** X9.  Whatever the user answers and whatever the subprocesses do, a run of
    the script creates and deletes no manifest, and a manifest that
    differs after the run is one that parsed before it and belongs to one
    of the three packages of the list or to the package the user
    selected. *)
Theorem script_writes_only_released_manifests (E : env) (w : world) :
  changes_only (released E) (store w) (store (snd (script E w))).
Proof.
  apply script_touches. apply main_touches.
  - intros _. exists (ask_selectedPackage E). auto.
  - intros _ pkg Hpkg. exists pkg. auto.
  - intros _ _ pkg Hpkg. exists pkg. auto.
Qed.

(** X10.  Only the three publishing actions write: when the user cancels,
    builds all packages, gives an action the script does not know, or
    declines the confirmation of "publish all", every manifest is after
    the run what it was before, however the run ends. *)
Theorem script_without_publication_writes_nothing (E : env) (w : world) :
  (ask_action E <> txt "publish-one"
   /\ ask_action E <> txt "publish-prerelease"
   /\ ask_action E <> txt "publish-all")
  \/ (ask_action E = txt "publish-all" /\ ask_confirm E = false) ->
  store (snd (script E w)) = store w.
Proof.
  intros H. apply changes_only_nowhere.
  apply script_touches. apply main_touches.
  - intros H1. destruct H as [(Hn & _)|(Ha & _)]; [done|].
    rewrite Ha in H1. discriminate H1.
  - intros H2. destruct H as [(_ & Hn & _)|(Ha & _)]; [done|].
    rewrite Ha in H2. discriminate H2.
  - intros H3 Hc. destruct H as [(_ & _ & Hn)|(_ & Hf)]; [done|congruence].
Qed.

Lemma script_without_publication_writes_nothing_witness :
  store (snd (script
                {| noBuild := false;
                   sh := fun _ _ _ => Some [];
                   dir_exists := fun _ => true;
                   ask_action := txt "publish-all";
                   ask_selectedPackage := ask_selectedPackage (sample_env false);
                   ask_versionType := txt "minor";
                   ask_customVersion := fun _ => [];
                   ask_customVersion_all := [];
                   ask_tag := txt "beta";
                   ask_confirm := false |}
                (World sample_files [])))
  = sample_files.
Proof.
  apply (script_without_publication_writes_nothing
           {| noBuild := false;
              sh := fun _ _ _ => Some [];
              dir_exists := fun _ => true;
              ask_action := txt "publish-all";
              ask_selectedPackage := ask_selectedPackage (sample_env false);
              ask_versionType := txt "minor";
              ask_customVersion := fun _ => [];
              ask_customVersion_all := [];
              ask_tag := txt "beta";
              ask_confirm := false |}
           (World sample_files [])).
  right. split; reflexivity.
Defined.

(** ** A publication attempt does not roll the version back *)

(** X11.  Once the substitution has succeeded on a manifest that is an object,
    the attempt leaves the new version in the manifest whether the build
    and the publication succeed or throw: [getCurrentVersion] returns it
    afterwards.  The attempt returns or throws the failure of a command,
    and no other file is written. *)
Theorem attempt_keeps_new_version (E : env) (pkg : package)
    (newVersion tag : text) (packageVersions : versions) (w : world)
    (fields : list (text * json)) :
  store w !! path pkg = Some (Manifest (JObj fields)) ->
  fst (fixWorkspaceDependencies (path pkg) packageVersions w) = Ret tt ->
  let run := publish_steps E pkg newVersion tag packageVersions w in
  fst (getCurrentVersion (path pkg) (snd run)) = Ret (Val (JStr newVersion))
  /\ (fst run = Ret tt \/ exists command, fst run = Throw (CommandFailed command))
  /\ forall q, q <> path pkg -> store (snd run) !! q = store w !! q.
Proof.
  intros Hw Hfixed run. subst run.
  rewrite fixWorkspaceDependencies_run, Hw in Hfixed.
  destruct (publish_steps_run E pkg newVersion tag packageVersions w)
    as [(e & _ & Hfail)|(pkg0 & pkg1 & pkg3 & o & mid & Hp & Hfix & Hres & -> & Hmid)].
  { destruct Hfail as [Hfail|(pkg0 & Hp & Hnone)].
    - unfold read_failure in Hfail. by rewrite Hw in Hfail.
    - rewrite Hw in Hp. injection Hp as <-. by rewrite Hnone in Hfixed. }
  rewrite Hw in Hp. injection Hp as <-. cbn [fst snd].
  split; [|split].
  - rewrite getCurrentVersion_run. cbn [fst]. f_equal.
    unfold current_version. rewrite store_written.
    apply fix_manifest_spec in Hfix as (fields1 & -> & _).
    cbn [set_version restore_manifest] in Hres.
    destruct (over_sections restore_section depTypes _) as [fields3|] eqn:Hover;
      [|done].
    injection Hres as <-.
    destruct (over_sections_get _ _ NoDup_depTypes _ _ Hover (txt "version"))
      as (Hout & _).
    rewrite Hout.
    + apply get_set_field_same.
    + intros Hin. by apply depTypes_not_version in Hin.
  - destruct Hmid; eauto.
  - intros q Hq. unfold written. cbn [store]. by rewrite lookup_insert_ne.
Qed.

Lemma attempt_keeps_new_version_witness :
  let run := publish_steps failing_env (ask_selectedPackage failing_env)
               (txt "1.0.1") (txt "latest")
               {[ txt "@fecommunity/reactpress-config" := Val (JStr (txt "1.0.0")) ]}
               (World sample_files []) in
  fst (getCurrentVersion (txt "server") (snd run)) = Ret (Val (JStr (txt "1.0.1")))
  /\ (fst run = Ret tt \/ exists command, fst run = Throw (CommandFailed command))
  /\ forall q, q <> txt "server" -> store (snd run) !! q = sample_files !! q.
Proof.
  apply (attempt_keeps_new_version failing_env (ask_selectedPackage failing_env)
           (txt "1.0.1") (txt "latest")
           {[ txt "@fecommunity/reactpress-config" := Val (JStr (txt "1.0.0")) ]}
           (World sample_files [])
           match sample_manifest with JObj f => f | _ => [] end);
    reflexivity.
Defined.

(** ** The environment check *)

(** X12.  When pnpm is not installed, or is but the user is not logged in to
    the registry, the script exits with status 1 right after the check:
    it has run the one or two commands of the check and reported the
    failure, and has read no manifest, asked nothing of the registry and
    written nothing. *)
Theorem script_exits_on_failed_check (E : env) (w : world)
    (evs : list event) :
  let pnpm := txt "pnpm --version" in
  let whoami := txt "pnpm whoami --registry https://registry.npmjs.org" in
  (sh E w pnpm [] = None
   /\ evs = [ExecSync pnpm [] false; Log (txt "pnpm is not installed")])
  \/ (sh E w pnpm [] <> None
      /\ sh E (w ⊕ [ExecSync pnpm [] true]) whoami [] = None
      /\ evs = [ExecSync pnpm [] true; ExecSync whoami [] false;
                Log (txt "Not logged in to npm")]) ->
  script E w = (Exit 1, w ⊕ evs).
Proof.
  cbv zeta. intros H. unfold script, main, try_catch.
  rewrite bind_unfold, checkEnvironment_run. cbv zeta.
  destruct H as [(Hp & ->)|(Hp & Hw & ->)].
  - by rewrite Hp.
  - destruct (sh E w _ []); [|done]. by rewrite Hw.
Qed.

Lemma script_exits_on_failed_check_witness :
  script (with_sh (sample_env false) (fun _ _ _ => None)) (World sample_files [])
  = (Exit 1,
     World sample_files []
       ⊕ [ExecSync (txt "pnpm --version") [] false;
          Log (txt "pnpm is not installed")]).
Proof.
  apply (script_exits_on_failed_check
           (with_sh (sample_env false) (fun _ _ _ => None))
           (World sample_files [])).
  left. split; reflexivity.
Defined.

End FlowExtras.


(* ===================================================================== *)
(** * generate-api.js: camel case and Pascal case *)
(* ===================================================================== *)

Module NameFacts.
Import JS JSFacts SubstFacts Names.

Lemma initial_elsewhere t :
  initial_or_separator_letter false t = separator_letter t.
Proof. by destruct t. Qed.

Lemma gsub_elsewhere s :
  gsub (initial_or_separator_letter false) s = gsub separator_letter s.
Proof. apply gsub_ext, initial_elsewhere. Qed.

(** The callback on an initial that is not the underscore. *)
Lemma upper_initial_match c :
  is_word c = true -> c <> "_"%char ->
  upper_without_separator [c] = [to_upper c].
Proof.
  destruct c as [[] [] [] [] [] [] [] []]; intros Hw Hc;
    first [discriminate Hw | reflexivity | by destruct Hc].
Qed.

Lemma upper_underscore : upper_without_separator ["_"%char] = [].
Proof. reflexivity. Qed.

(** The callback on a separator and a letter. *)
Lemma upper_separator_letter sep c :
  is_separator sep = true -> is_letter c = true ->
  upper_without_separator [sep; c] = [to_upper c].
Proof.
  intros Hsep. unfold is_separator in Hsep.
  apply orb_true_iff in Hsep as [Hsep|Hsep]; apply Ascii.eqb_eq in Hsep as ->;
    destruct c as [[] [] [] [] [] [] [] []]; intros Hc;
    first [discriminate Hc | reflexivity].
Qed.

Lemma lower_initial_upper c rest :
  is_word c = true ->
  lower_initial (to_upper c :: rest) = lower_initial (c :: rest).
Proof.
  destruct c as [[] [] [] [] [] [] [] []]; intros Hw;
    first [discriminate Hw | reflexivity].
Qed.

Lemma lower_upper_letter c rest :
  is_letter c = true ->
  lower_initial (to_upper c :: rest) = to_lower c :: rest.
Proof.
  destruct c as [[] [] [] [] [] [] [] []]; intros Hw;
    first [discriminate Hw | reflexivity].
Qed.

Lemma lower_initial_letter c rest :
  is_letter c = true -> lower_initial (c :: rest) = to_lower c :: rest.
Proof.
  destruct c as [[] [] [] [] [] [] [] []]; intros Hw;
    first [discriminate Hw | reflexivity].
Qed.

Lemma letter_is_word c : is_letter c = true -> is_word c = true.
Proof.
  unfold is_letter, is_word. intros H.
  apply orb_true_iff in H as [->| ->]; by rewrite ?orb_true_r.
Qed.

Lemma letter_not_underscore c : is_letter c = true -> c <> "_"%char.
Proof. by intros H ->. Qed.

Lemma separator_not_word_start c :
  is_word c = true -> c <> "_"%char -> is_separator c = false.
Proof.
  destruct c as [[] [] [] [] [] [] [] []]; intros Hw Hc;
    first [discriminate Hw | reflexivity | by destruct Hc].
Qed.

Lemma separator_letter_not_separator c t :
  is_separator c = false -> separator_letter (c :: t) = None.
Proof. intros H. destruct t; [done|]. cbn [separator_letter]. by rewrite H. Qed.

(** The scan at a separator followed by a letter. *)
Lemma gsub_separator_letter sep c rest :
  is_separator sep = true -> is_letter c = true ->
  gsub separator_letter (sep :: c :: rest)
  = to_upper c :: gsub separator_letter rest.
Proof.
  intros Hsep Hc.
  rewrite (gsub_match separator_letter _ [to_upper c] 2).
  - done.
  - cbn [separator_letter]. rewrite Hsep, Hc. cbn [andb].
    by rewrite upper_separator_letter.
  - cbn [length]. lia.
Qed.

(** The scan copies what has no separator. *)
Lemma gsub_separator_free w rest :
  Forall (fun x => is_separator x = false) w ->
  gsub separator_letter (w ++ rest) = w ++ gsub separator_letter rest.
Proof.
  intros Hw. apply gsub_copy. intros a b -> Hb.
  apply Forall_app in Hw as [_ Hw].
  destruct b as [|x b]; [done|]. apply Forall_cons in Hw as [Hx _].
  by apply separator_letter_not_separator.
Qed.

Lemma gsub_separator_words more :
  Forall (fun sw : ascii * text =>
            is_separator (fst sw) = true /\ is_name_word (snd sw)) more ->
  gsub separator_letter (concat (map (fun sw => fst sw :: snd sw) more))
  = concat (map capitalized (map snd more)).
Proof.
  induction 1 as [|[sep w] more [Hsep Hw] _ IH]; [done|].
  cbn [map concat fst snd] in *.
  destruct w as [|c r]; [done|]. destruct Hw as [Hc Hr].
  cbn [app capitalized]. rewrite gsub_separator_letter by done.
  by rewrite gsub_separator_free, IH.
Qed.

End NameFacts.

Module NameExtras.
Import JS JSFacts SubstFacts Names NameFacts.

(** X13.  The camel-case name of a module is its Pascal-case name with an
    upper-case initial lowered, for every name except one that starts
    with an underscore not followed by a letter: there [toPascalCase]
    drops the underscore, which its pattern takes for the initial, and
    [toCamelCase] keeps it. *)
Theorem toCamelCase_lowers_toPascalCase (str : text) :
  (startsWith str (txt "_") = false ->
   toCamelCase str = lower_initial (toPascalCase str))
  /\ (forall d rest, str = "_"%char :: d :: rest -> is_letter d = true ->
      toCamelCase str = lower_initial (toPascalCase str))
  /\ (forall rest, str = "_"%char :: rest ->
      match rest with d :: _ => is_letter d = false | [] => True end ->
      toCamelCase str = "_"%char :: toPascalCase str).
Proof.
  unfold toCamelCase, toPascalCase. split; [|split].
  - destruct str as [|c s]; [done|]. intros Hstart.
    assert (c <> "_"%char) as Hc.
    { intros ->. discriminate Hstart. }
    cbn [gsub_anchored initial_or_separator_letter andb].
    destruct (is_word c) eqn:Hw.
    + rewrite upper_initial_match by done. cbn [app].
      fold (gsub (initial_or_separator_letter false) s).
      rewrite gsub_elsewhere. rewrite lower_initial_upper by done.
      f_equal. unfold gsub. cbn [gsub_from].
      by rewrite separator_letter_not_separator
        by by apply separator_not_word_start.
    + unfold gsub at 1. cbn [gsub_from].
      destruct (separator_letter (c :: s)) as [[r [|k]]|];
        rewrite ?(gsub_from_ext _ _ initial_elsewhere); try done.
      all: by rewrite (gsub_ext _ _ _ initial_elsewhere).
  - intros d rest -> Hd.
    cbn [gsub_anchored initial_or_separator_letter andb].
    change (is_word "_") with true. cbv iota. rewrite upper_underscore.
    cbn [app]. fold (gsub (initial_or_separator_letter false) (d :: rest)).
    rewrite gsub_elsewhere. rewrite gsub_separator_letter by done.
    unfold gsub at 2. cbn [gsub_from].
    rewrite separator_letter_not_separator
      by (apply separator_not_word_start;
          [by apply letter_is_word|by apply letter_not_underscore]).
    fold (gsub separator_letter rest).
    by rewrite lower_upper_letter, lower_initial_letter.
  - intros rest -> Hrest.
    cbn [gsub_anchored initial_or_separator_letter andb].
    change (is_word "_") with true. cbv iota. rewrite upper_underscore.
    cbn [app]. fold (gsub (initial_or_separator_letter false) rest).
    rewrite gsub_elsewhere. unfold gsub at 1. cbn [gsub_from].
    destruct rest as [|d rest]; [done|].
    cbn [separator_letter]. rewrite Hrest, andb_false_r. done.
Qed.

(** X14.  On a name made of words joined by hyphens or underscores, each word
    a letter followed by characters that are no separators,
    [toPascalCase] gives the words with their initials in upper case and
    the separators dropped, and [toCamelCase] the same with the initial
    of the first word in lower case. *)
Theorem names_of_joined_words (first : text) (more : list (ascii * text)) :
  is_name_word first ->
  Forall (fun sw : ascii * text =>
            is_separator (fst sw) = true /\ is_name_word (snd sw)) more ->
  toPascalCase (joined first more)
  = capitalized first ++ concat (map capitalized (map snd more))
  /\ toCamelCase (joined first more)
     = lower_initial first ++ concat (map capitalized (map snd more)).
Proof.
  intros Hfirst Hmore. destruct first as [|c r]; [done|].
  destruct Hfirst as [Hc Hr].
  pose proof (letter_is_word c Hc) as Hw.
  pose proof (letter_not_underscore c Hc) as Hu.
  unfold toPascalCase, toCamelCase, joined. cbn [app]. split.
  - cbn [gsub_anchored initial_or_separator_letter andb]. rewrite Hw.
    rewrite upper_initial_match by done. cbn [app capitalized]. f_equal.
    fold (gsub (initial_or_separator_letter false)
            (r ++ concat (map (fun sw => fst sw :: snd sw) more))).
    by rewrite gsub_elsewhere, gsub_separator_free, gsub_separator_words.
  - unfold gsub at 1. cbn [gsub_from].
    rewrite separator_letter_not_separator
      by by apply separator_not_word_start.
    fold (gsub separator_letter
            (r ++ concat (map (fun sw => fst sw :: snd sw) more))).
    rewrite gsub_separator_free, gsub_separator_words by done.
    by rewrite !lower_initial_letter.
Qed.

Lemma names_of_joined_words_witness :
  toPascalCase (txt "user-profile_id") = txt "UserProfileId"
  /\ toCamelCase (txt "user-profile_id") = txt "userProfileId".
Proof.
  apply (names_of_joined_words (txt "user")
           [("-"%char, txt "profile"); ("_"%char, txt "id")]).
  - split; [reflexivity|repeat constructor].
  - repeat constructor.
Defined.

End NameExtras.

(* ===================================================================== *)
(** * generate-api-types.js: the HTTP client *)
(* ===================================================================== *)

Module HttpClientFacts.
Import JS JSFacts SubstFacts HttpClient.

Lemma startsWith_cons x p c s :
  startsWith (c :: s) (x :: p) = Ascii.eqb x c && startsWith s p.
Proof. unfold startsWith. cbn [strip_prefix]. by destruct (Ascii.eqb x c). Qed.

Lemma startsWith_nil_cons x p : startsWith [] (x :: p) = false.
Proof. done. Qed.

Section Literal.
(** A literal pattern and a replacement that does not hold the first
    character of the pattern, and whose own first character is not in
    the pattern. *)
Variables (a : ascii) (pat' : text) (h : ascii) (rep' : text).
Hypothesis first_not_in_rep : ~ In a (h :: rep').
Hypothesis h_not_in_pat : ~ In h (a :: pat').

Let m : matcher := literally (a :: pat') (h :: rep').

Lemma gsub_literal_nil : gsub m [] = [].
Proof. done. Qed.

Lemma gsub_literal_miss c s :
  startsWith (c :: s) (a :: pat') = false -> gsub m (c :: s) = c :: gsub m s.
Proof.
  intros H. unfold gsub. cbn [gsub_from]. unfold m at 1, literally.
  by rewrite H.
Qed.

Lemma gsub_literal_hit c s :
  startsWith (c :: s) (a :: pat') = true ->
  gsub m (c :: s) = (h :: rep') ++ gsub m (drop (length (a :: pat')) (c :: s))
  /\ (length (drop (length (a :: pat')) (c :: s)) < length (c :: s))%nat.
Proof.
  intros H. split.
  - apply gsub_match.
    + unfold m, literally. by rewrite H.
    + apply startsWith_true in H as [r ->]. rewrite length_app.
      cbn [length]. lia.
  - rewrite length_drop. cbn [length]. lia.
Qed.

(** A prefix of the output that avoids [h] is a prefix of the input. *)
Lemma startsWith_gsub_back p : ~ In h p -> forall s,
  startsWith (gsub m s) p = true -> startsWith s p = true.
Proof.
  induction p as [|x p IH]; intros Hh s; [done|].
  destruct s as [|c s]; [done|].
  destruct (startsWith (c :: s) (a :: pat')) eqn:Hm.
  - destruct (gsub_literal_hit c s Hm) as [-> _]. cbn [app].
    rewrite startsWith_cons. intros H. apply andb_true_iff in H as [Hx _].
    apply Ascii.eqb_eq in Hx as ->. destruct Hh. by left.
  - rewrite gsub_literal_miss by done. rewrite !startsWith_cons.
    intros H. apply andb_true_iff in H as [-> H]. cbn [andb].
    apply IH; [|done]. intros Hin. apply Hh. by right.
Qed.

Lemma includes_after_replacement r X :
  ~ In a r -> includes (r ++ X) (a :: pat') = includes X (a :: pat').
Proof.
  induction r as [|c r IH]; intros Hr; [done|]. cbn [app includes].
  rewrite startsWith_cons.
  destruct (Ascii.eqb a c) eqn:Hc.
  - apply Ascii.eqb_eq in Hc as ->. destruct Hr. by left.
  - cbn [andb orb]. apply IH. intros Hin. apply Hr. by right.
Qed.

(** After the global replacement no occurrence of the pattern is left. *)
Lemma includes_gsub_gone s : includes (gsub m s) (a :: pat') = false.
Proof.
  remember (length s) as n eqn:Hn. revert s Hn.
  induction n as [n IH] using lt_wf_ind. intros s ->.
  destruct s as [|c s]; [done|].
  destruct (startsWith (c :: s) (a :: pat')) eqn:Hm.
  - destruct (gsub_literal_hit c s Hm) as [-> Hlen].
    rewrite includes_after_replacement by done.
    by eapply IH.
  - rewrite gsub_literal_miss by done. cbn [includes].
    rewrite (IH (length s)) by (done || cbn [length]; lia).
    rewrite orb_false_r.
    destruct (startsWith (c :: gsub m s) (a :: pat')) eqn:Hout; [|done].
    rewrite startsWith_cons in Hout, Hm.
    apply andb_true_iff in Hout as [Hc Hout].
    rewrite Hc in Hm. cbn [andb] in Hm.
    apply startsWith_gsub_back in Hout; [congruence|].
    intros Hin. apply h_not_in_pat. by right.
Qed.

End Literal.

(** An occurrence in two texts put end to end is in the first, in the
    second, or runs over the first character of the second. *)
Lemma startsWith_app_cases p : forall x y,
  startsWith (x ++ y) p = true ->
  startsWith x p = true \/ exists c y', y = c :: y' /\ In c p.
Proof.
  induction p as [|a p IH]; intros x y; [by left|].
  destruct x as [|c x]; cbn [app].
  - intros H. right. destruct y as [|c y]; [done|].
    rewrite startsWith_cons in H. apply andb_true_iff in H as [Hc _].
    apply Ascii.eqb_eq in Hc as ->. exists c, y. split; [done|by left].
  - rewrite !startsWith_cons. intros H. apply andb_true_iff in H as [-> H].
    cbn [andb]. destruct (IH x y H) as [|(d & y' & -> & Hin)]; [by left|].
    right. exists d, y'. split; [done|by right].
Qed.

Lemma includes_app_cases p x y :
  includes (x ++ y) p = true ->
  includes x p = true \/ includes y p = true
  \/ exists c y', y = c :: y' /\ In c p.
Proof.
  induction x as [|c x IH]; cbn [app]; [auto|].
  cbn [includes]. intros H. apply orb_true_iff in H as [H|H].
  - destruct (startsWith_app_cases p (c :: x) y H) as [->|Hy]; auto.
  - destruct (IH H) as [->|[Hy|Hy]]; auto. left. apply orb_true_r.
Qed.

Lemma fix_content_postcondition content :
  includes (fix_content content) (txt "export default HttpClient") = true
  /\ includes (fix_content content) (txt "ApiConfig<SecurityDataType>") = false.
Proof.
  unfold fix_content. cbv zeta.
  set (c2 := sub_first _ (sub_first _ content)).
  pose proof (includes_gsub_gone "A"%char (txt "piConfig<SecurityDataType>")
                "H"%char (txt "ttpClientConfig<SecurityDataType>")) as Hgone.
  specialize (Hgone ltac:(cbn; intuition discriminate)
                    ltac:(cbn; intuition discriminate) c2).
  change (literally ("A"%char :: txt "piConfig<SecurityDataType>")
            ("H"%char :: txt "ttpClientConfig<SecurityDataType>"))
    with (literally (txt "ApiConfig<SecurityDataType>")
            (txt "HttpClientConfig<SecurityDataType>")) in Hgone.
  change ("A"%char :: txt "piConfig<SecurityDataType>")
    with (txt "ApiConfig<SecurityDataType>") in Hgone.
  set (c3 := gsub _ c2) in *.
  destruct (includes c3 (txt "export default HttpClient")) eqn:Hexp; cbn [negb].
  - done.
  - split.
    + apply includes_true.
      exists (c3 ++ [ascii_of_N 10; ascii_of_N 10]), (txt ";" ++ [ascii_of_N 10]).
      unfold default_export. by rewrite <- !app_assoc.
    + destruct (includes (c3 ++ default_export) _) eqn:Hinc; [|done].
      apply includes_app_cases in Hinc as [H|[H|(c & y' & Hy & Hin)]].
      * congruence.
      * discriminate H.
      * injection Hy as <- _. cbn in Hin. intuition discriminate.
Qed.

End HttpClientFacts.

Module HttpClientExtras.
Import JS JSFacts SubstFacts HttpClient HttpClientFacts.

(** X15.  [fixHttpClient] writes no file but [HttpClient.ts], and only when it
    is there; the content it writes has a default export of the client
    and no occurrence of [ApiConfig<SecurityDataType>] left, whatever the
    generated content was. *)
Theorem fixHttpClient_result (api : gmap text text) :
  (forall file, file <> txt "HttpClient.ts" ->
     fixHttpClient api !! file = api !! file)
  /\ match fixHttpClient api !! txt "HttpClient.ts" with
     | Some content =>
         includes content (txt "export default HttpClient") = true
         /\ includes content (txt "ApiConfig<SecurityDataType>") = false
     | None => api !! txt "HttpClient.ts" = None
     end.
Proof.
  unfold fixHttpClient.
  destruct (api !! txt "HttpClient.ts") as [content|] eqn:Hfile.
  - split.
    + intros file Hf. by rewrite lookup_insert_ne.
    + rewrite lookup_insert_eq. apply fix_content_postcondition.
  - split; [done|]. by rewrite Hfile.
Qed.

End HttpClientExtras.


(* ===================================================================== *)
(** * publish-packages.js: tags and registry probes *)
(* ===================================================================== *)

Module TagFacts.
Import JS JSFacts Eff EffFacts Publish StepFacts RunFacts TraceFacts
  TraceStepFacts FlowFacts Release FrameFacts.

Lemma sequential_every (Q : event -> Prop) : sequential (every Q).
Proof.
  split; [by constructor|]. intros evs1 k evs2 H1 H2.
  apply Forall_app. by split.
Qed.

Lemma publish_command_no_probe tag :
  startsWith (publish_command tag) (txt "npm view ") = false.
Proof. done. Qed.

Lemma build_command_no_probe p command :
  build_command p = Some command ->
  startsWith command (txt "npm view ") = false.
Proof.
  unfold build_command.
  repeat (destruct (text_eqb p _); [by intros [= <-]|]). done.
Qed.

Section WithEnv.
Variable E : env.
Variable T : text -> Prop.
Variable probes : bool.

(** Proves that the listed events are allowed, none being a publication
    or a probe. *)
Ltac allowed_events :=
  cbn [app];
  repeat (apply List.Forall_cons; [first [exact I | by intros [=]]|]);
  apply List.Forall_nil.

Lemma ret_allowed {A : Type} (a : A) : keeps (mret a : M A)
    (every (allowed T probes)).
Proof. apply keeps_ret, sequential_every. Qed.

Lemma log_allowed (msg : text) : keeps (emit (Log msg) : M unit)
    (every (allowed T probes)).
Proof.
  intros w. rewrite emit_run. eexists _, _, _. split; [reflexivity|].
  allowed_events.
Qed.

Lemma checkEnvironment_allowed :
  emits (checkEnvironment E)
    (fun o evs => Forall (allowed T probes) evs /\ forall c, o <> Exit c).
Proof.
  intros w. rewrite checkEnvironment_run. cbv zeta.
  destruct (sh E w _ _).
  - destruct (sh E _ _ _); eexists _, _, _; (split; [reflexivity|]);
      (split; [allowed_events|done]).
  - eexists _, _, _. split; [reflexivity|]. split; [allowed_events|done].
Qed.

Lemma getCurrentVersion_allowed p : keeps (getCurrentVersion p)
    (every (allowed T probes)).
Proof.
  intros w. rewrite getCurrentVersion_run. eexists _, _, _.
  split; [reflexivity|]. allowed_events.
Qed.

Lemma gather_versions_allowed l : forall pv, keeps (gather_versions l pv)
    (every (allowed T probes)).
Proof.
  induction l as [|q l IH]; intros pv; simpl; [apply ret_allowed|].
  apply keeps_bind; [apply sequential_every|apply getCurrentVersion_allowed|].
  intros v. apply IH.
Qed.

Lemma neutral_allowed e : probes = true -> neutral e -> allowed T probes e.
Proof. intros Hp Hn. destruct e; cbn [allowed neutral] in *; try done; auto. Qed.

Lemma getNextAvailableVersion_allowed n cur type :
  probes = true -> keeps (getNextAvailableVersion E n cur type)
    (every (allowed T probes)).
Proof.
  intros Hp. eapply emits_conseq; [apply getNextAvailableVersion_events|].
  simpl. intros o evs (_ & rest & -> & Hn). constructor; [done|].
  eapply Forall_impl; [exact Hn|]. intros e. by apply neutral_allowed.
Qed.

Lemma choose_version_allowed (custom : text) n cur :
  probes = true \/ ask_versionType E = txt "custom" ->
  keeps (if text_eqb (ask_versionType E) (txt "custom") then mret custom
         else getNextAvailableVersion E n cur (ask_versionType E))
    (every (allowed T probes)).
Proof.
  intros [Hp|Hc].
  - destruct (text_eqb _ _);
      [apply ret_allowed|by apply getNextAvailableVersion_allowed].
  - rewrite Hc. apply ret_allowed.
Qed.

Lemma built_allowed p bev :
  built E p bev -> Forall (allowed T probes) bev.
Proof.
  intros [[_ ->]|[_ [[_ ->]|(command & Hc & ->)]]]; [allowed_events..|].
  apply build_command_no_probe in Hc.
  repeat constructor. cbn [allowed]. congruence.
Qed.

Lemma middle_allowed p n tag o mid :
  T tag -> middle E p n tag o mid -> Forall (allowed T probes) mid.
Proof.
  intros Ht [bev Hb|command Hnb Hc|bev Hb].
  - apply Forall_app. split; [by eapply built_allowed|].
    repeat constructor; [done|]. cbn [allowed].
    by rewrite publish_command_no_probe.
  - apply build_command_no_probe in Hc.
    repeat constructor. cbn [allowed]. congruence.
  - apply Forall_app. split; [by eapply built_allowed|].
    repeat constructor; [done|]. cbn [allowed].
    by rewrite publish_command_no_probe.
Qed.

Lemma publish_steps_allowed q v tag pv :
  T tag -> keeps (publish_steps E q v tag pv) (every (allowed T probes)).
Proof.
  intros Ht. eapply emits_conseq; [apply publish_steps_events|]. simpl.
  intros o evs [(e & -> & ->)|(mid & -> & Hmid)]; [allowed_events|].
  repeat constructor. apply Forall_app. split; [by eapply middle_allowed|].
  allowed_events.
Qed.

Lemma buildPackage_allowed p n : keeps (buildPackage E p n)
    (every (allowed T probes)).
Proof.
  intros w. rewrite buildPackage_run. cbv zeta.
  destruct (build_command p) as [command|] eqn:Hc.
  - apply build_command_no_probe in Hc.
    destruct (sh E _ _ _); eexists _, _, _; rewrite after_after;
      (split; [reflexivity|]); repeat constructor; cbn [allowed]; congruence.
  - eexists _, _, _. split; [reflexivity|]. allowed_events.
Qed.

Lemma createGitHubRelease_allowed tagName notes :
  keeps (createGitHubRelease E tagName notes) (every (allowed T probes)).
Proof.
  intros w. unfold createGitHubRelease.
  unfold mbind, M_bind, bind, try_catch, mret, M_ret, ret, throw.
  rewrite emit_run, execSync_run. destruct (sh E _ _ _).
  - eexists _, _, _. rewrite !after_after. split; [reflexivity|].
    allowed_events.
  - rewrite emit_run. eexists _, _, _. rewrite !after_after.
    split; [reflexivity|]. allowed_events.
Qed.

Lemma branch_allowed :
  keeps (try_catch
           (branch ← execSync E (txt "git branch --show-current") [];
            mret (text_eqb (trim branch) (txt "master")
                  || text_eqb (trim branch) (txt "main")))
           (fun _ => emit (Log (txt "Unable to determine current branch"));;
                     mret false)) (every (allowed T probes)).
Proof.
  intros w.
  unfold mbind, M_bind, bind, try_catch, mret, M_ret, ret, throw.
  rewrite execSync_run. destruct (sh E w _ _).
  - eexists _, _, _. split; [reflexivity|]. allowed_events.
  - rewrite emit_run. rewrite after_after.
    eexists _, _, _. split; [reflexivity|]. allowed_events.
Qed.

Ltac allowed_bind := apply keeps_bind; [apply sequential_every|..].

Lemma build_all_allowed : keeps (build_all E) (every (allowed T probes)).
Proof.
  apply keeps_for_each; [apply sequential_every|]. intros q _.
  destruct (dir_exists E (path q));
    [apply buildPackage_allowed|apply log_allowed].
Qed.

Hypothesis version_chosen : probes = true \/ ask_versionType E = txt "custom".

Lemma publish_one_allowed :
  T (if text_eqb (ask_versionType E) (txt "beta")
     then txt "beta" else txt "latest") ->
  keeps (publish_one E) (every (allowed T probes)).
Proof.
  intros Ht. unfold publish_one. cbv zeta.
  allowed_bind; [apply getCurrentVersion_allowed|].
  intros cur. allowed_bind; [by apply choose_version_allowed|].
  intros v. allowed_bind; [apply gather_versions_allowed|].
  intros pv. by apply publish_steps_allowed.
Qed.

Lemma prerelease_loop_allowed l tag :
  T tag ->
  forall pv, keeps (prerelease_loop E l tag (ask_versionType E) pv)
    (every (allowed T probes)).
Proof.
  intros Ht. induction l as [|q l IH]; intros pv; simpl; [apply ret_allowed|].
  destruct (dir_exists E (path q)); simpl.
  - allowed_bind; [apply getCurrentVersion_allowed|].
    intros cur. allowed_bind; [by apply choose_version_allowed|].
    intros v. allowed_bind; [by apply publish_steps_allowed|].
    intros _. apply IH.
  - allowed_bind; [apply log_allowed|]. intros _. apply IH.
Qed.

Lemma publish_prerelease_allowed :
  T (ask_tag E) -> keeps (publish_prerelease E) (every (allowed T probes)).
Proof.
  intros Ht. unfold publish_prerelease. cbv zeta.
  allowed_bind; [apply gather_versions_allowed|].
  intros pv. by apply prerelease_loop_allowed.
Qed.

Lemma publish_all_loop_allowed l base tag :
  T tag -> forall pv, keeps (publish_all_loop E l base tag pv)
    (every (allowed T probes)).
Proof.
  intros Ht. induction l as [|q l IH]; intros pv; simpl; [apply ret_allowed|].
  destruct (dir_exists E (path q)); simpl.
  - allowed_bind; [by apply publish_steps_allowed|]. intros _. apply IH.
  - allowed_bind; [apply log_allowed|]. intros _. apply IH.
Qed.

Lemma publish_all_allowed :
  (ask_confirm E = true ->
   T (txt "latest") /\ (ask_versionType E = txt "beta" -> T (txt "beta"))) ->
  keeps (publish_all E) (every (allowed T probes)).
Proof.
  intros Ht. unfold publish_all.
  allowed_bind; [apply branch_allowed|].
  intros master. cbv zeta. allowed_bind; [apply gather_versions_allowed|].
  intros pv. allowed_bind.
  { destruct version_chosen as [Hp|Hc].
    - destruct (text_eqb _ _); [apply ret_allowed|].
      by apply getNextAvailableVersion_allowed.
    - rewrite Hc. apply ret_allowed. }
  intros base. destruct (ask_confirm E); cbn [negb]; [|apply log_allowed].
  destruct (Ht eq_refl) as [Hlatest Hbeta].
  allowed_bind.
  - apply publish_all_loop_allowed.
    destruct (text_eqb (ask_versionType E) (txt "beta")) eqn:Hb; [|done].
    apply text_eqb_eq in Hb. destruct master; cbn [negb andb]; auto.
  - intros pv'. destruct master; [|apply ret_allowed].
    apply createGitHubRelease_allowed.
Qed.

Lemma main_allowed :
  (ask_action E = txt "publish-one" ->
   T (if text_eqb (ask_versionType E) (txt "beta")
      then txt "beta" else txt "latest")) ->
  (ask_action E = txt "publish-prerelease" -> T (ask_tag E)) ->
  (ask_action E = txt "publish-all" -> ask_confirm E = true ->
   T (txt "latest") /\ (ask_versionType E = txt "beta" -> T (txt "beta"))) ->
  keeps (main E) (every (allowed T probes)).
Proof.
  intros Hone Hpre Hall. unfold main.
  eapply emits_bind with
    (Φ2 := fun _ o evs => every (allowed T probes) (ending_of o) evs);
    [apply checkEnvironment_allowed| |..].
  - intros ready. destruct ready; cbn [negb].
    + allowed_bind.
      { apply keeps_for_each; [apply sequential_every|]. intros q _.
        allowed_bind; [apply getCurrentVersion_allowed|].
        intros _. apply ret_allowed. }
      intros _. cbv zeta.
      destruct (text_eqb (ask_action E) (txt "cancel")); [apply log_allowed|].
      destruct (text_eqb (ask_action E) (txt "build-all"));
        [apply build_all_allowed|].
      destruct (text_eqb (ask_action E) (txt "publish-one")) eqn:H1.
      { apply text_eqb_eq in H1. by apply publish_one_allowed, Hone. }
      destruct (text_eqb (ask_action E) (txt "publish-prerelease")) eqn:H2.
      { apply text_eqb_eq in H2. by apply publish_prerelease_allowed, Hpre. }
      destruct (text_eqb (ask_action E) (txt "publish-all")) eqn:H3.
      { apply text_eqb_eq in H3. apply publish_all_allowed. by apply Hall. }
      apply ret_allowed.
    + apply emits_exit. constructor.
  - intros a evs1 o evs2 [H1 _] H2. apply Forall_app. by split.
  - by intros e evs [H _].
  - by intros c evs [H _].
Qed.

Lemma script_allowed :
  keeps (main E) (every (allowed T probes)) -> keeps (script E)
    (every (allowed T probes)).
Proof.
  intros Hmain. unfold script.
  eapply emits_try_catch with
    (Φ1 := fun o evs => Forall (allowed T probes) evs)
    (Φ2 := fun e o evs => Forall (allowed T probes) evs).
  - exact Hmain.
  - intros e w. unfold mbind, M_bind, bind. rewrite emit_run.
    eexists _, _, _. split; [reflexivity|]. allowed_events.
  - intros e evs1 o evs2 H1 H2. apply Forall_app. by split.
  - done.
  - done.
Qed.

End WithEnv.

End TagFacts.

Module TagExtras.
Import JS JSFacts Eff EffFacts Publish StepFacts RunFacts TraceFacts
  Release TagFacts.

(** X16.  Every publication of a run carries the tag of its action: for
    "publish one" it is [beta] for a beta bump and [latest] otherwise, for
    "publish prerelease" the tag the user selected whatever the bump, and
    for "publish all" [latest], or [beta] and then the bump is a beta
    bump.  No other action publishes. *)
Theorem publications_carry_the_tag_of_the_run (E : env) (w : world) :
  exists evs,
    trace (snd (script E w)) = trace w ++ evs
    /\ forall p tag, In (PublishPackage p tag) evs -> tag_of_run E tag.
Proof.
  destruct (script_allowed E (tag_of_run E) true
              (main_allowed E (tag_of_run E) true (or_introl eq_refl)
                 ltac:(intros H; left; by split)
                 ltac:(intros H; right; left; by split)
                 ltac:(intros H Hc; split;
                       [right; right; auto|
                        intros Hb; right; right; auto]))
              w)
    as (o & st & evs & Hrun & Hall).
  exists evs. rewrite Hrun. split; [done|].
  intros p tag Hin. unfold every in Hall.
  rewrite List.Forall_forall in Hall. exact (Hall _ Hin).
Qed.

(** X17.  With a custom version the registry is never asked: no run of the
    script computes a next version or probes the registry for one, so
    the version the user typed is published as it is, free or not. *)
Theorem custom_version_skips_registry (E : env) (w : world) :
  ask_versionType E = txt "custom" ->
  exists evs,
    trace (snd (script E w)) = trace w ++ evs
    /\ (forall n type, ~ In (GetNextAvailableVersion n type) evs)
    /\ forall command cwd succeeded,
         In (ExecSync command cwd succeeded) evs ->
         startsWith command (txt "npm view ") = false.
Proof.
  intros Hcustom.
  destruct (script_allowed E (fun _ => True) false
              (main_allowed E (fun _ => True) false (or_intror Hcustom)
                 ltac:(done) ltac:(done) ltac:(done))
              w)
    as (o & st & evs & Hrun & Hall).
  exists evs. rewrite Hrun. split; [done|].
  unfold every in Hall. rewrite List.Forall_forall in Hall. split.
  - intros n type Hin. by specialize (Hall _ Hin).
  - intros command cwd succeeded Hin. specialize (Hall _ Hin).
    cbn [allowed] in Hall.
    destruct (startsWith command (txt "npm view ")); [|done].
    by specialize (Hall eq_refl).
Qed.

Lemma custom_version_skips_registry_witness :
  exists evs,
    trace (snd (script
                  {| noBuild := false;
                     sh := fun _ _ _ => Some [];
                     dir_exists := fun _ => true;
                     ask_action := txt "publish-one";
                     ask_selectedPackage := ask_selectedPackage (sample_env false);
                     ask_versionType := txt "custom";
                     ask_customVersion := fun _ => txt "3.0.0";
                     ask_customVersion_all := [];
                     ask_tag := txt "beta";
                     ask_confirm := true |}
                  (World sample_files [])))
    = [] ++ evs
    /\ (forall n type, ~ In (GetNextAvailableVersion n type) evs)
    /\ forall command cwd succeeded,
         In (ExecSync command cwd succeeded) evs ->
         startsWith command (txt "npm view ") = false.
Proof.
  apply (custom_version_skips_registry
           {| noBuild := false;
              sh := fun _ _ _ => Some [];
              dir_exists := fun _ => true;
              ask_action := txt "publish-one";
              ask_selectedPackage := ask_selectedPackage (sample_env false);
              ask_versionType := txt "custom";
              ask_customVersion := fun _ => txt "3.0.0";
              ask_customVersion_all := [];
              ask_tag := txt "beta";
              ask_confirm := true |}
           (World sample_files [])).
  reflexivity.
Defined.

End TagExtras.


(* ===================================================================== *)
(** * generate-api-types.js: organizing the files *)
(* ===================================================================== *)

Module OrganizeFacts.
Import JS JSFacts GenTypes Organize.

Lemma place_of_index : place_of (txt "index.ts") = InRoot.
Proof. reflexivity. Qed.

Lemma place_of_types_ts : place_of (txt "types.ts") = InTypes (txt "index.ts").
Proof. reflexivity. Qed.

(** A file that goes to the type directory goes under its own name,
    [types.ts] apart, and never under the name of the index. *)
Lemma place_of_types file name :
  place_of file = InTypes name ->
  (file = txt "types.ts" /\ name = txt "index.ts")
  \/ (file <> txt "types.ts" /\ name = file /\ file <> txt "index.ts").
Proof.
  intros H. destruct (text_eqb_spec file (txt "types.ts")) as [->|Hne].
  - left. rewrite place_of_types_ts in H. by injection H as <-.
  - right. split; [done|].
    assert (name = file) as ->.
    { unfold place_of in H.
      destruct (endsWith file _); [|done].
      destruct (_ || _ || _); [done|].
      destruct (_ || _); [|done].
      apply text_eqb_neq in Hne. rewrite Hne in H. by injection H as <-. }
    split; [done|]. intros ->. by rewrite place_of_index in H.
Qed.

(** No two files go to the same place of the type directory. *)
Lemma place_of_types_inj file file' name :
  place_of file = InTypes name -> place_of file' = InTypes name -> file = file'.
Proof.
  intros H H'.
  destruct (place_of_types _ _ H) as [[-> ->]|(Hf & -> & Hi)],
           (place_of_types _ _ H') as [[-> Hn]|(Hf' & Hn & Hi')];
    congruence.
Qed.

(** What one round leaves alone. *)
Lemma move_one_frame d file d' :
  move_one d file = Some d' ->
  (forall f, f <> file -> root d' !! f = root d !! f)
  /\ (forall f, f <> file -> api d' !! f = api d !! f)
  /\ (forall n, place_of file <> InTypes n -> types d' !! n = types d !! n).
Proof.
  unfold move_one. destruct (place_of file) as [|name|] eqn:Hp.
  - destruct (root d !! file) as [content|]; [|done]. intros [= <-].
    cbn [root api types]. split; [|split]; try done.
    + intros f Hf. by rewrite lookup_delete_ne.
    + intros f Hf. by rewrite lookup_insert_ne.
  - destruct (root d !! file) as [content|]; [|done]. intros [= <-].
    cbn [root api types]. split; [|split]; try done.
    + intros f Hf. by rewrite lookup_delete_ne.
    + intros n Hn. rewrite lookup_insert_ne; [done|]. congruence.
  - by intros [= <-].
Qed.

Lemma move_files_frame files : forall d d',
  move_files files d = Some d' ->
  (forall f, ~ In f files -> root d' !! f = root d !! f)
  /\ (forall f, ~ In f files -> api d' !! f = api d !! f)
  /\ (forall n, (forall f, In f files -> place_of f <> InTypes n) ->
        types d' !! n = types d !! n).
Proof.
  induction files as [|file files IH]; intros d d'; cbn [move_files].
  { by intros [= <-]. }
  destruct (move_one d file) as [d1|] eqn:H1; [|done]. cbn. intros Hrest.
  destruct (move_one_frame _ _ _ H1) as (Hr1 & Ha1 & Ht1).
  destruct (IH _ _ Hrest) as (Hr & Ha & Ht).
  split; [|split].
  - intros f Hf. rewrite Hr by (intros ?; apply Hf; by right).
    apply Hr1. intros ->. apply Hf. by left.
  - intros f Hf. rewrite Ha by (intros ?; apply Hf; by right).
    apply Ha1. intros ->. apply Hf. by left.
  - intros n Hn. rewrite Ht by (intros f ?; apply Hn; by right).
    apply Ht1. apply Hn. by left.
Qed.

(** What one round does to its file. *)
Lemma move_one_placed d file content :
  root d !! file = Some content ->
  exists d',
    move_one d file = Some d'
    /\ match place_of file with
       | InApi => api d' !! file = Some content /\ root d' !! file = None
       | InTypes name =>
           types d' !! name = Some content /\ root d' !! file = None
       | InRoot => root d' !! file = Some content
       end.
Proof.
  intros Hc. unfold move_one. destruct (place_of file) as [|name|];
    rewrite ?Hc; cbn; eexists; (split; [reflexivity|]); cbn [root api types];
    rewrite ?lookup_insert_eq, ?lookup_delete_eq; done.
Qed.

Lemma move_files_placed files : forall d,
  NoDup files -> (forall file, In file files -> is_Some (root d !! file)) ->
  exists d',
    move_files files d = Some d'
    /\ forall file content, In file files -> root d !! file = Some content ->
         match place_of file with
         | InApi => api d' !! file = Some content /\ root d' !! file = None
         | InTypes name =>
             types d' !! name = Some content /\ root d' !! file = None
         | InRoot => root d' !! file = Some content
         end.
Proof.
  induction files as [|file files IH]; intros d Hnd Hall; cbn [move_files].
  { exists d. split; [done|]. by intros file content []. }
  apply NoDup_cons in Hnd as [Hfile Hnd].
  rewrite list_elem_of_In in Hfile.
  destruct (Hall file (or_introl eq_refl)) as [c Hc].
  destruct (move_one_placed d file c Hc) as (d1 & H1 & Hplaced).
  destruct (move_one_frame _ _ _ H1) as (Hr1 & _ & _).
  destruct (IH d1 Hnd) as (d' & Hrest & Hothers).
  { intros f Hf. rewrite Hr1 by (by intros ->). apply Hall. by right. }
  exists d'. rewrite H1. cbn. split; [done|].
  destruct (move_files_frame _ _ _ Hrest) as (Hr & Ha & Ht).
  intros f content [<-|Hf] Hcontent.
  - rewrite Hc in Hcontent. injection Hcontent as <-.
    destruct (place_of file) as [|name|] eqn:Hp.
    + by rewrite Ha, Hr.
    + rewrite Hr by done. rewrite Ht; [done|].
      intros f Hf Hpf. destruct (place_of_types_inj _ _ _ Hp Hpf).
      by apply Hfile.
    + by rewrite Hr.
  - apply Hothers; [done|]. rewrite Hr1; [done|]. by intros ->.
Qed.

(** ** Two runs that differ in the content of [types.ts] *)

Lemma move_one_differ_in_root c1 c2 d1 d2 file :
  file <> txt "types.ts" -> differ_in_root c1 c2 d1 d2 ->
  match move_one d1 file, move_one d2 file with
  | Some d1', Some d2' => differ_in_root c1 c2 d1' d2'
  | None, None => True
  | _, _ => False
  end.
Proof.
  intros Hf (Ha & Ht & r & Hr1 & Hr2). unfold move_one.
  assert (root d1 !! file = root d2 !! file) as Hsame.
  { by rewrite Hr1, Hr2, !lookup_insert_ne. }
  destruct (place_of file) as [|name|].
  - rewrite <- Hsame. destruct (root d1 !! file) as [content|]; cbn; [|done].
    split; [cbn; by rewrite Ha|]. split; [done|].
    exists (delete file r). cbn [root].
    by rewrite Hr1, Hr2, !delete_insert_ne.
  - rewrite <- Hsame. destruct (root d1 !! file) as [content|]; cbn; [|done].
    split; [done|]. split; [cbn; by rewrite Ht|].
    exists (delete file r). cbn [root].
    by rewrite Hr1, Hr2, !delete_insert_ne.
  - by split; [|split; [|exists r]].
Qed.

Lemma move_files_differ_in_root c1 c2 files : forall d1 d2,
  ~ In (txt "types.ts") files -> differ_in_root c1 c2 d1 d2 ->
  match move_files files d1, move_files files d2 with
  | Some d1', Some d2' => differ_in_root c1 c2 d1' d2'
  | None, None => True
  | _, _ => False
  end.
Proof.
  induction files as [|file files IH]; intros d1 d2 Hnot Hd; [done|].
  cbn [move_files].
  assert (file <> txt "types.ts") as Hf by (intros ->; apply Hnot; by left).
  pose proof (move_one_differ_in_root c1 c2 d1 d2 file Hf Hd) as H1.
  destruct (move_one d1 file) as [d1'|], (move_one d2 file) as [d2'|]; cbn;
    try done.
  apply IH; [intros ?; apply Hnot; by right|done].
Qed.

Lemma move_one_differ_in_types c1 c2 d1 d2 file :
  file <> txt "types.ts" -> differ_in_types c1 c2 d1 d2 ->
  match move_one d1 file, move_one d2 file with
  | Some d1', Some d2' => differ_in_types c1 c2 d1' d2'
  | None, None => True
  | _, _ => False
  end.
Proof.
  intros Hf (Ha & Hr & t & Ht1 & Ht2). unfold move_one.
  destruct (place_of file) as [|name|] eqn:Hp.
  - rewrite <- Hr. destruct (root d1 !! file) as [content|]; cbn; [|done].
    split; [cbn; by rewrite Ha|]. split; [done|]. by exists t.
  - rewrite <- Hr. destruct (root d1 !! file) as [content|]; cbn; [|done].
    split; [done|]. split; [done|].
    destruct (place_of_types _ _ Hp) as [[-> _]|(_ & -> & Hi)]; [done|].
    exists (<[file := content]> t). cbn [types].
    rewrite Ht1, Ht2. split; by apply insert_insert_ne.
  - by split; [|split; [|exists t]].
Qed.

Lemma move_files_differ_in_types c1 c2 files : forall d1 d2,
  ~ In (txt "types.ts") files -> differ_in_types c1 c2 d1 d2 ->
  match move_files files d1, move_files files d2 with
  | Some d1', Some d2' => differ_in_types c1 c2 d1' d2'
  | None, None => True
  | _, _ => False
  end.
Proof.
  induction files as [|file files IH]; intros d1 d2 Hnot Hd; [done|].
  cbn [move_files].
  assert (file <> txt "types.ts") as Hf by (intros ->; apply Hnot; by left).
  pose proof (move_one_differ_in_types c1 c2 d1 d2 file Hf Hd) as H1.
  destruct (move_one d1 file) as [d1'|], (move_one d2 file) as [d2'|]; cbn;
    try done.
  apply IH; [intros ?; apply Hnot; by right|done].
Qed.

(** The round of [types.ts] itself. *)
Lemma move_types_ts c1 c2 d1 d2 :
  differ_in_root c1 c2 d1 d2 ->
  exists d1' d2',
    move_one d1 (txt "types.ts") = Some d1'
    /\ move_one d2 (txt "types.ts") = Some d2'
    /\ differ_in_types c1 c2 d1' d2'.
Proof.
  intros (Ha & Ht & r & Hr1 & Hr2). unfold move_one.
  rewrite place_of_types_ts, Hr1, Hr2, !lookup_insert_eq. cbn.
  eexists _, _. split; [reflexivity|]. split; [reflexivity|].
  split; [done|]. split; [cbn; by rewrite !delete_insert_eq|].
  exists (types d1). cbn [types]. by rewrite Ht.
Qed.

Lemma move_files_app l1 l2 d :
  move_files (l1 ++ l2) d = d' ← move_files l1 d; move_files l2 d'.
Proof.
  revert d. induction l1 as [|f l1 IH]; intros d; [done|].
  cbn [app move_files]. destruct (move_one d f); cbn; [apply IH|done].
Qed.

End OrganizeFacts.

Module OrganizeExtras.
Import JS JSFacts GenTypes Organize OrganizeFacts.

(** X18.  The loop of [organizeGeneratedFiles] loses no file: when the listing
    gives each name once and each listed file is there, no move fails,
    and afterwards every listed file is, with the content it had, in the
    one place its name sends it to -- the [api] directory, the [types]
    directory ([types.ts] as [index.ts]), or where it was.  No two files
    are moved onto each other. *)
Theorem moved_files_keep_their_content (files : list text) (d : dirs) :
  NoDup files ->
  (forall file, In file files -> is_Some (root d !! file)) ->
  exists d',
    move_files files d = Some d'
    /\ forall file content, In file files -> root d !! file = Some content ->
         match place_of file with
         | InApi => api d' !! file = Some content /\ root d' !! file = None
         | InTypes name =>
             types d' !! name = Some content /\ root d' !! file = None
         | InRoot => root d' !! file = Some content
         end.
Proof. apply move_files_placed. Qed.

Lemma moved_files_keep_their_content_witness :
  let files := [txt "Article.ts"; txt "data-contracts.ts"; txt "types.ts";
                txt "readme.ts"] in
  let d := Dirs {[ txt "Article.ts" := txt "a";
                   txt "data-contracts.ts" := txt "b";
                   txt "types.ts" := txt "c";
                   txt "readme.ts" := txt "d" ]} ∅ ∅ in
  exists d',
    move_files files d = Some d'
    /\ forall file content, In file files -> root d !! file = Some content ->
         match place_of file with
         | InApi => api d' !! file = Some content /\ root d' !! file = None
         | InTypes name =>
             types d' !! name = Some content /\ root d' !! file = None
         | InRoot => root d' !! file = Some content
         end.
Proof.
  intros files d. apply (moved_files_keep_their_content files d).
  - repeat (apply NoDup_cons; split;
            [rewrite list_elem_of_In; cbn [In]; intuition discriminate|]).
    apply NoDup_nil_2.
  - intros file Hin. cbn [In files] in Hin.
    destruct Hin as [<-|[<-|[<-|[<-|[]]]]]; by eexists.
Defined.

(** X19.  The content of a generated [types.ts] does not survive the
    organizing: the loop moves it to [types/index.ts], and
    [createTypeIndex] then writes the index over it.  Two runs on
    directories that differ only in that content succeed and leave the
    same files with the same contents. *)
Theorem organize_forgets_types_ts (readdir : gset text -> list text)
    (d : dirs) (c1 c2 : text) :
  lists readdir ->
  exists d',
    organize readdir (with_types_ts c1 d) = Some d'
    /\ organize readdir (with_types_ts c2 d) = Some d'.
Proof.
  intros Hlists. unfold organize, with_types_ts. cbn [root api types].
  rewrite !dom_insert_L.
  set (files := readdir ({[txt "types.ts"]} ∪ dom (root d))).
  destruct (Hlists ({[txt "types.ts"]} ∪ dom (root d))) as [Hnd Hin].
  fold files in Hnd, Hin.
  assert (In (txt "types.ts") files) as Hhere.
  { apply Hin, elem_of_union_l. by apply elem_of_singleton. }
  apply in_split in Hhere as (l1 & l2 & Hfiles).
  rewrite Hfiles in Hnd. pose proof Hnd as Hnd0.
  apply NoDup_app in Hnd as (Hnd1 & Hnot1 & Hnd2).
  apply NoDup_cons in Hnd2 as [Hnot2 _].
  assert (~ In (txt "types.ts") l1) as Hl1.
  { intros H. apply (Hnot1 (txt "types.ts")); [by apply list_elem_of_In|].
    by left. }
  assert (~ In (txt "types.ts") l2) as Hl2 by by rewrite <- list_elem_of_In.
  (* the first run succeeds *)
  destruct (move_files_placed files
              (Dirs (<[txt "types.ts" := c1]> (root d)) (api d) (types d)))
    as (e1 & Hrun1 & _).
  { by rewrite Hfiles. }
  { intros file Hfile. apply Hin in Hfile. cbn [root].
    apply elem_of_dom. rewrite dom_insert_L. done. }
  (* and the second follows it *)
  pose proof (move_files_differ_in_root c1 c2 l1
                (Dirs (<[txt "types.ts" := c1]> (root d)) (api d) (types d))
                (Dirs (<[txt "types.ts" := c2]> (root d)) (api d) (types d)) Hl1)
    as Hstep1.
  rewrite Hfiles, move_files_app in Hrun1. rewrite Hfiles, !move_files_app.
  destruct (move_files l1 (Dirs (<[txt "types.ts" := c1]> (root d)) _ _))
    as [a1|] eqn:Ha1; [|done].
  destruct (move_files l1 (Dirs (<[txt "types.ts" := c2]> (root d)) _ _))
    as [a2|] eqn:Ha2;
    [|exfalso; apply Hstep1; by split; [|split; [|exists (root d)]]].
  specialize (Hstep1 ltac:(by split; [|split; [|exists (root d)]])).
  cbn [mbind option_bind move_files] in Hrun1 |- *.
  destruct (move_types_ts c1 c2 a1 a2 Hstep1) as (b1 & b2 & Hb1 & Hb2 & Hstep2).
  rewrite Hb1 in Hrun1 |- *. rewrite Hb2.
  cbn [mbind option_bind] in Hrun1 |- *.
  pose proof (move_files_differ_in_types c1 c2 l2 b1 b2 Hl2 Hstep2) as Hstep3.
  rewrite Hrun1 in Hstep3 |- *.
  destruct (move_files l2 b2) as [e2|]; [|done].
  destruct Hstep3 as (Hapi & Hroot & t & Ht1 & Ht2). cbn.
  eexists. split; [reflexivity|]. rewrite Hapi, Hroot. do 2 f_equal.
  unfold createTypeIndex. cbv zeta.
  rewrite Ht1, Ht2, !dom_insert_L, !insert_insert_eq. done.
Qed.

Lemma organize_forgets_types_ts_witness :
  exists d',
    organize (fun names => elements names)
      (with_types_ts (txt "export type A = string;") (Dirs ∅ ∅ ∅)) = Some d'
    /\ organize (fun names => elements names)
         (with_types_ts (txt "export type B = number;") (Dirs ∅ ∅ ∅)) = Some d'.
Proof.
  apply (organize_forgets_types_ts (fun names => elements names) (Dirs ∅ ∅ ∅)
           (txt "export type A = string;") (txt "export type B = number;")).
  intros names. split.
  - apply NoDup_elements.
  - intros file. rewrite <- list_elem_of_In. apply elem_of_elements.
Defined.

End OrganizeExtras.
